(** * Bryozoan colony model: a shallow embedding of [Bryozoan.py]

    The colony is a resistive network on a hexagonal-ish lattice.  This
    file embeds the constructor [Colony.__init__], the outflow setter
    [Colony.setouterconductivities], the steady-state solve
    [Colony.solvecolony], the feedback law [dCdt_default] and the
    integrator [Colony.UpdateColony], and proves properties of them.

    Conventions of the embedding:
    - Python integers are [Z]; a finite float is a real number [R], and
      [+], [-], [*], [/] and [abs] on floats are those of the reals;
    - [nan] and [inf] are not represented: where the code would go on with
      one of them (the logarithm of a conductance that is not positive, a
      division by zero) the run of the model ends with the outcome
      [Raise NotFollowed];
    - an array that the code assigns into ([OutflowConduits]) keeps the
      kind of its items, [int64] or [float64], since an assignment
      converts to it;
    - a Python exception is an explicit outcome [Raise e];
    - methods of [Colony] are state-passing computations over the object;
    - the external numerical routines ([scipy]'s [bicgstab] and [dopri5]
      stepper, [numpy]'s [power], [log] and [exp], which round) are not
      part of the repository: they are taken as the fields of a record
      [numerics]. *)

From Stdlib Require Import Reals Lra Lia ZArith List.
From stdpp Require Import gmap strings.

(** ** Outcomes of fallible code

    The first five are Python exceptions.  [NotFollowed] is none: it ends
    a run of the model where the code goes on, under a [RuntimeWarning] at
    most, with a value that is no real number or not the number asked for
    ([nan], [inf], the result of a cast that does not fit), or with an
    array of a kind that is not embedded; this embedding does not follow
    such a run. *)

Inductive exn : Set :=
| ValueError
| TypeError
| IndexError
| ZeroDivisionError
| OverflowError
| NotFollowed.

Inductive res (A : Type) : Type :=
| Val (a : A)
| Raise (e : exn).
Arguments Val {A} a.
Arguments Raise {A} e.

Definition res_bind {A B : Type} (r : res A) (k : A -> res B) : res B :=
  match r with
  | Val a => k a
  | Raise e => Raise e
  end.

Notation "x <~ r ;; k" := (res_bind r (fun x => k))
  (at level 100, r at next level, right associativity).

(** ** Vectors ([numpy] one-dimensional arrays of floats) *)

Abbreviation vec := (list R).

Definition Rsum (l : list R) : R := fold_right Rplus 0%R l.

(** Element-wise binary operation with [numpy]'s broadcasting rule for
    one-dimensional operands: equal lengths pair up, a length-one operand
    is stretched, anything else is a [ValueError]. *)
Definition broadcast (op : R -> R -> R) (a b : vec) : res vec :=
  if (length a =? length b)%nat then Val (zip_with op a b)
  else match a, b with
       | [x], _ => Val (map (op x) b)
       | _, [y] => Val (map (fun x => op x y) a)
       | _, _ => Raise ValueError
       end.

(** ** Sparse matrices

    A matrix is kept in coordinate form: its shape and a list of
    (row, column, value) triples.  As in [scipy.sparse], repeated
    coordinates stand for the sum of their values. *)

Record matrix : Type := mkMatrix {
  nrows : nat;
  ncols : nat;
  entries : list (nat * nat * R)
}.

Definition in_range (bound : Z) (i : Z) : bool :=
  (0 <=? i)%Z && (i <? bound)%Z.

(** [sparse.coo_matrix((data, (row, col)), shape)]. *)
Definition coo_matrix (data : list R) (row col : list Z) (shape : Z * Z)
  : res matrix :=
  if (length data =? length row)%nat && (length data =? length col)%nat
     && (0 <=? shape.1)%Z && (0 <=? shape.2)%Z
     && forallb (in_range shape.1) row && forallb (in_range shape.2) col
  then Val (mkMatrix (Z.to_nat shape.1) (Z.to_nat shape.2)
              (zip_with (fun ij v => (Z.to_nat ij.1, Z.to_nat ij.2, v))
                 (zip_with pair row col) data))
  else Raise ValueError.

Definition transpose (M : matrix) : matrix :=
  mkMatrix (ncols M) (nrows M)
    (map (fun e => (e.1.2, e.1.1, e.2)) (entries M)).

(** [sparse.diags(d, 0)]. *)
Definition diags (d : list R) : matrix :=
  mkMatrix (length d) (length d) (imap (fun i v => (i, i, v)) d).

Definition scale_entries (k : R) (M : matrix) : matrix :=
  mkMatrix (nrows M) (ncols M)
    (map (fun e => (e.1, (k * e.2)%R)) (entries M)).

Definition sparse_add (A B : matrix) : res matrix :=
  if (nrows A =? nrows B)%nat && (ncols A =? ncols B)%nat
  then Val (mkMatrix (nrows A) (ncols A) (entries A ++ entries B))
  else Raise ValueError.

Definition sparse_sub (A B : matrix) : res matrix :=
  sparse_add A (scale_entries (-1) B).

(** Sparse matrix product [A * B]. *)
Definition matmul (A B : matrix) : res matrix :=
  if (ncols A =? nrows B)%nat
  then Val (mkMatrix (nrows A) (ncols B)
              (flat_map (fun a =>
                 flat_map (fun b =>
                   if (a.1.2 =? b.1.1)%nat
                   then [(a.1.1, b.1.2, (a.2 * b.2)%R)] else [])
                   (entries B))
                 (entries A)))
  else Raise ValueError.

(** Row [i] of [M] applied to a column given by its entries [F j]: the sum
    of [value * F column] over the stored triples of that row. *)
Definition row_apply (M : matrix) (i : nat) (F : nat -> R) : R :=
  Rsum (map (fun e => if (e.1.1 =? i)%nat then (e.2 * F e.1.2)%R else 0%R)
          (entries M)).

(** Row [i] of [M] applied to the dense vector [x]. *)
Definition row_dot (M : matrix) (i : nat) (x : vec) : R :=
  row_apply M i (fun j => nth j x 0%R).

(** Product of a sparse matrix with a dense column. *)
Definition matvec (M : matrix) (x : vec) : res vec :=
  if (ncols M =? length x)%nat
  then Val (map (fun i => row_dot M i x) (seq 0 (nrows M)))
  else Raise ValueError.

(** [sparse.vstack((A, B))]. *)
Definition sparse_vstack (A B : matrix) : res matrix :=
  if (ncols A =? ncols B)%nat
  then Val (mkMatrix (nrows A + nrows B) (ncols A)
              (entries A ++
               map (fun e => ((nrows A + e.1.1)%nat, e.1.2, e.2)) (entries B)))
  else Raise ValueError.

(** [M.sum(axis=1)] as a flat list. *)
Definition row_sums (M : matrix) : list R :=
  map (fun i => Rsum (map (fun e => if (e.1.1 =? i)%nat then e.2 else 0%R)
                        (entries M)))
    (seq 0 (nrows M)).

(** ** Integer index arrays *)

(** [numpy.arange(start, stop, step)] on integers: [ceil((stop-start)/step)]
    elements when that is positive, none otherwise. *)
Definition arange_items (start stop step : Z) : list Z :=
  map (fun k => (start + Z.of_nat k * step)%Z)
    (seq 0 (Z.to_nat (- ((start - stop) / step)))).

Definition arange (start stop step : Z) : res (list Z) :=
  if (step =? 0)%Z then Raise ZeroDivisionError
  else Val (arange_items start stop step).

(** The items of [arr], whose first item has position [p], at the
    positions that are not [bad]. *)
Fixpoint drop_positions {A : Type} (bad : Z -> bool) (p : Z) (arr : list A)
  : list A :=
  match arr with
  | [] => []
  | a :: arr' =>
      if bad p then drop_positions bad (p + 1) arr'
      else a :: drop_positions bad (p + 1) arr'
  end.

(** [numpy.delete(arr, obj)]: drop the positions listed in [obj]; a
    negative position counts from the end, one out of bounds is an
    [IndexError]. *)
Definition np_delete {A : Type} (arr : list A) (obj : list Z) : res (list A) :=
  let len := Z.of_nat (length arr) in
  if forallb (fun i => (- len <=? i)%Z && (i <? len)%Z) obj
  then Val (drop_positions
              (fun p => existsb (fun i => (i mod len =? p)%Z) obj) 0 arr)
  else Raise IndexError.

(** ** External numerical routines

    [np_power] is [numpy]'s [**] on floats, [np_log] and [np_exp] are its
    [log] (on positive floats) and [exp]; being floating-point routines
    they round, and nothing is assumed of them.  [bicgstab A b x0] is
    [scipy.sparse.linalg.bicgstab]: it returns a vector and a convergence
    flag ([0] when it converged).  The remaining fields describe the
    adaptive explicit Runge-Kutta stepper behind
    [scipy.integrate.ode(...).set_integrator('dopri5')]: its tableau (one
    row [(c, a)] per stage and the weights of the solution), its budget of
    steps, its choice of the first step, its decision to stop or to try a
    step of some size, and its verdict on a trial step. *)

Inductive verdict : Type :=
| Accept (hnew : R)
| Reject (hnew : R)
| Abort.

Record numerics : Type := {
  np_power : R -> R -> R;
  np_log : R -> R;
  np_exp : R -> R;
  bicgstab : matrix -> vec -> option vec -> vec * Z;
  rk_rows : list (R * list R);
  rk_weights : list R;
  rk_nsteps : nat;
  rk_hinit : R -> vec -> vec -> R -> R;
  rk_plan : R -> R -> R -> option R;
  rk_judge : R -> R -> vec -> vec -> list vec -> verdict
}.

(** The solver answers with a vector of the size of the system. *)
Definition solver_shaped (L : numerics) : Prop :=
  forall (A : matrix) (b : vec) (x0 : option vec),
    length (bicgstab L A b x0).1 = nrows A.

(** ** The feedback law *)

(** [params.get(key)]: the number stored under [key], or [None]. *)
Definition get_param (params : gmap string R) (key : string) : option R :=
  params !! key.

(** [Cs ** e] and [k * a] where the scalar comes from [params.get] and may
    be [None].  [numpy] meets a [None] inside its loop over the items of
    the array: that is a [TypeError] when the array has an item, and an
    empty array when it has none. *)
Definition np_pow (L : numerics) (Cs : vec) (e : option R) : res vec :=
  match e, Cs with
  | Some e, _ => Val (map (fun c => np_power L c e) Cs)
  | None, [] => Val []
  | None, _ :: _ => Raise TypeError
  end.

Definition np_scale (k : option R) (a : vec) : res vec :=
  match k, a with
  | Some k, _ => Val (map (Rmult k) a)
  | None, [] => Val []
  | None, _ :: _ => Raise TypeError
  end.

(** [S = abs(b * Cs**z * dPs)], [dCdt = r * Cs**q * (S - 1)], evaluated in
    Python's order: the power, then the product with the scalar, then the
    product of the two arrays. *)
Definition dCdt_default (L : numerics) (Cs dPs : vec)
  (params : gmap string R) : res (vec * vec) :=
  Cz <~ np_pow L Cs (get_param params "z") ;;
  bCz <~ np_scale (get_param params "b") Cz ;;
  bCzdP <~ broadcast Rmult bCz dPs ;;
  let S := map Rabs bCzdP in
  Cq <~ np_pow L Cs (get_param params "q") ;;
  rCq <~ np_scale (get_param params "r") Cq ;;
  dCdt <~ broadcast Rmult rCq (map (fun s => (s - 1)%R) S) ;;
  Val (dCdt, S).

(** ** Python values reaching the setter's arguments

    Integers, floats, strings and [None]; booleans are left out. *)

Inductive pyval : Type :=
| PInt (i : Z)
| PFloat (x : R)
| PStr (s : string)
| PNone.

Inductive pyobj : Type :=
| PList (items : list pyval)
| PScalar (v : pyval).

Definition is_int (v : pyval) : bool :=
  match v with PInt _ => true | _ => false end.

Definition is_int_or_float (v : pyval) : bool :=
  match v with PInt _ | PFloat _ => true | _ => false end.

Definition Rltb (x y : R) : bool := if Rlt_dec x y then true else false.

(** [a < b] between Python values: numbers compare by value, strings
    lexicographically, any other pairing is a [TypeError]. *)
Definition py_lt (a b : pyval) : res bool :=
  match a, b with
  | PInt i, PInt j => Val (i <? j)%Z
  | PInt i, PFloat y => Val (Rltb (IZR i) y)
  | PFloat x, PInt j => Val (Rltb x (IZR j))
  | PFloat x, PFloat y => Val (Rltb x y)
  | PStr s, PStr t =>
      Val (match String.compare s t with Lt => true | _ => false end)
  | _, _ => Raise TypeError
  end.

Definition py_gt (a b : pyval) : res bool := py_lt b a.

(** The built-ins [max] and [min]: the first item is the running best and
    each later item replaces it when it compares strictly beyond it; an
    empty argument is a [ValueError]. *)
Fixpoint py_best (beyond : pyval -> pyval -> res bool) (best : pyval)
  (items : list pyval) : res pyval :=
  match items with
  | [] => Val best
  | item :: rest =>
      c <~ beyond item best ;;
      py_best beyond (if c then item else best) rest
  end.

Definition py_max (items : list pyval) : res pyval :=
  match items with
  | [] => Raise ValueError
  | first :: rest => py_best py_gt first rest
  end.

Definition py_min (items : list pyval) : res pyval :=
  match items with
  | [] => Raise ValueError
  | first :: rest => py_best py_lt first rest
  end.

(** [any(g(item) for item in items)], where evaluating [g] may raise. *)
Fixpoint py_any (g : pyval -> res bool) (items : list pyval) : res bool :=
  match items with
  | [] => Val false
  | item :: rest =>
      c <~ g item ;;
      if c then Val true else py_any g rest
  end.

(** The value of a Python number, as [float(v)] gives it. *)
Definition to_float (v : pyval) : res R :=
  match v with
  | PInt i => Val (IZR i)
  | PFloat x => Val x
  | _ => Raise TypeError
  end.

(** ** Arrays that are assigned into

    [np.array([v] * k)] is an array of [int64] when [v] is a Python int
    of 64 bits and of [float64] when it is a float or when the list is
    empty, and [arr[i] = value]
    converts [value] to the kind of the array: a float stored into an
    [int64] array loses its fractional part, a Python int beyond 64 bits
    is refused there with [OverflowError].  A float whose integer part has
    no 64 bits, and a Python int beyond [2^53] stored as a float, give a
    number other than the one assigned: the model does not follow them.
    Nor does it follow assignments into the array, of unsigned integers or
    of Python objects, that [np.array] makes of a wider Python int: its
    kind is [wide]. *)

Inductive dtype : Set :=
| int64
| float64
| wide.

Definition in_int64 (i : Z) : bool :=
  (- 2 ^ 63 <=? i)%Z && (i <? 2 ^ 63)%Z.

(** A Python number given where the docstrings ask for a conductance. *)
Inductive number : Type :=
| NInt (i : Z)
| NFloat (x : R).

Definition number_value (a : number) : R :=
  match a with
  | NInt i => IZR i
  | NFloat x => x
  end.

Definition number_dtype (a : number) : dtype :=
  match a with
  | NInt i => if in_int64 i then int64 else wide
  | NFloat _ => float64
  end.

(** The kind of [np.array([a] * k)]. *)
Definition array_dtype (a : number) (k : Z) : dtype :=
  if (0 <? k)%Z then number_dtype a else float64.

(** The integer that a C cast makes of a float: its integer part, towards
    zero. *)
Definition truncate (x : R) : Z :=
  if Rle_dec 0 x then Int_part x else (- Int_part (- x))%Z.

(** The number that an array of kind [d] holds once [x] is assigned. *)
Definition stored_as (d : dtype) (x : R) : R :=
  match d with
  | int64 => IZR (truncate x)
  | _ => x
  end.

(** What [arr[i] = value] stores into an array of kind [d]. *)
Definition astype (d : dtype) (value : pyval) : res R :=
  match value, d with
  | PInt i, int64 =>
      if in_int64 i then Val (IZR i) else Raise OverflowError
  | PInt i, float64 =>
      if (Z.abs i <=? 2 ^ 53)%Z then Val (IZR i) else Raise NotFollowed
  | PFloat x, float64 => Val x
  | PFloat x, int64 =>
      if in_int64 (truncate x) then Val (IZR (truncate x))
      else Raise NotFollowed
  | _, wide => Raise NotFollowed
  | _, _ => Raise TypeError
  end.

(** A value that the last guard of the setter is meant to refuse. *)
Definition negative_number (v : pyval) : Prop :=
  (exists i : Z, v = PInt i /\ (i < 0)%Z) \/
  (exists x : R, v = PFloat x /\ (x < 0)%R).

(** ** The class [Colony] *)

Module Colony.

(** The attributes of a colony object.  [dCdt_inner] and [dCdt_outer] are
    the two closures over the feedback law and its parameter sets;
    [OutflowConduits_dtype] is the kind of the items of the array
    [OutflowConduits], the one array that a method assigns into. *)
Record t : Type := mk {
  n : Z;
  m : Z;
  ys : list Z;
  xs : list Z;
  ysjig : list R;
  rowinds : list Z;
  colinds : list Z;
  InnerConduits : vec;
  UpperAdjacency : matrix;
  Adjacency : matrix;
  Laplacian : matrix;
  Incidence : matrix;
  OutflowConduits : vec;
  OutflowConduits_dtype : dtype;
  InFlow : vec;
  dCdt_inner : option (vec -> vec -> res (vec * vec));
  dCdt_outer : option (vec -> vec -> res (vec * vec))
}.

Definition set_OutflowConduits (v : vec) (self : t) : t :=
  mk (n self) (m self) (ys self) (xs self) (ysjig self) (rowinds self)
     (colinds self) (InnerConduits self) (UpperAdjacency self)
     (Adjacency self) (Laplacian self) (Incidence self) v
     (OutflowConduits_dtype self) (InFlow self)
     (dCdt_inner self) (dCdt_outer self).

(** *** Methods as computations over the object

    A method run on [self] ends with a value or an exception, and leaves
    the object in some state. *)

Definition M (A : Type) : Type := t -> res A * t.

Definition ret {A : Type} (a : A) : M A := fun self => (Val a, self).

Definition raise {A : Type} (e : exn) : M A := fun self => (Raise e, self).

Definition bind {A B : Type} (c : M A) (k : A -> M B) : M B :=
  fun self =>
    match c self with
    | (Val a, self') => k a self'
    | (Raise e, self') => (Raise e, self')
    end.

Definition gets {A : Type} (field : t -> A) : M A :=
  fun self => (Val (field self), self).

Definition modify (f : t -> t) : M unit :=
  fun self => (Val tt, f self).

Definition lift {A : Type} (r : res A) : M A := fun self => (r, self).

Notation "x <- c ;; k" := (bind c (fun x => k))
  (at level 100, c at next level, right associativity).

(** A computation that leaves the object as it found it. *)
Definition readonly {A : Type} (c : M A) : Prop :=
  forall self, (c self).2 = self.

(** *** [__init__] *)

(** The index arrays [rowinds] and [colinds] of the internal conduits:
    each node is joined to the next one, except across the end of a row;
    the first node of a row is joined to its last; every other node is
    joined to a node of the row ahead. *)
Definition internal_edges (n m : Z) : res (list Z * list Z) :=
  rowinds <~ arange 0 (m * n) 1 ;;
  colinds <~ arange 1 (m * n + 1) 1 ;;
  ends <~ arange (n - 1) (m * n) n ;;
  rowinds <~ np_delete rowinds ends ;;
  ends <~ arange (n - 1) (m * n) n ;;
  colinds <~ np_delete colinds ends ;;
  starts <~ arange 0 ((m - 1) * n + 1) n ;;
  let rowinds := rowinds ++ starts in
  ends <~ arange (n - 1) (m * n) n ;;
  let colinds := colinds ++ ends in
  odds <~ arange 1 ((m - 1) * n) 2 ;;
  let rowinds := rowinds ++ odds in
  ahead <~ arange n (m * n) 2 ;;
  let colinds := colinds ++ ahead in
  Val (rowinds, colinds).

(** The signed incidence matrix of the internal conduits: [-1] at the
    tail [rowinds[e]] and [+1] at the head [colinds[e]] of conduit [e]. *)
Definition internal_incidence (rowinds colinds : list Z) (nnz : nat)
  (nodes : Z) : res matrix :=
  edges <~ arange 0 (Z.of_nat (length rowinds)) 1 ;;
  tails <~
    coo_matrix (repeat (-1)%R (length rowinds)) edges rowinds
      (Z.of_nat nnz, nodes) ;;
  edges <~ arange 0 (Z.of_nat (length colinds)) 1 ;;
  heads <~
    coo_matrix (repeat 1%R (length colinds)) edges colinds
      (Z.of_nat (length rowinds), nodes) ;;
  sparse_add tails heads.

(** [InnerConduits] and [InFlow] are only read, so the values of their
    items are all that matters of them; of [OutflowConductivity] the
    constructor also keeps whether it was an int or a float. *)
Definition __init__ (nz mz : Z)
  (InnerConductivity : R) (OutflowConductivity : number) (Incurrents : R)
  (dCdt : vec -> vec -> gmap string R -> res (vec * vec))
  (dCdt_in_params dCdt_out_params : gmap string R) : res t :=
  let n := (nz * 2)%Z in
  let m := mz in
  mn <~ arange 0 (m * n) 1 ;;
  let ys := map (fun k => (k / n)%Z) mn in
  let xs := zip_with Z.add (map (fun k => (k mod n)%Z) mn) ys in
  let ysjig :=
    zip_with Rplus (map IZR ys)
      (map (fun k => (0.2 * IZR (k mod 2))%R) mn) in
  edges <~ internal_edges n m ;;
  let rowinds := edges.1 in
  let colinds := edges.2 in
  let InnerConduits := repeat InnerConductivity (length rowinds) in
  UpperAdjacency <~
    coo_matrix (repeat 1%R (length rowinds)) rowinds colinds
      ((m * n)%Z, (m * n)%Z) ;;
  Adjacency <~ sparse_add UpperAdjacency (transpose UpperAdjacency) ;;
  let Degree := diags (row_sums Adjacency) in
  Laplacian <~ sparse_sub Adjacency Degree ;;
  Incidence <~
    internal_incidence rowinds colinds (length (entries UpperAdjacency))
      (n * m) ;;
  let OutflowConduits :=
    repeat (number_value OutflowConductivity) (Z.to_nat (m * n)) in
  let InFlow := repeat Incurrents (Z.to_nat (m * n)) in
  Val (mk n m ys xs ysjig rowinds colinds InnerConduits UpperAdjacency
         Adjacency Laplacian Incidence OutflowConduits
         (array_dtype OutflowConductivity (m * n)) InFlow
         (Some (fun x y => dCdt x y dCdt_in_params))
         (Some (fun x y => dCdt x y dCdt_out_params))).

(** The shapes that the attributes of a constructed colony agree on: one
    incidence row and one conductance per internal conduit, one incidence
    column, one outflow conductance and one injection per node. *)
Definition shaped (self : t) : Prop :=
  nrows (Incidence self) = length (InnerConduits self) /\
  ncols (Incidence self) = Z.to_nat (m self * n self) /\
  length (OutflowConduits self) = Z.to_nat (m self * n self) /\
  length (InFlow self) = Z.to_nat (m self * n self).

(** *** [setouterconductivities] *)

Inductive setter_outcome : Type :=
| Done
| NoAction (message : string).

(** [self.OutflowConduits[idx] = value] on a [numpy] array: the item is
    located first, then the value is converted and stored. *)
Definition store_outflow (idx value : pyval) : M unit :=
  match idx with
  | PInt i =>
      out <- gets OutflowConduits ;;
      let len := Z.of_nat (length out) in
      if (- len <=? i)%Z && (i <? len)%Z
      then kind <- gets OutflowConduits_dtype ;;
           v <- lift (astype kind value) ;;
           modify (set_OutflowConduits
                     (<[Z.to_nat (i mod len) := v]> out))
      else raise IndexError
  | _ => raise IndexError
  end.

(** The body of [for k in range(len(nodeinds))]. *)
Fixpoint store_all (nodeinds values : list pyval) : M unit :=
  match nodeinds, values with
  | idx :: nodeinds', value :: values' =>
      _ <- store_outflow idx value ;;
      store_all nodeinds' values'
  | [], _ => ret tt
  | _ :: _, [] => raise IndexError
  end.

Definition setouterconductivities (nodeinds NewOuterConductivities : pyobj)
  : M setter_outcome :=
  match NewOuterConductivities, nodeinds with
  | PList values, PList inds =>
      if negb (length values =? length inds)%nat
      then ret (NoAction "List lengths must match. No action taken.")
      else
        m <- gets m ;;
        n <- gets n ;;
        top <- lift (py_max inds) ;;
        over <- lift (py_gt top (PInt (m * n))) ;;
        if over
        then ret (NoAction
                    "At least one node index is >m*n. No action taken.")
        else
          bottom <- lift (py_min inds) ;;
          under <- lift (py_lt bottom (PInt 0)) ;;
          if under
          then ret (NoAction
                      "At least one node index is <0. No action taken.")
          else
            nonint <- lift (py_any (fun item => Val (negb (is_int item)))
                              inds) ;;
            if nonint
            then ret (NoAction
                   "At least one node index is not an int. No action taken.")
            else
              negative <- lift (py_any (fun item =>
                                  c <~ py_lt item (PInt 0) ;;
                                  Val (c && is_int_or_float item))
                                  values) ;;
              if negative
              then ret (NoAction
                "Conductivities must be floats or ints ≥0. No action taken.")
              else
                _ <- store_all inds values ;;
                ret Done
  | _, _ => ret (NoAction "Arguments must be lists. No action taken.")
  end.

(** *** [solvecolony] *)

(** The keyword arguments read by [solvecolony]. *)
Record kwargs : Type := mkKwargs {
  kw_conductivityfull : option vec;
  kw_IncidenceFull : option matrix;
  kw_Pressures : option vec
}.

Definition no_kwargs : kwargs := mkKwargs None None None.

(** The dictionary returned by [solvecolony]; a key that was not set is
    [None], which is also what [dict.get] answers for it. *)
Record networksols : Type := mkSols {
  Pressures : vec;
  conductivityfull : vec;
  IncidenceFull : matrix;
  Flows : option vec;
  S : option vec;
  dCdt : option vec
}.

(** [IncidenceFull.transpose() * sparse.diags(conductivityfull, 0)
     * IncidenceFull]. *)
Definition system_matrix (A : matrix) (C : vec) : res matrix :=
  AtC <~ matmul (transpose A) (diags C) ;;
  matmul AtC A.

(** [bicgstab(A, b, x0=...)[0]]: the solver's vector, its flag dropped.
    The solver wants a square system and a right-hand side (and a first
    guess) of matching length. *)
Definition solve_pressures (L : numerics) (A : matrix) (b : vec)
  (x0 : option vec) : res vec :=
  if (nrows A =? ncols A)%nat && (length b =? nrows A)%nat
     && match x0 with
        | None => true
        | Some x => (length x =? nrows A)%nat
        end
  then Val (bicgstab L A b x0).1
  else Raise ValueError.

(** [sparse.diags(conductivityfull, 0) * IncidenceFull * Pressures]. *)
Definition edge_flows (A : matrix) (C p : vec) : res vec :=
  CA <~ matmul (diags C) A ;;
  matvec CA p.

(** [sparse.vstack((self.Incidence,
     sparse.diags([-1]*(self.m*self.n), 0).tocsr()))]: one more row per
    node, for its conduit to the outside. *)
Definition extended_incidence : M matrix :=
  inc <- gets Incidence ;;
  m <- gets m ;;
  n <- gets n ;;
  lift (sparse_vstack inc (diags (repeat (-1)%R (Z.to_nat (m * n))))).

Definition solvecolony (L : numerics) (calcflows calcdCdt : bool)
  (kw : kwargs) : M networksols :=
  conductivityfull <-
    match kw_conductivityfull kw with
    | None =>
        inner <- gets InnerConduits ;;
        outer <- gets OutflowConduits ;;
        ret (inner ++ outer)
    | Some C => ret C
    end ;;
  IncidenceFull <-
    match kw_IncidenceFull kw with
    | None => extended_incidence
    | Some A => ret A
    end ;;
  system <- lift (system_matrix IncidenceFull conductivityfull) ;;
  inflow <- gets InFlow ;;
  Pressures <- lift (solve_pressures L system inflow (kw_Pressures kw)) ;;
  Flows <-
    (if calcflows
     then f <- lift (edge_flows IncidenceFull conductivityfull Pressures) ;;
          ret (Some f)
     else ret None) ;;
  inner_f <- gets dCdt_inner ;;
  outer_f <- gets dCdt_outer ;;
  match calcdCdt, inner_f, outer_f with
  | true, Some dCdt_inner, Some dCdt_outer =>
      AP <- lift (matvec IncidenceFull Pressures) ;;
      let dP := map Rabs AP in
      inner <- gets InnerConduits ;;
      let dPinner := firstn (length inner) dP in
      let dPouter := skipn (length inner) dP in
      io <-
        match kw_conductivityfull kw with
        | None =>
            inner <- gets InnerConduits ;;
            i <- lift (dCdt_inner inner dPinner) ;;
            outer <- gets OutflowConduits ;;
            o <- lift (dCdt_outer outer dPouter) ;;
            ret (i, o)
        | Some C =>
            let innerCs := firstn (length inner) C in
            let outerCs := skipn (length inner) C in
            i <- lift (dCdt_inner innerCs dPinner) ;;
            o <- lift (dCdt_outer outerCs dPouter) ;;
            ret (i, o)
        end ;;
      ret (mkSols Pressures conductivityfull IncidenceFull Flows
             (Some (io.1.2 ++ io.2.2)) (Some (io.1.1 ++ io.2.1)))
  | _, _, _ =>
      ret (mkSols Pressures conductivityfull IncidenceFull Flows None None)
  end.

(** *** [UpdateColony] *)

(** The argument of a Runge-Kutta stage: [y + h * sum_j a_j * k_j]. *)
Definition rk_combine (y : vec) (h : R) (a : list R) (ks : list vec) : vec :=
  fold_left (fun acc ak => zip_with (fun yi ki => (yi + h * ak.1 * ki)%R)
                             acc ak.2)
    (zip_with pair a ks) y.

(** A call of the right-hand side from the stepper, which works on arrays
    of the length of the state. *)
Definition rk_call (f : R -> vec -> M vec) (t : R) (y : vec) : M vec :=
  k <- f t y ;;
  if (length k =? length y)%nat then ret k else raise ValueError.

Fixpoint rk_stages (f : R -> vec -> M vec) (t : R) (y : vec) (h : R)
  (rows : list (R * list R)) (ks : list vec) : M (list vec) :=
  match rows with
  | [] => ret ks
  | (c, a) :: rows' =>
      k <- rk_call f (t + c * h)%R (rk_combine y h a ks) ;;
      rk_stages f t y h rows' (ks ++ [k])
  end.

(** The stepping loop: stop when the stepper says so or when the budget of
    steps is spent; otherwise try a step and keep it or not.  The answer is
    the state reached and whether the integration succeeded. *)
Fixpoint rk_drive (L : numerics) (fuel : nat) (f : R -> vec -> M vec)
  (t : R) (y : vec) (h tend : R) : M (vec * bool) :=
  match fuel with
  | O => ret (y, false)
  | Datatypes.S fuel' =>
      match rk_plan L t h tend with
      | None => ret (y, true)
      | Some h' =>
          ks <- rk_stages f t y h' (rk_rows L) [] ;;
          let y1 := rk_combine y h' (rk_weights L) ks in
          match rk_judge L t h' y y1 ks with
          | Accept hnew => rk_drive L fuel' f (t + h')%R y1 hnew tend
          | Reject hnew => rk_drive L fuel' f t y hnew tend
          | Abort => ret (y, false)
          end
      end
  end.

(** [ode(f).set_initial_value(y0, t0)], [set_integrator('dopri5')] and
    [integrate(tend)]: the state reached; whether the stepper succeeded is
    kept by the integrator object and is not part of the answer. *)
Definition ode_integrate (L : numerics) (f : R -> vec -> M vec)
  (y0 : vec) (t0 tend : R) : M vec :=
  k1 <- rk_call f t0 y0 ;;
  yb <- rk_drive L (rk_nsteps L) f t0 y0 (rk_hinit L t0 y0 k1 tend) tend ;;
  ret yb.1.

(** The right-hand side [dlnCdt] defined inside [UpdateColony]; [params]
    is the result of the reference solve, and [rhs_solve] is the call of
    [solvecolony] it makes. *)
Definition rhs_solve (L : numerics) (params : networksols) (C0 : vec)
  : M networksols :=
  solvecolony L false true
    (mkKwargs (Some C0) (Some (IncidenceFull params))
       (Some (Pressures params))).

(** [a / b] on arrays.  The shapes are settled first; a division by an
    item that is [0] gives [inf] or [nan]. *)
Definition np_divide (a b : vec) : res vec :=
  q <~ broadcast Rdiv a b ;;
  if existsb (fun x => if Req_dec_T x 0 then true else false) b
     && negb (length q =? 0)%nat
  then Raise NotFollowed
  else Val q.

Definition dlnCdt (L : numerics) (params : networksols) (_ : R)
  (lnC0 : vec) : M vec :=
  let C0 := map (np_exp L) lnC0 in
  sols <- rhs_solve L params C0 ;;
  match dCdt sols with
  | None => raise TypeError
  | Some d => lift (np_divide d C0)
  end.

(** [np.log] of a conductance that is not positive is [-inf] or [nan],
    with a warning and no exception.  The code goes on with it, and what
    it raises from there on it raises whatever the floats are, so the
    model goes on as well, with some number in the place of that
    logarithm; but the array of conductances that such a run may end with
    is not followed: the model ends it with [NotFollowed]. *)
Definition UpdateColony (L : numerics) (tmax : R) : M vec :=
  params <- solvecolony L false false no_kwargs ;;
  let C := conductivityfull params in
  let lnC0 := map (np_log L) C in
  y <- ode_integrate L (dlnCdt L params) lnC0 0 tmax ;;
  if forallb (Rltb 0) C then ret (map (np_exp L) y) else raise NotFollowed.

End Colony.

(** ** A concrete set of numerical routines

    Used to run the model on small colonies.  [direct_2x2] answers a
    system of two equations exactly (flag [0]); on a singular system it
    gives up on its first guess (flag [1]), and it does not handle other
    sizes.  The stepper uses the tableau of Dormand and Prince, goes to
    the end time in one step and keeps every step.  Powers, logarithms
    and exponentials are the real ones, without rounding. *)

Definition dense_get (A : matrix) (i j : nat) : R :=
  Rsum (map (fun e => if (e.1.1 =? i)%nat && (e.1.2 =? j)%nat
                      then e.2 else 0%R)
          (entries A)).

Definition first_guess (size : nat) (x0 : option vec) : vec :=
  match x0 with
  | Some x => if (length x =? size)%nat then x else repeat 0%R size
  | None => repeat 0%R size
  end.

Definition direct_2x2 (A : matrix) (b : vec) (x0 : option vec) : vec * Z :=
  match nrows A, b with
  | 2%nat, [b0; b1] =>
      let a00 := dense_get A 0 0 in
      let a01 := dense_get A 0 1 in
      let a10 := dense_get A 1 0 in
      let a11 := dense_get A 1 1 in
      let det := (a00 * a11 - a01 * a10)%R in
      if Req_dec_T det 0
      then (first_guess 2 x0, 1%Z)
      else ([((a11 * b0 - a01 * b1) / det)%R;
             ((a00 * b1 - a10 * b0) / det)%R], 0%Z)
  | size, _ => (first_guess size x0, 1%Z)
  end.

Definition dopri5_rows : list (R * list R) :=
  [ (0, []);
    (1/5, [1/5]);
    (3/10, [3/40; 9/40]);
    (4/5, [44/45; -56/15; 32/9]);
    (8/9, [19372/6561; -25360/2187; 64448/6561; -212/729]);
    (1, [9017/3168; -355/33; 46732/5247; 49/176; -5103/18656]);
    (1, [35/384; 0; 500/1113; 125/192; -2187/6784; 11/84]) ]%R.

Definition dopri5_weights : list R :=
  [35/384; 0; 500/1113; 125/192; -2187/6784; 11/84; 0]%R.

Definition one_step_plan (t _ tend : R) : option R :=
  if Req_dec_T t tend then None else Some (tend - t)%R.

Definition demo_numerics : numerics :=
  {| np_power := Rpower;
     np_log := ln;
     np_exp := exp;
     bicgstab := direct_2x2;
     rk_rows := dopri5_rows;
     rk_weights := dopri5_weights;
     rk_nsteps := 500;
     rk_hinit := fun t0 _ _ tend => (tend - t0)%R;
     rk_plan := one_step_plan;
     rk_judge := fun _ h _ _ _ => Accept h |}.

(** The same routines with the logarithm and the exponential of IEEE
    double precision at the arguments that the smallest colony with the
    outflow conductance [0.1] meets: [np.log(1.0) = 0.0],
    [np.exp(0.0) = 1.0], [np.log(0.1) = -2.3025850929940455] and
    [np.exp(-2.3025850929940455) = 0.10000000000000002], each double
    written as the rational number it is.  Elsewhere they are the real
    functions. *)

Definition double_tenth : R := 3602879701896397 / 36028797018963968.

Definition double_log_tenth : R := - 5184960683398421 / 2251799813685248.

Definition double_exp_log_tenth : R :=
  7205759403792795 / 72057594037927936.

Definition double_log (x : R) : R :=
  if Req_dec_T x 1 then 0
  else if Req_dec_T x double_tenth then double_log_tenth
  else ln x.

Definition double_exp (y : R) : R :=
  if Req_dec_T y 0 then 1
  else if Req_dec_T y double_log_tenth then double_exp_log_tenth
  else exp y.

Definition rounding_numerics : numerics :=
  {| np_power := Rpower;
     np_log := double_log;
     np_exp := double_exp;
     bicgstab := direct_2x2;
     rk_rows := dopri5_rows;
     rk_weights := dopri5_weights;
     rk_nsteps := 500;
     rk_hinit := fun t0 _ _ tend => (tend - t0)%R;
     rk_plan := one_step_plan;
     rk_judge := fun _ h _ _ _ => Accept h |}.

(** The default parameter set of [__init__], and the one of the
    demonstration's inner conduits. *)
Definition default_params : gmap string R :=
  {[ "z" := 0%R; "b" := 0%R; "r" := 0%R; "q" := (2/3)%R ]}.

Definition demo_in_params : gmap string R :=
  {[ "z" := (33/100)%R; "b" := 1%R; "r" := 10%R; "q" := (67/100)%R ]}.

(** The smallest colony, [Colony(nz=1, mz=1, ...)]: two nodes joined by
    two internal conduits (the step to the next node and the wrap of the
    single row), and one outflow conduit per node. *)
Definition two_nodes (ic : R) (oc : number) (q : R)
  (law : vec -> vec -> gmap string R -> res (vec * vec))
  (pin pout : gmap string R) : Colony.t :=
  {| Colony.n := 2;
     Colony.m := 1;
     Colony.ys := [0; 0]%Z;
     Colony.xs := [0; 1]%Z;
     Colony.ysjig := [0 + 0.2 * 0; 0 + 0.2 * 1]%R;
     Colony.rowinds := [0; 0]%Z;
     Colony.colinds := [1; 1]%Z;
     Colony.InnerConduits := [ic; ic];
     Colony.UpperAdjacency :=
       mkMatrix 2 2 [(0%nat, 1%nat, 1%R); (0%nat, 1%nat, 1%R)];
     Colony.Adjacency :=
       mkMatrix 2 2
         [(0%nat, 1%nat, 1%R); (0%nat, 1%nat, 1%R);
          (1%nat, 0%nat, 1%R); (1%nat, 0%nat, 1%R)];
     Colony.Laplacian :=
       mkMatrix 2 2
         [(0%nat, 1%nat, 1%R); (0%nat, 1%nat, 1%R);
          (1%nat, 0%nat, 1%R); (1%nat, 0%nat, 1%R);
          (0%nat, 0%nat, (-1 * Rsum [1; 1; 0; 0])%R);
          (1%nat, 1%nat, (-1 * Rsum [0; 0; 1; 1])%R)];
     Colony.Incidence :=
       mkMatrix 2 2
         [(0%nat, 0%nat, (-1)%R); (1%nat, 0%nat, (-1)%R);
          (0%nat, 1%nat, 1%R); (1%nat, 1%nat, 1%R)];
     Colony.OutflowConduits := [number_value oc; number_value oc];
     Colony.OutflowConduits_dtype := number_dtype oc;
     Colony.InFlow := [q; q];
     Colony.dCdt_inner := Some (fun x y => law x y pin);
     Colony.dCdt_outer := Some (fun x y => law x y pout) |}.

(** Its extended incidence matrix: the two internal conduits [0 -> 1],
    then the outflow conduits of node [0] and of node [1]. *)
Definition two_nodes_incidence : matrix :=
  mkMatrix 4 2
    [(0%nat, 0%nat, (-1)%R); (1%nat, 0%nat, (-1)%R);
     (0%nat, 1%nat, 1%R); (1%nat, 1%nat, 1%R);
     (2%nat, 0%nat, (-1)%R); (3%nat, 1%nat, (-1)%R)].

(** The same routines with a stepper that has no step left: it stops at
    once, without success. *)
Definition stalled_numerics : numerics :=
  {| np_power := Rpower;
     np_log := ln;
     np_exp := exp;
     bicgstab := direct_2x2;
     rk_rows := dopri5_rows;
     rk_weights := dopri5_weights;
     rk_nsteps := 0;
     rk_hinit := fun t0 _ _ tend => (tend - t0)%R;
     rk_plan := one_step_plan;
     rk_judge := fun _ h _ _ _ => Accept h |}.

(** Replace the solver's convergence flag by an arbitrary one. *)
Definition with_flag (flag : matrix -> vec -> option vec -> Z)
  (L : numerics) : numerics :=
  {| np_power := np_power L;
     np_log := np_log L;
     np_exp := np_exp L;
     bicgstab := fun A b x0 => ((bicgstab L A b x0).1, flag A b x0);
     rk_rows := rk_rows L;
     rk_weights := rk_weights L;
     rk_nsteps := rk_nsteps L;
     rk_hinit := rk_hinit L;
     rk_plan := rk_plan L;
     rk_judge := rk_judge L |}.

(** * Properties *)

(** ** Vectors and broadcasting *)

Lemma broadcast_same_length (op : R -> R -> R) (a b : vec) :
  length a = length b -> broadcast op a b = Val (zip_with op a b).
Proof.
  intros Hlen. unfold broadcast.
  rewrite Hlen, Nat.eqb_refl. reflexivity.
Qed.

(** ** The feedback law *)

Lemma dCdt_default_value (L : numerics) (r b z q : R) (Cs dPs : vec)
  (params : gmap string R) :
  length Cs = length dPs ->
  params !! "r" = Some r -> params !! "b" = Some b ->
  params !! "z" = Some z -> params !! "q" = Some q ->
  dCdt_default L Cs dPs params
  = Val (zip_with (fun C dP =>
                     r * np_power L C q
                     * (Rabs (b * np_power L C z * dP) - 1))%R Cs dPs,
         zip_with (fun C dP => Rabs (b * np_power L C z * dP)) Cs dPs).
Proof.
  intros Hlen Hr Hb Hz Hq. unfold dCdt_default, get_param.
  rewrite Hb, Hz, Hr, Hq. cbn [np_pow np_scale res_bind].
  rewrite broadcast_same_length by (now rewrite !length_map).
  cbn [res_bind].
  rewrite broadcast_same_length
    by (rewrite !length_map, length_zip_with, !length_map; lia).
  cbn [res_bind]. f_equal. f_equal.
  - clear. revert dPs.
    induction Cs as [|c Cs IH]; intros [|d dPs]; simpl; try reflexivity.
    now rewrite IH.
  - clear. revert dPs.
    induction Cs as [|c Cs IH]; intros [|d dPs]; simpl; try reflexivity.
    now rewrite IH.
Qed.

(** C2. For equal-length conductances [Cs] and pressure differences [dPs]
    and a parameter set holding [r], [b], [z] and [q], the feedback law
    returns two arrays of the length of its inputs whose entries are
    [S = |b * C^z * dP|] and [dC/dt = r * C^q * (S - 1)], conduit by
    conduit. *)
Theorem dCdt_default_elementwise (L : numerics) (r b z q : R)
  (Cs dPs : vec) (params : gmap string R) :
  length Cs = length dPs ->
  params !! "r" = Some r -> params !! "b" = Some b ->
  params !! "z" = Some z -> params !! "q" = Some q ->
  exists dCdt S : vec,
    dCdt_default L Cs dPs params = Val (dCdt, S) /\
    length dCdt = length Cs /\ length S = length Cs /\
    forall (i : nat) (C dP : R),
      Cs !! i = Some C -> dPs !! i = Some dP ->
      S !! i = Some (Rabs (b * np_power L C z * dP)) /\
      dCdt !! i
      = Some (r * np_power L C q * (Rabs (b * np_power L C z * dP) - 1))%R.
Proof.
  intros Hlen Hr Hb Hz Hq.
  eexists _, _.
  split; [now apply (dCdt_default_value L r b z q)|].
  rewrite !length_zip_with.
  split; [lia|]. split; [lia|].
  intros i C dP HC HdP.
  rewrite !lookup_zip_with, HC, HdP. split; reflexivity.
Qed.

Lemma dCdt_default_elementwise_witness :
  exists dCdt S : vec,
    dCdt_default demo_numerics [1; 4]%R [2; 3]%R demo_in_params
    = Val (dCdt, S) /\
    length dCdt = 2%nat /\ length S = 2%nat /\
    forall (i : nat) (C dP : R),
      [1; 4]%R !! i = Some C -> [2; 3]%R !! i = Some dP ->
      S !! i = Some (Rabs (1 * Rpower C (33/100) * dP)) /\
      dCdt !! i
      = Some (10 * Rpower C (67/100)
              * (Rabs (1 * Rpower C (33/100) * dP) - 1))%R.
Proof.
  apply (dCdt_default_elementwise demo_numerics 10 1 (33/100) (67/100)
           [1; 4]%R [2; 3]%R demo_in_params); reflexivity.
Defined.

(** ** Computations that only read the object *)

Module Frame.
Import Colony.

Lemma readonly_ret {A : Type} (a : A) : readonly (ret a).
Proof. now intros self. Qed.

Lemma readonly_raise {A : Type} (e : exn) : readonly (@raise A e).
Proof. now intros self. Qed.

Lemma readonly_gets {A : Type} (field : t -> A) : readonly (gets field).
Proof. now intros self. Qed.

Lemma readonly_lift {A : Type} (r : res A) : readonly (lift r).
Proof. now intros self. Qed.

Lemma readonly_bind {A B : Type} (c : M A) (k : A -> M B) :
  readonly c -> (forall a, readonly (k a)) -> readonly (bind c k).
Proof.
  intros Hc Hk self. unfold bind.
  specialize (Hc self). destruct (c self) as [[a|e] self']; simpl in *.
  - subst self'. apply Hk.
  - assumption.
Qed.

Ltac readonly_step :=
  match goal with
  | |- readonly (bind _ _) => apply readonly_bind; [|intros ?]
  | |- readonly (ret _) => apply readonly_ret
  | |- readonly (raise _) => apply readonly_raise
  | |- readonly (gets _) => apply readonly_gets
  | |- readonly (lift _) => apply readonly_lift
  | |- readonly (match ?x with _ => _ end) => destruct x
  | |- readonly (if ?x then _ else _) => destruct x
  end.

Lemma readonly_extended_incidence : readonly extended_incidence.
Proof. unfold extended_incidence. repeat readonly_step. Qed.

Lemma readonly_solvecolony (L : numerics) (calcflows calcdCdt : bool)
  (kw : kwargs) : readonly (solvecolony L calcflows calcdCdt kw).
Proof.
  unfold solvecolony.
  repeat first [apply readonly_extended_incidence | readonly_step].
Qed.

Lemma readonly_rk_call (f : R -> vec -> M vec) (x : R) (y : vec) :
  (forall x y, readonly (f x y)) -> readonly (rk_call f x y).
Proof. intros Hf. unfold rk_call. repeat first [apply Hf | readonly_step]. Qed.

Lemma readonly_rk_stages (f : R -> vec -> M vec) (x : R) (y : vec) (h : R)
  (rows : list (R * list R)) (ks : list vec) :
  (forall x y, readonly (f x y)) -> readonly (rk_stages f x y h rows ks).
Proof.
  intros Hf. revert ks.
  induction rows as [|[c a] rows IH]; intros ks; simpl.
  - apply readonly_ret.
  - apply readonly_bind; [now apply readonly_rk_call|]. intros k. apply IH.
Qed.

Lemma readonly_rk_drive (L : numerics) (fuel : nat)
  (f : R -> vec -> M vec) (x : R) (y : vec) (h tend : R) :
  (forall x y, readonly (f x y)) -> readonly (rk_drive L fuel f x y h tend).
Proof.
  intros Hf. revert x y h.
  induction fuel as [|fuel IH]; intros x y h; simpl.
  - apply readonly_ret.
  - destruct (rk_plan L x h tend) as [h'|]; [|apply readonly_ret].
    apply readonly_bind; [now apply readonly_rk_stages|]. intros ks.
    destruct (rk_judge L x h' y _ ks); auto using readonly_ret.
Qed.

Lemma readonly_ode_integrate (L : numerics) (f : R -> vec -> M vec)
  (y0 : vec) (t0 tend : R) :
  (forall x y, readonly (f x y)) -> readonly (ode_integrate L f y0 t0 tend).
Proof.
  intros Hf. unfold ode_integrate.
  apply readonly_bind; [now apply readonly_rk_call|]. intros k1.
  apply readonly_bind; [now apply readonly_rk_drive|]. intros yb.
  apply readonly_ret.
Qed.

Lemma readonly_dlnCdt (L : numerics) (params : networksols) (x : R)
  (lnC0 : vec) : readonly (dlnCdt L params x lnC0).
Proof.
  unfold dlnCdt, rhs_solve.
  apply readonly_bind; [apply readonly_solvecolony|]. intros sols.
  repeat readonly_step.
Qed.

End Frame.

(** C9. [UpdateColony] is a function of the colony and the horizon that
    leaves every attribute of the colony as it was: the object after the
    call is the object before it, whatever the call answers. *)
Theorem UpdateColony_leaves_colony_unchanged (L : numerics) (tmax : R)
  (self : Colony.t) :
  (Colony.UpdateColony L tmax self).2 = self.
Proof.
  revert self. change (Colony.readonly (Colony.UpdateColony L tmax)).
  unfold Colony.UpdateColony.
  apply Frame.readonly_bind; [apply Frame.readonly_solvecolony|].
  intros params.
  apply Frame.readonly_bind;
    [|intros y; destruct (forallb _ _);
      [apply Frame.readonly_ret|apply Frame.readonly_raise]].
  apply Frame.readonly_ode_integrate. intros x y.
  apply Frame.readonly_dlnCdt.
Qed.

(** ** The outflow setter *)

(** C10. Called with two empty lists, the setter neither succeeds nor
    reports a violated precondition: [max] of the empty index list raises
    [ValueError], which nothing catches; the colony is as before. *)
Theorem setouterconductivities_empty_lists_raise (self : Colony.t) :
  Colony.setouterconductivities (PList []) (PList []) self
  = (Raise ValueError, self).
Proof. reflexivity. Qed.

Section SetterRejects.
Import Colony.

Lemma py_any_false (g : pyval -> res bool) (items : list pyval) :
  py_any g items = Val false ->
  List.Forall (fun item => g item = Val false) items.
Proof.
  induction items as [|item items IH]; intros H; [constructor|].
  cbn [py_any] in H. destruct (g item) as [[|]|] eqn:Hg;
    cbn [res_bind] in H; try discriminate.
  constructor; [assumption|now apply IH].
Qed.

(** On integers the running best of [max] ends at or above every item. *)
Lemma py_best_gt_ints (best : Z) (items : list pyval) (top : pyval) :
  List.Forall (fun item => is_int item = true) items ->
  py_best py_gt (PInt best) items = Val top ->
  exists t : Z,
    top = PInt t /\ (best <= t)%Z /\
    List.Forall (fun item => forall i, item = PInt i -> (i <= t)%Z) items.
Proof.
  intros Hints. revert best.
  induction Hints as [|item items Hitem _ IH]; intros best H.
  - injection H as <-. exists best. repeat split; [lia|constructor].
  - destruct item as [i| | |]; try discriminate.
    cbn [py_best py_gt py_lt res_bind] in H.
    destruct (Z.ltb_spec best i) as [Hlt|Hge];
      apply IH in H; destruct H as (t & -> & Hle & Hall);
      exists t; (repeat split; [lia|]);
      constructor; try assumption; intros j [= <-]; lia.
Qed.

(** On integers the running best of [min] ends at or below every item. *)
Lemma py_best_lt_ints (best : Z) (items : list pyval) (bottom : pyval) :
  List.Forall (fun item => is_int item = true) items ->
  py_best py_lt (PInt best) items = Val bottom ->
  exists t : Z,
    bottom = PInt t /\ (t <= best)%Z /\
    List.Forall (fun item => forall i, item = PInt i -> (t <= i)%Z) items.
Proof.
  intros Hints. revert best.
  induction Hints as [|item items Hitem _ IH]; intros best H.
  - injection H as <-. exists best. repeat split; [lia|constructor].
  - destruct item as [i| | |]; try discriminate.
    cbn [py_best py_lt res_bind] in H.
    destruct (Z.ltb_spec i best) as [Hlt|Hge];
      apply IH in H; destruct H as (t & -> & Hle & Hall);
      exists t; (repeat split; [lia|]);
      constructor; try assumption; intros j [= <-]; lia.
Qed.

(** Lists of different lengths, an index that is not an integer, an
    integer index below [0] or above [m*n], or a negative new conductance:
    in each case the colony is left as it was.  (The index [m*n] itself is
    not among these cases.) *)
Lemma setouterconductivities_rejections_change_nothing
  (inds values : list pyval) (self : t) :
  length values <> length inds \/
  List.Exists (fun item => is_int item = false) inds \/
  List.Exists (fun item => exists i : Z,
                 item = PInt i /\ (i < 0 \/ m self * n self < i)%Z) inds \/
  List.Exists negative_number values ->
  (setouterconductivities (PList inds) (PList values) self).2 = self.
Proof.
  intros Hbad. unfold setouterconductivities, bind, gets, lift, ret.
  destruct (Nat.eqb_spec (length values) (length inds)) as [Hlen|Hlen];
    cbn [negb]; [|reflexivity].
  destruct (py_max inds) as [top|] eqn:Hmax; [|reflexivity].
  destruct (py_gt top (PInt (m self * n self))) as [[|]|] eqn:Hover;
    try reflexivity.
  destruct (py_min inds) as [bottom|] eqn:Hmin; [|reflexivity].
  destruct (py_lt bottom (PInt 0)) as [[|]|] eqn:Hunder; try reflexivity.
  destruct (py_any _ inds) as [[|]|] eqn:Hnonint; try reflexivity.
  destruct (py_any _ values) as [[|]|] eqn:Hneg; try reflexivity.
  exfalso.
  apply py_any_false in Hnonint, Hneg.
  assert (Hints : List.Forall (fun item => is_int item = true) inds).
  { revert Hnonint. apply List.Forall_impl. intros item [= H].
    now destruct (is_int item). }
  destruct Hbad as [H|[H|[H|H]]].
  - contradiction.
  - apply List.Exists_exists in H. destruct H as (item & Hin & Hitem).
    rewrite List.Forall_forall in Hints. specialize (Hints item Hin).
    congruence.
  - apply List.Exists_exists in H.
    destruct H as (item & Hin & i & -> & Hrange).
    destruct inds as [|first rest]; [contradiction|].
    inversion Hints as [|? ? Hfirst Hrest]; subst.
    destruct first as [b| | |]; try discriminate.
    cbn [py_max py_min] in Hmax, Hmin.
    apply (py_best_gt_ints b rest top Hrest) in Hmax.
    apply (py_best_lt_ints b rest bottom Hrest) in Hmin.
    destruct Hmax as (t & -> & Hbt & Htop).
    destruct Hmin as (u & -> & Hub & Hbottom).
    cbn [py_gt py_lt] in Hover, Hunder.
    injection Hover as Hover. injection Hunder as Hunder.
    rewrite List.Forall_forall in Htop, Hbottom.
    destruct Hin as [[= ->]|Hin].
    + lia.
    + specialize (Htop _ Hin i eq_refl).
      specialize (Hbottom _ Hin i eq_refl). lia.
  - apply List.Exists_exists in H. destruct H as (item & Hin & Hitem).
    rewrite List.Forall_forall in Hneg. specialize (Hneg item Hin).
    destruct Hitem as [(i & -> & Hi)|(x & -> & Hx)];
      cbn [py_lt res_bind is_int_or_float andb] in Hneg.
    + injection Hneg as Hneg. rewrite andb_true_r in Hneg. lia.
    + injection Hneg as Hneg. rewrite andb_true_r in Hneg.
      unfold Rltb in Hneg. destruct (Rlt_dec x (IZR 0)); [discriminate|].
      contradiction.
Qed.

End SetterRejects.

(** C4. On the two-node colony ([N = m*n = 2]) the call
    [setouterconductivities([0, 2], [5, 7])] names the index [2], which is
    not a node.  The guard [max(nodeinds) > m*n] lets it through, so the
    loop stores [5] at node [0] and then fails with [IndexError] at index
    [2]: the outflow conductances are left partly updated. *)
Theorem setouterconductivities_index_N_partial_update :
  exists c : Colony.t,
    Colony.__init__ 1 1 1 (NInt 1) (-1) (dCdt_default demo_numerics)
      default_params default_params = Val c /\
    (Colony.m c * Colony.n c)%Z = 2%Z /\
    Colony.OutflowConduits c = [1; 1]%R /\
    Colony.setouterconductivities
      (PList [PInt 0; PInt 2]) (PList [PInt 5; PInt 7]) c
    = (Raise IndexError, Colony.set_OutflowConduits [5; 1]%R c).
Proof.
  eexists. split; [reflexivity|].
  split; [reflexivity|]. split; reflexivity.
Qed.

(** ** Index arrays *)

Lemma arange_val (start stop step : Z) :
  step <> 0%Z -> arange start stop step = Val (arange_items start stop step).
Proof.
  intros Hs. unfold arange.
  destruct (Z.eqb_spec step 0) as [E|E]; [contradiction|reflexivity].
Qed.

Lemma arange_items_length (start stop step : Z) :
  length (arange_items start stop step)
  = Z.to_nat (- ((start - stop) / step)).
Proof. unfold arange_items. now rewrite length_map, length_seq. Qed.

Lemma arange_items_bounds (start stop step : Z) :
  (0 < step)%Z ->
  List.Forall (fun x => (start <= x < stop)%Z) (arange_items start stop step).
Proof.
  intros Hs. apply List.Forall_forall. intros x Hx.
  unfold arange_items in Hx. apply in_map_iff in Hx.
  destruct Hx as (k & <- & Hk). apply in_seq in Hk.
  pose proof (Z.div_mod (start - stop) step ltac:(lia)) as Hdm.
  pose proof (Z.mod_pos_bound (start - stop) step Hs) as Hmod.
  assert (Z.of_nat k < - ((start - stop) / step))%Z by lia.
  nia.
Qed.

Lemma arange_items_nth (start stop step : Z) (k : nat) :
  (0 < step)%Z -> (start + Z.of_nat k * step < stop)%Z ->
  In (start + Z.of_nat k * step)%Z (arange_items start stop step).
Proof.
  intros Hs Hk. unfold arange_items. apply in_map_iff.
  exists k. split; [reflexivity|]. apply in_seq.
  pose proof (Z.div_mod (start - stop) step ltac:(lia)) as Hdm.
  pose proof (Z.mod_pos_bound (start - stop) step Hs) as Hmod.
  assert (Z.of_nat k < - ((start - stop) / step))%Z by nia.
  lia.
Qed.

Lemma arange_items_unit_nth (start stop : Z) (k : nat) (x : Z) :
  nth_error (arange_items start stop 1) k = Some x ->
  x = (start + Z.of_nat k)%Z /\ (x < stop)%Z.
Proof.
  intros Hk.
  assert (Hin : In x (arange_items start stop 1))
    by (eapply nth_error_In; eassumption).
  pose proof (arange_items_bounds start stop 1 ltac:(lia)) as Hb.
  rewrite List.Forall_forall in Hb. specialize (Hb x Hin).
  split; [|lia].
  unfold arange_items in Hk. rewrite nth_error_map in Hk.
  destruct (nth_error (seq 0 _) k) as [j|] eqn:Hj; [|discriminate].
  simpl in Hk. injection Hk as <-.
  assert (j = k).
  { pose proof (nth_error_Some (seq 0 (Z.to_nat (- ((start - stop) / 1)))) k)
      as Hlt.
    rewrite Hj in Hlt.
    assert (Hk' : (k < length (seq 0 (Z.to_nat (- ((start - stop) / 1)))))%nat)
      by (apply Hlt; discriminate).
    rewrite (nth_error_nth' _ 0%nat Hk') in Hj.
    rewrite length_seq in Hk'. rewrite seq_nth in Hj by assumption.
    injection Hj as <-. reflexivity. }
  subst j. lia.
Qed.

Lemma drop_positions_length {A B : Type} (bad : Z -> bool) (p : Z)
  (l : list A) (k : list B) :
  length l = length k ->
  length (drop_positions bad p l) = length (drop_positions bad p k).
Proof.
  revert p k. induction l as [|a l IH]; intros p [|b k] Hlen;
    simpl in *; try discriminate; [reflexivity|].
  injection Hlen as Hlen. specialize (IH (p + 1)%Z k Hlen).
  destruct (bad p); simpl; congruence.
Qed.

Lemma drop_positions_in {A : Type} (bad : Z -> bool) (p : Z) (l : list A)
  (x : A) :
  In x (drop_positions bad p l) ->
  exists k : nat, nth_error l k = Some x /\ bad (p + Z.of_nat k)%Z = false.
Proof.
  revert p. induction l as [|a l IH]; intros p Hin; simpl in *; [easy|].
  destruct (bad p) eqn:Hb.
  - apply IH in Hin. destruct Hin as (k & Hk & Hbad).
    exists (Datatypes.S k). split; [assumption|].
    now replace (p + Z.of_nat (Datatypes.S k))%Z
      with (p + 1 + Z.of_nat k)%Z by lia.
  - destruct Hin as [<-|Hin].
    + exists 0%nat. split; [reflexivity|]. now rewrite Z.add_0_r.
    + apply IH in Hin. destruct Hin as (k & Hk & Hbad).
      exists (Datatypes.S k). split; [assumption|].
      now replace (p + Z.of_nat (Datatypes.S k))%Z
        with (p + 1 + Z.of_nat k)%Z by lia.
Qed.

Lemma np_delete_val {A : Type} (arr : list A) (obj : list Z) :
  List.Forall (fun i => (0 <= i < Z.of_nat (length arr))%Z) obj ->
  np_delete arr obj
  = Val (drop_positions
           (fun p => existsb (fun i => (i mod Z.of_nat (length arr) =? p)%Z)
                       obj) 0 arr).
Proof.
  intros Hobj. unfold np_delete.
  replace (forallb _ obj) with true; [reflexivity|].
  symmetry. apply forallb_forall. intros i Hi.
  rewrite List.Forall_forall in Hobj. specialize (Hobj i Hi). lia.
Qed.

Lemma coo_matrix_val (data : list R) (row col : list Z) (r c : Z) :
  length data = length row -> length data = length col ->
  (0 <= r)%Z -> (0 <= c)%Z ->
  List.Forall (fun i => (0 <= i < r)%Z) row ->
  List.Forall (fun j => (0 <= j < c)%Z) col ->
  coo_matrix data row col (r, c)
  = Val (mkMatrix (Z.to_nat r) (Z.to_nat c)
           (zip_with (fun ij v => (Z.to_nat ij.1, Z.to_nat ij.2, v))
              (zip_with pair row col) data)).
Proof.
  intros Hrow Hcol Hr Hc Hrows Hcols. unfold coo_matrix. simpl.
  rewrite Hrow at 1. rewrite Hcol. rewrite !Nat.eqb_refl. simpl.
  replace (0 <=? r)%Z with true by lia.
  replace (0 <=? c)%Z with true by lia. simpl.
  replace (forallb (in_range r) row) with true.
  2:{ symmetry. apply forallb_forall. intros i Hi.
      rewrite List.Forall_forall in Hrows. specialize (Hrows i Hi).
      unfold in_range. lia. }
  replace (forallb (in_range c) col) with true.
  2:{ symmetry. apply forallb_forall. intros i Hi.
      rewrite List.Forall_forall in Hcols. specialize (Hcols i Hi).
      unfold in_range. lia. }
  reflexivity.
Qed.

Lemma Forall_range_weaken (lo hi lo' hi' : Z) (l : list Z) :
  (lo' <= lo)%Z -> (hi <= hi')%Z ->
  List.Forall (fun x => (lo <= x < hi)%Z) l ->
  List.Forall (fun x => (lo' <= x < hi')%Z) l.
Proof.
  intros Hlo Hhi. apply List.Forall_impl. intros x Hx. lia.
Qed.

(** ** The lattice *)

Section Lattice.

Variables w h : Z.
Hypothesis w_pos : (0 < w)%Z.
Hypothesis h_pos : (0 < h)%Z.

Let n : Z := (w * 2)%Z.
Let N : Z := (h * n)%Z.

Lemma lattice_row_ends_count :
  (- ((n - 1 - N) / n) = h)%Z.
Proof.
  subst N n.
  assert (E : ((w * 2 - 1 - h * (w * 2)) / (w * 2) = - h)%Z).
  { symmetry. apply (Z.div_unique_pos _ _ _ (w * 2 - 1)); lia. }
  lia.
Qed.

Lemma lattice_row_starts_count :
  (- ((0 - ((h - 1) * n + 1)) / n) = h)%Z.
Proof.
  subst n.
  assert (E : ((0 - ((h - 1) * (w * 2) + 1)) / (w * 2) = - h)%Z).
  { symmetry. apply (Z.div_unique_pos _ _ _ (w * 2 - 1)); lia. }
  lia.
Qed.

Lemma lattice_odds_count :
  (- ((1 - (h - 1) * n) / 2) = (h - 1) * w)%Z.
Proof.
  subst n.
  assert (E : ((1 - (h - 1) * (w * 2)) / 2 = - ((h - 1) * w))%Z).
  { symmetry. apply (Z.div_unique_pos _ _ _ 1); lia. }
  lia.
Qed.

Lemma lattice_ahead_count :
  (- ((n - N) / 2) = (h - 1) * w)%Z.
Proof.
  subst N n.
  assert (E : ((w * 2 - h * (w * 2)) / 2 = - ((h - 1) * w))%Z).
  { symmetry. apply (Z.div_unique_pos _ _ _ 0); lia. }
  lia.
Qed.

Lemma lattice_ends_in_range (len : nat) :
  Z.of_nat len = N ->
  List.Forall (fun i => (0 <= i < Z.of_nat len)%Z)
    (arange_items (n - 1) N n).
Proof.
  intros ->.
  apply (Forall_range_weaken (n - 1) N); [subst n; lia|lia|].
  apply arange_items_bounds. subst n; lia.
Qed.

Lemma lattice_last_position_dropped :
  existsb (fun i => (i mod N =? N - 1)%Z) (arange_items (n - 1) N n)
  = true.
Proof.
  apply existsb_exists. exists (N - 1)%Z. split.
  - replace (N - 1)%Z with (n - 1 + Z.of_nat (Z.to_nat (h - 1)) * n)%Z
      by (subst N; nia).
    apply arange_items_nth; subst N n; nia.
  - rewrite Z.mod_small by (subst N n; nia). lia.
Qed.

Lemma lattice_unit_range_length (start : Z) :
  length (arange_items start (start + N) 1) = Z.to_nat N.
Proof.
  rewrite arange_items_length. f_equal.
  replace (start - (start + N))%Z with (- N)%Z by lia.
  rewrite Z.div_1_r. lia.
Qed.

End Lattice.

Lemma internal_edges_val (w h : Z) :
  (0 < w)%Z -> (0 < h)%Z ->
  exists rows cols : list Z,
    Colony.internal_edges (w * 2) h = Val (rows, cols) /\
    length rows = length cols /\
    List.Forall (fun i => (0 <= i < h * (w * 2))%Z) rows /\
    List.Forall (fun j => (0 <= j < h * (w * 2))%Z) cols.
Proof.
  intros Hw Hh. unfold Colony.internal_edges.
  rewrite !arange_val by lia. cbn [res_bind].
  pose proof (lattice_unit_range_length w h 0) as Hlen0.
  pose proof (lattice_unit_range_length w h 1) as Hlen1.
  rewrite Z.add_0_l in Hlen0.
  replace (1 + h * (w * 2))%Z with (h * (w * 2) + 1)%Z in Hlen1 by lia.
  rewrite !np_delete_val
    by (apply lattice_ends_in_range; try lia; rewrite ?Hlen0, ?Hlen1; lia).
  cbn [res_bind]. rewrite Hlen0, Hlen1.
  replace (Z.of_nat (Z.to_nat (h * (w * 2)))) with (h * (w * 2))%Z by lia.
  eexists _, _. split; [reflexivity|].
  split; [|split].
  - rewrite !length_app, !arange_items_length.
    rewrite (drop_positions_length _ 0 (arange_items 0 (h * (w * 2)) 1)
               (arange_items 1 (h * (w * 2) + 1) 1)) by congruence.
    rewrite lattice_row_ends_count, lattice_row_starts_count,
      lattice_odds_count, lattice_ahead_count by assumption.
    reflexivity.
  - rewrite !Forall_app. repeat split.
    + apply List.Forall_forall. intros x Hx.
      apply drop_positions_in in Hx. destruct Hx as (k & Hk & _).
      apply arange_items_unit_nth in Hk. lia.
    + apply (Forall_range_weaken 0 ((h - 1) * (w * 2) + 1)); [lia|nia|].
      apply arange_items_bounds. lia.
    + apply (Forall_range_weaken 1 ((h - 1) * (w * 2))); [lia|nia|].
      apply arange_items_bounds. lia.
  - rewrite !Forall_app. repeat split.
    + apply List.Forall_forall. intros x Hx.
      apply drop_positions_in in Hx. destruct Hx as (k & Hk & Hbad).
      apply arange_items_unit_nth in Hk.
      pose proof (lattice_last_position_dropped w h Hw Hh) as Hlast.
      assert (0 + Z.of_nat k <> h * (w * 2) - 1)%Z.
      { intros E. rewrite E in Hbad. congruence. }
      lia.
    + apply (Forall_range_weaken (w * 2 - 1) (h * (w * 2))); [lia|lia|].
      apply arange_items_bounds. lia.
    + apply (Forall_range_weaken (w * 2) (h * (w * 2))); [lia|lia|].
      apply arange_items_bounds. lia.
Qed.

Lemma arange_items_count (len : nat) :
  length (arange_items 0 (Z.of_nat len) 1) = len.
Proof.
  rewrite arange_items_length.
  replace ((0 - Z.of_nat len) / 1)%Z with (- Z.of_nat len)%Z
    by (rewrite Z.div_1_r; lia).
  lia.
Qed.

Lemma internal_incidence_val (rows cols : list Z) (nodes : Z) :
  length rows = length cols -> (0 <= nodes)%Z ->
  List.Forall (fun i => (0 <= i < nodes)%Z) rows ->
  List.Forall (fun j => (0 <= j < nodes)%Z) cols ->
  exists A : matrix,
    Colony.internal_incidence rows cols (length rows) nodes = Val A /\
    nrows A = length rows /\ ncols A = Z.to_nat nodes.
Proof.
  intros Hlen Hnodes Hrows Hcols. unfold Colony.internal_incidence.
  rewrite !arange_val by lia. cbn [res_bind].
  rewrite (coo_matrix_val _ _ rows); cycle 1.
  { now rewrite repeat_length, arange_items_count. }
  { now rewrite repeat_length. }
  { lia. }
  { assumption. }
  { apply (Forall_range_weaken 0 (Z.of_nat (length rows))); try lia.
    apply arange_items_bounds. lia. }
  { assumption. }
  cbn [res_bind].
  rewrite (coo_matrix_val _ _ cols); cycle 1.
  { now rewrite repeat_length, arange_items_count. }
  { now rewrite repeat_length. }
  { lia. }
  { assumption. }
  { rewrite Hlen.
    apply (Forall_range_weaken 0 (Z.of_nat (length cols))); try lia.
    apply arange_items_bounds. lia. }
  { assumption. }
  cbn [res_bind]. unfold sparse_add. cbn [nrows ncols entries].
  rewrite !Nat.eqb_refl. cbn [andb].
  eexists. split; [reflexivity|]. cbn [nrows ncols]. split; [lia|reflexivity].
Qed.

Lemma imap_repeat {A B : Type} (f : nat -> A -> B) (x : A) (k : nat) :
  imap f (repeat x k) = map (fun i => f i x) (seq 0 k).
Proof.
  revert f. induction k as [|k IH]; intros f; [reflexivity|].
  cbn [repeat seq map]. rewrite imap_cons. f_equal.
  rewrite IH, <- seq_shift, map_map. reflexivity.
Qed.

Lemma extended_incidence_val (c : Colony.t) :
  Colony.shaped c ->
  exists A : matrix,
    Colony.extended_incidence c = (Val A, c) /\
    nrows A
    = (length (Colony.InnerConduits c)
       + Z.to_nat (Colony.m c * Colony.n c))%nat /\
    ncols A = Z.to_nat (Colony.m c * Colony.n c) /\
    entries A
    = entries (Colony.Incidence c)
      ++ map (fun i => ((length (Colony.InnerConduits c) + i)%nat, i, (-1)%R))
           (seq 0 (Z.to_nat (Colony.m c * Colony.n c))).
Proof.
  intros (Hrows & Hcols & _ & _).
  unfold Colony.extended_incidence, Colony.bind, Colony.gets, Colony.lift.
  unfold sparse_vstack, diags. cbn [nrows ncols entries].
  eexists. split.
  { rewrite repeat_length, Hcols, Nat.eqb_refl. reflexivity. }
  cbn [nrows ncols entries].
  rewrite ?repeat_length, Hrows, imap_repeat, map_map.
  repeat split; try reflexivity; assumption.
Qed.

Lemma init_val (w h : Z) (ic : R) (oc : number) (q : R)
  (dCdt : vec -> vec -> gmap string R -> res (vec * vec))
  (pin pout : gmap string R) :
  (0 < w)%Z -> (0 < h)%Z ->
  exists c : Colony.t,
    Colony.__init__ w h ic oc q dCdt pin pout = Val c /\
    Colony.shaped c /\
    Colony.n c = (w * 2)%Z /\ Colony.m c = h /\
    length (Colony.xs c) = Z.to_nat (2 * w * h) /\
    length (Colony.ys c) = Z.to_nat (2 * w * h) /\
    Colony.InnerConduits c = repeat ic (length (Colony.rowinds c)) /\
    Colony.OutflowConduits c
    = repeat (number_value oc) (Z.to_nat (2 * w * h)) /\
    Colony.InFlow c = repeat q (Z.to_nat (2 * w * h)) /\
    Colony.dCdt_inner c = Some (fun x y => dCdt x y pin) /\
    Colony.dCdt_outer c = Some (fun x y => dCdt x y pout).
Proof.
  intros Hw Hh. unfold Colony.__init__.
  rewrite arange_val by lia. cbn [res_bind].
  destruct (internal_edges_val w h Hw Hh)
    as (rows & cols & -> & Hlen & Hrows & Hcols).
  cbn [res_bind fst snd].
  rewrite (coo_matrix_val _ rows cols) by (rewrite ?repeat_length; auto; lia).
  cbn [res_bind].
  unfold sparse_sub, sparse_add.
  cbn [nrows ncols entries transpose diags scale_entries].
  rewrite !Nat.eqb_refl. cbn [andb res_bind nrows ncols entries].
  unfold row_sums. cbn [nrows]. rewrite length_map, length_seq, !Nat.eqb_refl.
  cbn [andb res_bind nrows ncols entries].
  replace (length (zip_with _ (zip rows cols) (repeat 1%R (length rows))))
    with (length rows)
    by (rewrite !length_zip_with, repeat_length; lia).
  destruct (internal_incidence_val rows cols (w * 2 * h) Hlen)
    as (A & -> & HrA & HcA); try lia.
  { revert Hrows. apply Forall_range_weaken; lia. }
  { revert Hcols. apply Forall_range_weaken; lia. }
  cbn [res_bind]. eexists. split; [reflexivity|].
  unfold Colony.shaped. cbn.
  assert (Hmn : length (arange_items 0 (h * (w * 2)) 1) = Z.to_nat (2 * w * h)).
  { rewrite arange_items_length.
    replace ((0 - h * (w * 2)) / 1)%Z with (- (h * (w * 2)))%Z
      by (rewrite Z.div_1_r; lia).
    f_equal. lia. }
  rewrite !length_zip_with, !length_map, Hmn, repeat_length.
  replace (h * (w * 2))%Z with (2 * w * h)%Z by lia.
  replace (w * 2 * h)%Z with (2 * w * h)%Z in HcA by lia.
  repeat split; try reflexivity; try assumption;
    rewrite ?repeat_length; lia.
Qed.

(** C7. A lattice built from a positive width [w] and height [h] has
    [2*w*h] nodes, one outflow conductance per node, and an extended
    incidence matrix with one row per internal conduit followed by one row
    per node (holding the single entry [-1] at that node) and one column
    per node. *)
Theorem lattice_topology (w h : Z) (ic : R) (oc : number) (q : R)
  (dCdt : vec -> vec -> gmap string R -> res (vec * vec))
  (pin pout : gmap string R) :
  (0 < w)%Z -> (0 < h)%Z ->
  exists (c : Colony.t) (A : matrix),
    Colony.__init__ w h ic oc q dCdt pin pout = Val c /\
    (Colony.m c * Colony.n c = 2 * w * h)%Z /\
    length (Colony.xs c) = Z.to_nat (2 * w * h) /\
    length (Colony.ys c) = Z.to_nat (2 * w * h) /\
    length (Colony.OutflowConduits c) = Z.to_nat (2 * w * h) /\
    Colony.extended_incidence c = (Val A, c) /\
    nrows A = (length (Colony.InnerConduits c) + Z.to_nat (2 * w * h))%nat /\
    ncols A = Z.to_nat (2 * w * h) /\
    nrows (Colony.Incidence c) = length (Colony.InnerConduits c) /\
    entries A
    = entries (Colony.Incidence c)
      ++ map (fun i => ((length (Colony.InnerConduits c) + i)%nat, i, (-1)%R))
           (seq 0 (Z.to_nat (2 * w * h))).
Proof.
  intros Hw Hh.
  destruct (init_val w h ic oc q dCdt pin pout Hw Hh)
    as (c & Hc & Hshaped & Hn & Hm & Hxs & Hys & _ & Hout & _).
  destruct (extended_incidence_val c Hshaped) as (A & HA & HrA & HcA & HeA).
  assert (Hmn : (Colony.m c * Colony.n c = 2 * w * h)%Z)
    by (rewrite Hn, Hm; lia).
  rewrite Hmn in HrA, HcA, HeA.
  exists c, A. repeat split; try assumption.
  - rewrite Hout. apply repeat_length.
  - apply Hshaped.
Qed.

Lemma lattice_topology_witness :
  exists (c : Colony.t) (A : matrix),
    Colony.__init__ 6 7 1 (NFloat (1/10)) (-1) (dCdt_default demo_numerics)
      demo_in_params default_params = Val c /\
    (Colony.m c * Colony.n c = 2 * 6 * 7)%Z /\
    length (Colony.xs c) = Z.to_nat (2 * 6 * 7) /\
    length (Colony.ys c) = Z.to_nat (2 * 6 * 7) /\
    length (Colony.OutflowConduits c) = Z.to_nat (2 * 6 * 7) /\
    Colony.extended_incidence c = (Val A, c) /\
    nrows A = (length (Colony.InnerConduits c) + Z.to_nat (2 * 6 * 7))%nat /\
    ncols A = Z.to_nat (2 * 6 * 7) /\
    nrows (Colony.Incidence c) = length (Colony.InnerConduits c) /\
    entries A
    = entries (Colony.Incidence c)
      ++ map (fun i => ((length (Colony.InnerConduits c) + i)%nat, i, (-1)%R))
           (seq 0 (Z.to_nat (2 * 6 * 7))).
Proof.
  apply (lattice_topology 6 7 1 (NFloat (1/10)) (-1)
           (dCdt_default demo_numerics) demo_in_params default_params); lia.
Defined.

(** ** Sparse products *)

Lemma Rsum_app (l k : list R) : Rsum (l ++ k) = (Rsum l + Rsum k)%R.
Proof.
  induction l as [|x l IH]; simpl; [lra|]. rewrite IH. lra.
Qed.

Lemma Rsum_map_flat_map {A B : Type} (f : B -> R) (g : A -> list B)
  (l : list A) :
  Rsum (map f (flat_map g l)) = Rsum (map (fun a => Rsum (map f (g a))) l).
Proof.
  induction l as [|a l IH]; simpl; [reflexivity|].
  now rewrite map_app, Rsum_app, IH.
Qed.

Lemma Rsum_scale {A : Type} (c : R) (f : A -> R) (l : list A) :
  Rsum (map (fun a => c * f a)%R l) = (c * Rsum (map f l))%R.
Proof.
  induction l as [|a l IH]; simpl; [lra|]. rewrite IH. lra.
Qed.

Lemma Rsum_zero {A : Type} (l : list A) :
  Rsum (map (fun _ => 0%R) l) = 0%R.
Proof. induction l as [|a l IH]; simpl; [reflexivity|]. rewrite IH. lra. Qed.

Lemma Rsum_ext {A : Type} (f g : A -> R) (l : list A) :
  (forall a, f a = g a) -> Rsum (map f l) = Rsum (map g l).
Proof. intros E. f_equal. apply map_ext. exact E. Qed.

Lemma row_apply_ext (M : matrix) (i : nat) (F G : nat -> R) :
  (forall j, F j = G j) -> row_apply M i F = row_apply M i G.
Proof.
  intros E. unfold row_apply. apply Rsum_ext. intros e. now rewrite E.
Qed.

(** Row [i] of a product [X * Y] is row [i] of [X] applied to the rows of
    [Y]. *)
Lemma row_apply_matmul (X Y XY : matrix) (i : nat) (F : nat -> R) :
  matmul X Y = Val XY ->
  row_apply XY i F = row_apply X i (fun k => row_apply Y k F).
Proof.
  unfold matmul. destruct (ncols X =? nrows Y)%nat; [|discriminate].
  intros [= <-]. unfold row_apply at 1 2. cbn [entries].
  rewrite Rsum_map_flat_map. apply Rsum_ext. intros a.
  rewrite Rsum_map_flat_map.
  destruct (a.1.1 =? i)%nat eqn:Hrow.
  - unfold row_apply. rewrite <- Rsum_scale. apply Rsum_ext. intros b.
    destruct (Nat.eqb_spec a.1.2 b.1.1) as [E|E].
    + rewrite <- E, Nat.eqb_refl. cbn. rewrite Hrow. lra.
    + replace (b.1.1 =? a.1.2)%nat with false
        by (symmetry; apply Nat.eqb_neq; congruence).
      cbn. lra.
  - transitivity (Rsum (map (fun _ => 0%R) (entries Y)));
      [|apply Rsum_zero].
    apply Rsum_ext. intros b.
    destruct (a.1.2 =? b.1.1)%nat; cbn; rewrite ?Hrow; lra.
Qed.

Lemma row_apply_diags (C : vec) (i : nat) (F : nat -> R) :
  row_apply (diags C) i F
  = match C !! i with
    | Some c => (c * F i)%R
    | None => 0%R
    end.
Proof.
  unfold row_apply, diags. cbn [entries].
  assert (G : forall (k : nat) (l : vec),
    Rsum (map (fun e : nat * nat * R =>
                 if (e.1.1 =? i)%nat then (e.2 * F e.1.2)%R else 0%R)
            (imap (fun j v => ((k + j)%nat, (k + j)%nat, v)) l))
    = match (i - k)%nat, (k <=? i)%nat with
      | d, true => match l !! d with
                   | Some c => (c * F i)%R
                   | None => 0%R
                   end
      | _, false => 0%R
      end).
  { intros k l. revert k. induction l as [|v l IH]; intros k.
    - cbn. destruct (k <=? i)%nat; reflexivity.
    - rewrite imap_cons. cbn [map Rsum fold_right fst snd].
      rewrite (imap_ext _ (fun j v => ((Datatypes.S k + j)%nat,
                                  (Datatypes.S k + j)%nat, v)))
        by (intros j x _; cbn; rewrite Nat.add_succ_r; reflexivity).
      fold (Rsum (map (fun e : nat * nat * R =>
                 if (e.1.1 =? i)%nat then (e.2 * F e.1.2)%R else 0%R)
            (imap (fun j v => ((Datatypes.S k + j)%nat,
                               (Datatypes.S k + j)%nat, v)) l))).
      rewrite IH. rewrite Nat.add_0_r.
      destruct (Nat.eqb_spec k i) as [->|Hne].
      + rewrite Nat.sub_diag, Nat.leb_refl. cbn [lookup list_lookup].
        replace (Datatypes.S i <=? i)%nat with false
          by (symmetry; apply Nat.leb_gt; lia).
        apply Rplus_0_r.
      + destruct (Nat.leb_spec k i) as [Hle|Hgt].
        * replace (Datatypes.S k <=? i)%nat with true
            by (symmetry; apply Nat.leb_le; lia).
          replace (i - k)%nat with (Datatypes.S (i - Datatypes.S k)) by lia.
          cbn [lookup list_lookup]. apply Rplus_0_l.
        * replace (Datatypes.S k <=? i)%nat with false
            by (symmetry; apply Nat.leb_gt; lia).
          lra. }
  specialize (G 0%nat C). cbn [Nat.add] in G. rewrite G.
  rewrite Nat.sub_0_r. reflexivity.
Qed.

(** ** The solve *)

Section Solve.
Import Colony.

Variable L : numerics.

(** [solvecolony] never changes the object, and its answer is the
    following composition of its steps. *)
Lemma solvecolony_unfold (calcflows calcdCdt : bool) (kw : kwargs)
  (self : t) :
  solvecolony L calcflows calcdCdt kw self
  = (let C := match kw_conductivityfull kw with
              | None => InnerConduits self ++ OutflowConduits self
              | Some C => C
              end in
     let k := length (InnerConduits self) in
     A <~ match kw_IncidenceFull kw with
          | None => (extended_incidence self).1
          | Some A => Val A
          end ;;
     sys <~ system_matrix A C ;;
     p <~ solve_pressures L sys (InFlow self) (kw_Pressures kw) ;;
     fl <~ (if calcflows
            then f <~ edge_flows A C p ;; Val (Some f)
            else Val None) ;;
     match calcdCdt, dCdt_inner self, dCdt_outer self with
     | true, Some inner_law, Some outer_law =>
         AP <~ matvec A p ;;
         i <~ inner_law (firstn k C) (firstn k (map Rabs AP)) ;;
         o <~ outer_law (skipn k C) (skipn k (map Rabs AP)) ;;
         Val (mkSols p C A fl (Some (i.2 ++ o.2)) (Some (i.1 ++ o.1)))
     | _, _, _ => Val (mkSols p C A fl None None)
     end, self).
Proof.
  unfold solvecolony, extended_incidence, bind, gets, ret, lift.
  destruct (kw_conductivityfull kw) as [C|];
    destruct (kw_IncidenceFull kw) as [A|]; cbn [fst snd res_bind].
  all: repeat
    match goal with
    | |- context [sparse_vstack ?a ?b] =>
        destruct (sparse_vstack a b); cbn [fst snd res_bind];
        [|reflexivity]
    | |- context [system_matrix ?a ?b] =>
        destruct (system_matrix a b); cbn [fst snd res_bind];
        [|reflexivity]
    | |- context [solve_pressures ?a ?b ?c ?d] =>
        destruct (solve_pressures a b c d); cbn [fst snd res_bind];
        [|reflexivity]
    end.
  all: destruct calcflows; cbn [fst snd res_bind].
  all: repeat
    match goal with
    | |- context [edge_flows ?a ?b ?c] =>
        destruct (edge_flows a b c); cbn [fst snd res_bind];
        [|reflexivity]
    end.
  all: destruct calcdCdt, (dCdt_inner self) as [fi|],
         (dCdt_outer self) as [fo|]; cbn [fst snd res_bind];
       try reflexivity.
  all: repeat
    match goal with
    | |- context [matvec ?a ?b] =>
        destruct (matvec a b); cbn [fst snd res_bind]; [|reflexivity]
    end.
  all: rewrite ?firstn_app, ?skipn_app, ?Nat.sub_diag, ?firstn_all,
         ?firstn_O, ?app_nil_r, ?skipn_all, ?skipn_O; cbn [app].
  all: repeat
    match goal with
    | f : list R -> list R -> res (list R * list R)
      |- context [?g ?a ?b] =>
        constr_eq f g; destruct (f a b); cbn [fst snd res_bind];
        [|reflexivity]
    end.
  all: reflexivity.
Qed.

End Solve.

(** ** Pressures and flows *)

Lemma scaled_rows (C : vec) (G : nat -> R) :
  map (fun i => match C !! i with
                | Some c => (c * G i)%R
                | None => 0%R
                end) (seq 0 (length C))
  = zip_with Rmult C (map G (seq 0 (length C))).
Proof.
  revert G. induction C as [|c C IH]; intros G; [reflexivity|].
  cbn [length seq map zip_with lookup list_lookup]. f_equal.
  rewrite <- seq_shift, !map_map. apply IH.
Qed.

Lemma nth_scaled_rows (C : vec) (G : nat -> R) (k : nat) :
  nth k (zip_with Rmult C (map G (seq 0 (length C)))) 0%R
  = match C !! k with
    | Some c => (c * G k)%R
    | None => 0%R
    end.
Proof.
  rewrite <- scaled_rows.
  destruct (Nat.lt_ge_cases k (length C)) as [Hlt|Hge].
  - rewrite (nth_indep _ 0%R
               (match C !! 0%nat with Some c => (c * G 0%nat)%R | None => 0%R end))
      by (now rewrite length_map, length_seq).
    rewrite (map_nth (fun i => match C !! i with
                               | Some c => (c * G i)%R
                               | None => 0%R
                               end) (seq 0 (length C)) 0%nat k).
    now rewrite seq_nth.
  - rewrite nth_overflow by (now rewrite length_map, length_seq).
    now rewrite (lookup_ge_None_2 C k Hge).
Qed.

Section Flows.
Import Colony.

(** The rows of [A] applied to [x]: the entries of [A * x]. *)
Lemma matvec_rows (A : matrix) (x AP : vec) :
matvec A x = Val AP ->
AP = map (fun e => row_dot A e x) (seq 0 (nrows A)).
Proof.
unfold matvec. destruct (ncols A =? length x)%nat; congruence.
Qed.

(** [diag(C) * A * p], conduit by conduit. *)
Lemma edge_flows_value (A : matrix) (C p f : vec) :
edge_flows A C p = Val f ->
length C = nrows A /\
f = zip_with Rmult C (map (fun e => row_dot A e p) (seq 0 (nrows A))).
Proof.
unfold edge_flows. destruct (matmul (diags C) A) as [CA|] eqn:HCA;
  [|discriminate].
cbn [res_bind]. intros Hf. apply matvec_rows in Hf.
assert (Hshape : length C = nrows A /\ nrows CA = length C).
{ unfold matmul in HCA. cbn [diags nrows ncols] in HCA.
  destruct (Nat.eqb_spec (length C) (nrows A)); [|discriminate].
  injection HCA as <-. now split. }
destruct Hshape as [HC HrCA]. split; [assumption|].
subst f. rewrite HrCA, <- HC, <- scaled_rows.
apply map_ext. intros e. unfold row_dot.
rewrite (row_apply_matmul _ _ _ _ _ HCA). apply row_apply_diags.
Qed.

(** The assembled system applied to [x] is
  [transpose(A) * (C .* (A * x))], row by row. *)
Lemma system_matrix_rows (A : matrix) (C : vec) (sys : matrix) (x : vec)
(i : nat) :
system_matrix A C = Val sys ->
length C = nrows A /\ nrows sys = ncols A /\ ncols sys = ncols A /\
row_dot sys i x
= row_dot (transpose A) i
    (zip_with Rmult C (map (fun e => row_dot A e x) (seq 0 (nrows A)))).
Proof.
unfold system_matrix.
destruct (matmul (transpose A) (diags C)) as [AtC|] eqn:HAtC;
  [|discriminate].
cbn [res_bind]. intros Hsys.
assert (Hshape : length C = nrows A /\ nrows sys = ncols A /\
                 ncols sys = ncols A).
{ unfold matmul in HAtC, Hsys.
  cbn [transpose diags nrows ncols] in HAtC.
  destruct (Nat.eqb_spec (nrows A) (length C)); [|discriminate].
  injection HAtC as <-. cbn [nrows ncols] in Hsys.
  destruct (length C =? nrows A)%nat; [|discriminate].
  injection Hsys as <-. cbn. auto. }
destruct Hshape as (HC & Hr & Hc). repeat split; try assumption.
unfold row_dot.
rewrite (row_apply_matmul _ _ _ _ _ Hsys).
rewrite (row_apply_matmul _ _ _ _ _ HAtC).
apply row_apply_ext. intros k. rewrite row_apply_diags.
rewrite <- HC. symmetry. apply nth_scaled_rows.
Qed.

End Flows.

(** ** The two-node colony and the direct solver *)

Section TwoNodes.
Import Colony.

Lemma init_two_nodes (ic : R) (oc : number) (q : R)
  (law : vec -> vec -> gmap string R -> res (vec * vec))
  (pin pout : gmap string R) :
  __init__ 1 1 ic oc q law pin pout = Val (two_nodes ic oc q law pin pout).
Proof. reflexivity. Qed.

Lemma direct_2x2_singular (A : matrix) (b0 b1 : R) (x0 : option vec) :
  nrows A = 2%nat ->
  (dense_get A 0 0 * dense_get A 1 1
   - dense_get A 0 1 * dense_get A 1 0 = 0)%R ->
  direct_2x2 A [b0; b1] x0 = (first_guess 2 x0, 1%Z).
Proof.
  intros Hr Hdet. unfold direct_2x2. rewrite Hr.
  destruct (Req_dec_T _ 0) as [_|Hne]; [reflexivity|contradiction].
Qed.

Lemma direct_2x2_regular (A : matrix) (b0 b1 : R) (x0 : option vec) :
  nrows A = 2%nat ->
  (dense_get A 0 0 * dense_get A 1 1
   - dense_get A 0 1 * dense_get A 1 0 <> 0)%R ->
  direct_2x2 A [b0; b1] x0
  = ([((dense_get A 1 1 * b0 - dense_get A 0 1 * b1)
       / (dense_get A 0 0 * dense_get A 1 1
          - dense_get A 0 1 * dense_get A 1 0))%R;
      ((dense_get A 0 0 * b1 - dense_get A 1 0 * b0)
       / (dense_get A 0 0 * dense_get A 1 1
          - dense_get A 0 1 * dense_get A 1 0))%R], 0%Z).
Proof.
  intros Hr Hdet. unfold direct_2x2. rewrite Hr.
  destruct (Req_dec_T _ 0) as [He|_]; [contradiction|reflexivity].
Qed.

Lemma direct_2x2_length (A : matrix) (b : vec) (x0 : option vec) :
  length (direct_2x2 A b x0).1 = nrows A.
Proof.
  unfold direct_2x2.
  assert (Hg : forall k, length (first_guess k x0) = k).
  { intros k. unfold first_guess. destruct x0 as [x|].
    - destruct (Nat.eqb_spec (length x) k); [assumption|].
      apply repeat_length.
    - apply repeat_length. }
  destruct (nrows A) as [|[|[|k]]]; cbn [fst]; try apply Hg.
  destruct b as [|b0 [|b1 [|b2 b]]]; cbn [fst]; try apply Hg.
  destruct (Req_dec_T _ 0); cbn [fst]; [apply Hg|reflexivity].
Qed.

Lemma direct_2x2_shaped : solver_shaped demo_numerics.
Proof. intros A b x0. apply direct_2x2_length. Qed.

Lemma direct_2x2_answers : solver_shaped rounding_numerics.
Proof. intros A b x0. apply direct_2x2_length. Qed.

End TwoNodes.



(** Evaluation on concrete colonies: everything but the arithmetic of the
    reals and the solver is computed. *)
Ltac run :=
  cbv -[Rplus Rmult Rminus Rdiv Ropp Rinv IZR Rabs Req_dec_T Rlt_dec
        direct_2x2 exp ln Rpower].

Tactic Notation "run" "in" hyp(H) :=
  cbv -[Rplus Rmult Rminus Rdiv Ropp Rinv IZR Rabs Req_dec_T Rlt_dec
        direct_2x2 exp ln Rpower] in H.

(** Case analysis on the first step of a chain of fallible steps that is
    known to end with a value. *)
Tactic Notation "res_inv" hyp(H) "as" ident(x) ident(E) :=
  match type of H with
  | context [res_bind ?r _] =>
      destruct r as [x|] eqn:E; cbn [res_bind] in H; [|discriminate H]
  end.

Section SolveClaims.
Import Colony.

(** What [solvecolony] answers when it answers: its steps, one by one. *)
Lemma solvecolony_inv (L : numerics) (calcflows calcdCdt : bool)
  (kw : kwargs) (self self' : t) (sols : networksols) :
  solvecolony L calcflows calcdCdt kw self = (Val sols, self') ->
  self' = self /\
  conductivityfull sols
  = match kw_conductivityfull kw with
    | None => InnerConduits self ++ OutflowConduits self
    | Some C => C
    end /\
  match kw_IncidenceFull kw with
  | None => (extended_incidence self).1
  | Some A => Val A
  end = Val (IncidenceFull sols) /\
  exists sys : matrix,
    system_matrix (IncidenceFull sols) (conductivityfull sols) = Val sys /\
    solve_pressures L sys (InFlow self) (kw_Pressures kw)
    = Val (Pressures sols) /\
    (if calcflows
     then exists f, edge_flows (IncidenceFull sols) (conductivityfull sols)
                      (Pressures sols) = Val f /\ Flows sols = Some f
     else Flows sols = None) /\
    match calcdCdt, dCdt_inner self, dCdt_outer self with
    | true, Some inner_law, Some outer_law =>
        let k := length (InnerConduits self) in
        exists (AP : vec) (i o : vec * vec),
          matvec (IncidenceFull sols) (Pressures sols) = Val AP /\
          inner_law (firstn k (conductivityfull sols))
            (firstn k (map Rabs AP)) = Val i /\
          outer_law (skipn k (conductivityfull sols))
            (skipn k (map Rabs AP)) = Val o /\
          S sols = Some (i.2 ++ o.2) /\ dCdt sols = Some (i.1 ++ o.1)
    | _, _, _ => S sols = None /\ dCdt sols = None
    end.
Proof.
  rewrite solvecolony_unfold. cbv zeta. intros H.
  injection H as H <-. split; [reflexivity|].
  res_inv H as A HA. res_inv H as sys Hsys. res_inv H as p Hp.
  res_inv H as fl Hfl.
  set (C := match kw_conductivityfull kw with
            | Some C => C
            | None => InnerConduits self ++ OutflowConduits self
            end) in *.
  assert (Hfl' : if calcflows
                 then exists f, edge_flows A C p = Val f /\ fl = Some f
                 else fl = None).
  { destruct calcflows; [|congruence].
    destruct (edge_flows A C p) as [f|]; cbn [res_bind] in Hfl;
      [|discriminate].
    injection Hfl as <-. eauto. }
  clear Hfl.
  destruct calcdCdt, (dCdt_inner self) as [fi|], (dCdt_outer self) as [fo|];
    try (injection H as <-; cbn; eauto 10).
  res_inv H as AP HAP. res_inv H as i Hi. res_inv H as o Ho.
  injection H as <-. cbn.
  split; [reflexivity|]. split; [exact HA|].
  exists sys. repeat split; try assumption.
  exists AP, i, o. auto.
Qed.

End SolveClaims.

Section PressureClaims.
Import Colony.



End PressureClaims.

Section SingularSystem.
Import Colony.

(** The two-node colony whose conductances are all zero. *)
Let dead : t :=
  two_nodes 0 (NInt 0) (-1) (dCdt_default demo_numerics)
    default_params default_params.


End SingularSystem.

(** ** Failures of the numerical routines *)

Section Flags.
Import Colony.

Variable L : numerics.
Variable flag : matrix -> vec -> option vec -> Z.

Lemma solvecolony_with_flag (calcflows calcdCdt : bool) (kw : kwargs)
  (self : t) :
  solvecolony (with_flag flag L) calcflows calcdCdt kw self
  = solvecolony L calcflows calcdCdt kw self.
Proof. rewrite !solvecolony_unfold. reflexivity. Qed.

Lemma bind_ext {A B : Type} (c c' : M A) (k k' : A -> M B) (self : t) :
  c self = c' self -> (forall a s, k a s = k' a s) ->
  bind c k self = bind c' k' self.
Proof.
  intros Hc Hk. unfold bind. rewrite Hc.
  destruct (c' self) as [[a|e] s]; [apply Hk|reflexivity].
Qed.

Lemma rk_call_ext (f g : R -> vec -> M vec) (x : R) (y : vec) (self : t) :
  (forall x y s, f x y s = g x y s) ->
  rk_call f x y self = rk_call g x y self.
Proof.
  intros Hfg. unfold rk_call. apply bind_ext; [apply Hfg|reflexivity].
Qed.

Lemma rk_stages_ext (f g : R -> vec -> M vec) (x : R) (y : vec) (h : R)
  (rows : list (R * list R)) (ks : list vec) (self : t) :
  (forall x y s, f x y s = g x y s) ->
  rk_stages f x y h rows ks self = rk_stages g x y h rows ks self.
Proof.
  intros Hfg. revert ks self.
  induction rows as [|[c a] rows IH]; intros ks self; [reflexivity|].
  cbn [rk_stages]. apply bind_ext; [now apply rk_call_ext|].
  intros k s. apply IH.
Qed.

Lemma rk_drive_with_flag (fuel : nat) (f g : R -> vec -> M vec) (x : R)
  (y : vec) (h tend : R) (self : t) :
  (forall x y s, f x y s = g x y s) ->
  rk_drive (with_flag flag L) fuel f x y h tend self
  = rk_drive L fuel g x y h tend self.
Proof.
  intros Hfg. revert x y h self.
  induction fuel as [|fuel IH]; intros x y h self; [reflexivity|].
  cbn [rk_drive with_flag rk_plan rk_rows rk_judge rk_weights].
  destruct (rk_plan L x h tend) as [h'|]; [|reflexivity].
  apply bind_ext; [now apply rk_stages_ext|]. intros ks s.
  destruct (rk_judge L x h' y _ ks); auto.
Qed.

Lemma UpdateColony_with_flag (tmax : R) (self : t) :
  UpdateColony (with_flag flag L) tmax self = UpdateColony L tmax self.
Proof.
  unfold UpdateColony.
  apply bind_ext; [apply solvecolony_with_flag|]. intros params s.
  apply bind_ext; [|reflexivity].
  assert (Hrhs : forall x y s',
             dlnCdt (with_flag flag L) params x y s'
             = dlnCdt L params x y s').
  { intros x y s'. unfold dlnCdt, rhs_solve.
    apply bind_ext; [apply solvecolony_with_flag|reflexivity]. }
  unfold ode_integrate.
  apply bind_ext; [now apply rk_call_ext|]. intros k1 s1.
  apply bind_ext; [|reflexivity].
  cbn [with_flag rk_nsteps rk_hinit]. now apply rk_drive_with_flag.
Qed.

End Flags.

Section FailuresNotSignalled.
Import Colony.

(** C5 (as amended). Neither operation signals a failure of its
    numerical routine.  Whatever convergence flag the iterative solver
    reports, [solvecolony] and [UpdateColony] answer the same; and
    whenever the stepping loop ends in a state [y], with success or
    without, the integration answers [y]. *)
Theorem numerical_failures_are_not_signalled (L : numerics)
  (flag : matrix -> vec -> option vec -> Z) :
  (forall calcflows calcdCdt kw self,
     solvecolony (with_flag flag L) calcflows calcdCdt kw self
     = solvecolony L calcflows calcdCdt kw self) /\
  (forall tmax self,
     UpdateColony (with_flag flag L) tmax self = UpdateColony L tmax self) /\
  (forall (f : R -> vec -> M vec) (y0 y k1 : vec) (t0 tend : R)
          (ok : bool) (self s1 s2 : t),
     rk_call f t0 y0 self = (Val k1, s1) ->
     rk_drive L (rk_nsteps L) f t0 y0 (rk_hinit L t0 y0 k1 tend) tend s1
     = (Val (y, ok), s2) ->
     ode_integrate L f y0 t0 tend self = (Val y, s2)).
Proof.
  split; [|split].
  - intros. apply solvecolony_with_flag.
  - intros. apply UpdateColony_with_flag.
  - intros f y0 y k1 t0 tend ok self s1 s2 Hk1 Hdrive.
    unfold ode_integrate, bind. rewrite Hk1, Hdrive. reflexivity.
Qed.

End FailuresNotSignalled.

Section UnconvergedSolve.
Import Colony.

Let dead : t :=
  two_nodes 0 (NInt 0) (-1) (dCdt_default demo_numerics)
    default_params default_params.

(** C5, counterexample. On the colony without any conductance the solver
    gives up (flag [1]) on a vector that does not satisfy the system, and
    [solvecolony] answers with that vector as if nothing had happened. *)
Lemma solvecolony_returns_unconverged_pressures :
  exists (sols : networksols) (sys : matrix),
    __init__ 1 1 0 (NInt 0) (-1) (dCdt_default demo_numerics)
      default_params default_params = Val dead /\
    solvecolony demo_numerics false false no_kwargs dead
    = (Val sols, dead) /\
    system_matrix (IncidenceFull sols) (conductivityfull sols) = Val sys /\
    bicgstab demo_numerics sys (InFlow dead) None
    = (Pressures sols, 1%Z) /\
    matvec sys (Pressures sols) <> Val (InFlow dead).
Proof.
  eexists _, _. split; [reflexivity|]. rewrite solvecolony_unfold.
  split; [reflexivity|]. split; [reflexivity|]. split.
  - run. rewrite direct_2x2_singular; [|reflexivity|run; lra].
    reflexivity.
  - run. rewrite direct_2x2_singular; [|reflexivity|run; lra].
    run. intros [= H0 H1]. lra.
Qed.

Lemma numerical_failures_are_not_signalled_witness :
  ode_integrate stalled_numerics (fun _ y => ret y) [1%R] 0 1 dead
  = (Val [1%R], dead).
Proof.
  apply (proj2 (proj2 (numerical_failures_are_not_signalled
                         stalled_numerics (fun _ _ _ => 0%Z)))
           (fun _ y => ret y) [1%R] [1%R] [1%R] 0%R 1%R false dead dead dead);
    reflexivity.
Defined.

End UnconvergedSolve.

(** ** When the solve succeeds *)

Section SolveSucceeds.
Import Colony.

Variable L : numerics.
Hypothesis L_shaped : solver_shaped L.

Lemma system_matrix_val (A : matrix) (C : vec) :
  length C = nrows A ->
  exists sys : matrix,
    system_matrix A C = Val sys /\
    nrows sys = ncols A /\ ncols sys = ncols A.
Proof.
  intros HC. unfold system_matrix, matmul.
  cbn [transpose diags nrows ncols].
  rewrite HC, Nat.eqb_refl. cbn [res_bind nrows ncols].
  rewrite Nat.eqb_refl. eexists. split; [reflexivity|]. now cbn.
Qed.

Lemma solve_pressures_val (sys : matrix) (b : vec) (x0 : option vec) :
  nrows sys = ncols sys -> length b = nrows sys ->
  match x0 with Some x => length x = nrows sys | None => True end ->
  solve_pressures L sys b x0 = Val (bicgstab L sys b x0).1.
Proof.
  intros Hsq Hb Hx. unfold solve_pressures.
  rewrite Hsq at 1. rewrite Hb, !Nat.eqb_refl.
  destruct x0 as [x|]; [rewrite Hx, Nat.eqb_refl|]; reflexivity.
Qed.

Lemma matvec_val (A : matrix) (x : vec) :
  length x = ncols A ->
  matvec A x = Val (map (fun e => row_dot A e x) (seq 0 (nrows A))).
Proof. intros Hx. unfold matvec. now rewrite Hx, Nat.eqb_refl. Qed.

Lemma edge_flows_val (A : matrix) (C p : vec) :
  length C = nrows A -> length p = ncols A ->
  edge_flows A C p
  = Val (zip_with Rmult C (map (fun e => row_dot A e p) (seq 0 (nrows A)))).
Proof.
  intros HC Hp.
  destruct (edge_flows A C p) as [f|] eqn:Hf.
  - apply edge_flows_value in Hf. destruct Hf as [_ ->]. reflexivity.
  - exfalso. unfold edge_flows, matmul in Hf.
    cbn [diags nrows ncols] in Hf. rewrite HC, Nat.eqb_refl in Hf.
    cbn [res_bind] in Hf. unfold matvec in Hf. cbn [ncols] in Hf.
    rewrite Hp, Nat.eqb_refl in Hf. discriminate.
Qed.

Variables r_in b_in z_in q_in r_out b_out z_out q_out : R.
Variables pin pout : gmap string R.
Hypothesis pin_r : pin !! "r" = Some r_in.
Hypothesis pin_b : pin !! "b" = Some b_in.
Hypothesis pin_z : pin !! "z" = Some z_in.
Hypothesis pin_q : pin !! "q" = Some q_in.
Hypothesis pout_r : pout !! "r" = Some r_out.
Hypothesis pout_b : pout !! "b" = Some b_out.
Hypothesis pout_z : pout !! "z" = Some z_out.
Hypothesis pout_q : pout !! "q" = Some q_out.

(** With the feedback law and its parameters in place and with
    arguments of matching shapes, [solvecolony] answers, and this is its
    answer. *)
Lemma solvecolony_val (calcflows : bool) (kw : kwargs) (self : t)
  (A : matrix) :
  dCdt_inner self = Some (fun x y => dCdt_default L x y pin) ->
  dCdt_outer self = Some (fun x y => dCdt_default L x y pout) ->
  match kw_IncidenceFull kw with
  | None => (extended_incidence self).1
  | Some A' => Val A'
  end = Val A ->
  let C := match kw_conductivityfull kw with
           | None => InnerConduits self ++ OutflowConduits self
           | Some C => C
           end in
  length C = nrows A ->
  length (InFlow self) = ncols A ->
  match kw_Pressures kw with
  | Some x => length x = ncols A
  | None => True
  end ->
  exists sys : matrix,
    system_matrix A C = Val sys /\
    let p := (bicgstab L sys (InFlow self) (kw_Pressures kw)).1 in
    let dP := map Rabs (map (fun e => row_dot A e p) (seq 0 (nrows A))) in
    let k := length (InnerConduits self) in
    solvecolony L calcflows true kw self
    = (Val (mkSols p C A
              (if calcflows
               then Some (zip_with Rmult C
                            (map (fun e => row_dot A e p)
                               (seq 0 (nrows A))))
               else None)
              (Some
                 (zip_with (fun c d => Rabs (b_in * np_power L c z_in * d))
                    (firstn k C) (firstn k dP)
                  ++ zip_with
                       (fun c d => Rabs (b_out * np_power L c z_out * d))
                       (skipn k C) (skipn k dP)))
              (Some
                 (zip_with
                    (fun c d =>
                       r_in * np_power L c q_in
                       * (Rabs (b_in * np_power L c z_in * d) - 1))%R
                    (firstn k C) (firstn k dP)
                  ++ zip_with
                       (fun c d =>
                          r_out * np_power L c q_out
                          * (Rabs (b_out * np_power L c z_out * d) - 1))%R
                       (skipn k C) (skipn k dP)))),
       self).
Proof.
  intros Hin Hout HA C HC Hq Hx0.
  destruct (system_matrix_val A C HC) as (sys & Hsys & Hr & Hc).
  exists sys. split; [assumption|]. intros p dP k.
  assert (Hp : length p = ncols A) by (subst p; now rewrite L_shaped).
  rewrite solvecolony_unfold. cbv zeta. fold C. rewrite HA.
  cbn [res_bind]. rewrite Hsys. cbn [res_bind].
  rewrite solve_pressures_val; cycle 1.
  { congruence. }
  { congruence. }
  { destruct (kw_Pressures kw); [congruence|exact I]. }
  cbn [res_bind]. fold p.
  rewrite Hin, Hout.
  rewrite (matvec_val A p Hp). cbn [res_bind]. fold dP. fold k.
  assert (HdP : length dP = length C).
  { subst dP. now rewrite !length_map, length_seq. }
  rewrite (dCdt_default_value L r_in b_in z_in q_in) by
    (try assumption; rewrite !length_firstn; lia).
  cbn [res_bind].
  rewrite (dCdt_default_value L r_out b_out z_out q_out) by
    (try assumption; rewrite !length_skipn; lia).
  cbn [res_bind fst snd].
  destruct calcflows.
  - rewrite (edge_flows_val A C p HC Hp). reflexivity.
  - reflexivity.
Qed.

End SolveSucceeds.

(** ** The right-hand side of the integration *)

Section RightHandSide.
Import Colony.







End RightHandSide.

(** ** Alignment of the feedback outputs *)

Lemma dCdt_default_inv (L : numerics) (Cs dPs : vec)
  (params : gmap string R) (d s : vec) :
  Cs <> [] ->
  dCdt_default L Cs dPs params = Val (d, s) ->
  exists r b z q : R,
    params !! "r" = Some r /\ params !! "b" = Some b /\
    params !! "z" = Some z /\ params !! "q" = Some q.
Proof.
  unfold dCdt_default, get_param. intros Hne H.
  destruct Cs as [|c Cs]; [contradiction|].
  destruct (params !! "z") as [z|]; [|discriminate].
  cbn [np_pow res_bind map] in H.
  destruct (params !! "b") as [b|]; [|discriminate].
  cbn [np_scale res_bind map] in H.
  destruct (broadcast _ _ dPs); [|discriminate]. cbn [res_bind] in H.
  destruct (params !! "q") as [q|]; [|discriminate].
  cbn [np_pow res_bind map] in H.
  destruct (params !! "r") as [r|]; [|discriminate].
  exists r, b, z, q. auto.
Qed.

Lemma lookup_split_zip_with {A B C : Type} (f g : A -> B -> C) (k i : nat)
  (l : list A) (l' : list B) (a : A) (b : B) :
  l !! i = Some a -> l' !! i = Some b ->
  (zip_with f (firstn k l) (firstn k l')
   ++ zip_with g (skipn k l) (skipn k l')) !! i
  = Some (if (i <? k)%nat then f a b else g a b).
Proof.
  revert i l l'. induction k as [|k IH]; intros i l l' Ha Hb.
  - change (zip_with g l l' !! i = Some (g a b)).
    rewrite lookup_zip_with, Ha, Hb. reflexivity.
  - destruct l as [|a0 l]; [discriminate|].
    destruct l' as [|b0 l']; [discriminate|].
    destruct i as [|i].
    + injection Ha as ->. injection Hb as ->. reflexivity.
    + exact (IH i l l' Ha Hb).
Qed.

Lemma length_split_zip_with {A B C : Type} (f g : A -> B -> C) (k : nat)
  (l : list A) (l' : list B) :
  length l = length l' ->
  length (zip_with f (firstn k l) (firstn k l')
          ++ zip_with g (skipn k l) (skipn k l')) = length l.
Proof.
  intros Hlen.
  rewrite length_app, !length_zip_with, !length_firstn, !length_skipn. lia.
Qed.

Section Alignment.
Import Colony.

(** C8. When the feedback is computed by the law [dCdt_default] with
    complete parameter sets, on arguments whose shapes fit, [solvecolony]
    answers, and its [S] and [dCdt] have one entry per entry of the
    conductance vector used (the keyword [conductivityfull] when given,
    the internal conductances followed by the outflow conductances of the
    colony otherwise); entry [i] of each is the feedback law (with the
    parameters of the internal conduits below the number of internal
    conduits, those of the outflow conduits from there on) applied to
    entry [i] of that conductance vector and entry [i] of the pressure
    differences [|A * p|]. *)
Theorem feedback_outputs_aligned (L : numerics) (calcflows : bool)
  (kw : kwargs) (self : t) (A : matrix)
  (r_in b_in z_in q_in r_out b_out z_out q_out : R)
  (pin pout : gmap string R) :
  solver_shaped L ->
  pin !! "r" = Some r_in -> pin !! "b" = Some b_in ->
  pin !! "z" = Some z_in -> pin !! "q" = Some q_in ->
  pout !! "r" = Some r_out -> pout !! "b" = Some b_out ->
  pout !! "z" = Some z_out -> pout !! "q" = Some q_out ->
  dCdt_inner self = Some (fun x y => dCdt_default L x y pin) ->
  dCdt_outer self = Some (fun x y => dCdt_default L x y pout) ->
  match kw_IncidenceFull kw with
  | None => (extended_incidence self).1
  | Some A' => Val A'
  end = Val A ->
  let C := match kw_conductivityfull kw with
           | None => InnerConduits self ++ OutflowConduits self
           | Some C => C
           end in
  length C = nrows A ->
  length (InFlow self) = ncols A ->
  match kw_Pressures kw with
  | Some x => length x = ncols A
  | None => True
  end ->
  exists (sols : networksols) (AP Sv dv : vec),
    solvecolony L calcflows true kw self = (Val sols, self) /\
    conductivityfull sols = C /\
    IncidenceFull sols = A /\
    matvec A (Pressures sols) = Val AP /\
    S sols = Some Sv /\ dCdt sols = Some dv /\
    length AP = length C /\
    length Sv = length C /\
    length dv = length C /\
    forall (i : nat) (c x : R),
      C !! i = Some c -> AP !! i = Some x ->
      exists s d : R,
        Sv !! i = Some s /\ dv !! i = Some d /\
        dCdt_default L [c] [Rabs x]
          (if (i <? length (InnerConduits self))%nat then pin else pout)
        = Val ([d], [s]).
Proof.
  intros HL Hri Hbi Hzi Hqi Hro Hbo Hzo Hqo Hin Hout HA C HC Hq Hx0.
  destruct (solvecolony_val L HL r_in b_in z_in q_in r_out b_out z_out q_out
              pin pout Hri Hbi Hzi Hqi Hro Hbo Hzo Hqo
              calcflows kw self A Hin Hout HA HC Hq Hx0)
    as (sys & Hsys & Hsolve).
  cbv zeta in Hsolve. fold C in Hsolve.
  set (p := (bicgstab L sys (InFlow self) (kw_Pressures kw)).1) in *.
  set (AP := map (fun e => row_dot A e p) (seq 0 (nrows A))) in *.
  set (k := length (InnerConduits self)) in *.
  assert (Hp : length p = ncols A).
  { subst p. rewrite HL.
    destruct (system_matrix_rows _ _ _ [] 0%nat Hsys) as (_ & -> & _).
    reflexivity. }
  assert (HlenAP : length AP = length C)
    by (subst AP; rewrite length_map, length_seq; lia).
  assert (HlendP : length C = length (map Rabs AP))
    by (rewrite length_map; lia).
  eexists _, AP, _, _. split; [exact Hsolve|].
  cbn [conductivityfull IncidenceFull Pressures S dCdt].
  split; [reflexivity|]. split; [reflexivity|].
  split; [now apply matvec_val|].
  split; [reflexivity|]. split; [reflexivity|]. split; [assumption|].
  split; [now apply length_split_zip_with|].
  split; [now apply length_split_zip_with|].
  intros i c x Hc Hx.
  assert (HdPi : map Rabs AP !! i = Some (Rabs x)).
  { change (map Rabs AP) with (Rabs <$> AP).
    now rewrite list_lookup_fmap, Hx. }
  eexists _, _.
  split; [apply (lookup_split_zip_with _ _ _ _ _ _ _ _ Hc HdPi)|].
  split; [apply (lookup_split_zip_with _ _ _ _ _ _ _ _ Hc HdPi)|].
  destruct (i <? k)%nat.
  - now rewrite (dCdt_default_value L r_in b_in z_in q_in).
  - now rewrite (dCdt_default_value L r_out b_out z_out q_out).
Qed.

Let mixed : t :=
  two_nodes 1 (NInt 1) (-1) (dCdt_default demo_numerics)
    demo_in_params default_params.

Lemma feedback_outputs_aligned_witness :
  exists (sols : networksols) (AP Sv dv : vec),
    solvecolony demo_numerics false true no_kwargs mixed
    = (Val sols, mixed) /\
    conductivityfull sols = [1; 1; 1; 1]%R /\
    IncidenceFull sols = two_nodes_incidence /\
    matvec two_nodes_incidence (Pressures sols) = Val AP /\
    S sols = Some Sv /\ dCdt sols = Some dv /\
    length AP = 4%nat /\
    length Sv = 4%nat /\
    length dv = 4%nat /\
    forall (i : nat) (c x : R),
      [1; 1; 1; 1]%R !! i = Some c -> AP !! i = Some x ->
      exists s d : R,
        Sv !! i = Some s /\ dv !! i = Some d /\
        dCdt_default demo_numerics [c] [Rabs x]
          (if (i <? 2)%nat then demo_in_params else default_params)
        = Val ([d], [s]).
Proof.
  exact (feedback_outputs_aligned demo_numerics false no_kwargs mixed
           two_nodes_incidence 10 1 (33/100) (67/100) 0 0 0 (2/3)
           demo_in_params default_params direct_2x2_shaped
           eq_refl eq_refl eq_refl eq_refl eq_refl eq_refl eq_refl eq_refl
           eq_refl eq_refl eq_refl eq_refl eq_refl I).
Defined.

End Alignment.

(** ** Integration with a vanishing right-hand side *)

Section ZeroRightHandSide.
Import Colony.

Variable L : numerics.
Variable size : nat.
Variable f : R -> vec -> M vec.
Variable self : t.
Variable y0 : vec.

Hypothesis y0_size : length y0 = size.
Hypothesis f_zero :
  forall x : R, f x y0 self = (Val (repeat 0%R size), self).

Lemma rk_call_zero (x : R) :
  rk_call f x y0 self = (Val (repeat 0%R size), self).
Proof.
  unfold rk_call, bind. rewrite (f_zero x).
  rewrite repeat_length, y0_size, Nat.eqb_refl. reflexivity.
Qed.

Lemma zip_with_zero_step (y : vec) (c : R) :
  length y = size ->
  zip_with (fun yi ki => (yi + c * ki)%R) y (repeat 0%R size) = y.
Proof.
  generalize size. induction y as [|yi y IH]; intros k Hy.
  - now destruct k.
  - destruct k as [|k]; [discriminate|]. injection Hy as Hy.
    cbn [repeat zip_with]. rewrite (IH k Hy). f_equal. lra.
Qed.

(** The argument of every stage is the state itself. *)
Lemma rk_combine_zero (h : R) (a : list R) (ks : list vec) :
  List.Forall (eq (repeat 0%R size)) ks ->
  rk_combine y0 h a ks = y0.
Proof.
  intros Hks. unfold rk_combine. revert a.
  induction Hks as [|k ks <- Hks IH]; intros [|a0 a]; try reflexivity.
  cbn [zip_with fold_left fst snd].
  rewrite (zip_with_zero_step y0 (h * a0) y0_size). apply IH.
Qed.

Lemma rk_stages_zero (x : R) (h : R) (rows : list (R * list R))
  (ks : list vec) :
  List.Forall (eq (repeat 0%R size)) ks ->
  exists ks' : list vec,
    rk_stages f x y0 h rows ks self = (Val ks', self) /\
    List.Forall (eq (repeat 0%R size)) ks'.
Proof.
  revert ks.
  induction rows as [|[c a] rows IH]; intros ks Hks.
  - exists ks. split; [reflexivity|assumption].
  - cbn [rk_stages]. unfold bind.
    rewrite (rk_combine_zero h a ks Hks), rk_call_zero.
    apply IH. apply Forall_app. split; [assumption|].
    constructor; [reflexivity|constructor].
Qed.

Lemma rk_drive_zero (fuel : nat) (x : R) (h tend : R) :
  exists ok : bool,
    rk_drive L fuel f x y0 h tend self = (Val (y0, ok), self).
Proof.
  revert x h.
  induction fuel as [|fuel IH]; intros x h; cbn [rk_drive].
  - now exists false.
  - destruct (rk_plan L x h tend) as [h'|]; [|now exists true].
    unfold bind.
    destruct (rk_stages_zero x h' (rk_rows L) [] (List.Forall_nil _))
      as (ks & -> & Hks).
    rewrite (rk_combine_zero h' (rk_weights L) ks Hks).
    destruct (rk_judge L x h' y0 y0 ks); [apply IH|apply IH|now exists false].
Qed.

(** A right-hand side that vanishes at the initial state keeps the
    integration there, whatever the stepper does. *)
Lemma ode_integrate_zero (t0 tend : R) :
  ode_integrate L f y0 t0 tend self = (Val y0, self).
Proof.
  unfold ode_integrate, bind.
  rewrite (rk_call_zero t0).
  destruct (rk_drive_zero (rk_nsteps L) t0
              (rk_hinit L t0 y0 (repeat 0%R size) tend) tend)
    as (ok & ->).
  reflexivity.
Qed.

End ZeroRightHandSide.

(** ** Zero rate *)

Section ZeroRate.
Import Colony.

Variable L : numerics.
Hypothesis L_shaped : solver_shaped L.

Variables b_in z_in q_in b_out z_out q_out : R.
Variables pin pout : gmap string R.
Hypothesis pin_r : pin !! "r" = Some 0%R.
Hypothesis pin_b : pin !! "b" = Some b_in.
Hypothesis pin_z : pin !! "z" = Some z_in.
Hypothesis pin_q : pin !! "q" = Some q_in.
Hypothesis pout_r : pout !! "r" = Some 0%R.
Hypothesis pout_b : pout !! "b" = Some b_out.
Hypothesis pout_z : pout !! "z" = Some z_out.
Hypothesis pout_q : pout !! "q" = Some q_out.

Variable self : t.
Hypothesis self_shaped : shaped self.
Hypothesis self_inner :
  dCdt_inner self = Some (fun x y => dCdt_default L x y pin).
Hypothesis self_outer :
  dCdt_outer self = Some (fun x y => dCdt_default L x y pout).

Let C : vec := InnerConduits self ++ OutflowConduits self.

(** The reference solve made by [UpdateColony]. *)
Lemma reference_solve_val :
  exists (A : matrix) (p0 : vec),
    (extended_incidence self).1 = Val A /\
    length C = nrows A /\ length (InFlow self) = ncols A /\
    length p0 = ncols A /\
    solvecolony L false false no_kwargs self
    = (Val (mkSols p0 C A None None None), self).
Proof.
  destruct (extended_incidence_val self self_shaped)
    as (A & HA & HrA & HcA & _).
  destruct self_shaped as (_ & _ & Hout & Hq).
  assert (HC : length C = nrows A)
    by (subst C; rewrite length_app, HrA, Hout; reflexivity).
  destruct (system_matrix_val A C HC) as (sys & Hsys & Hr & Hc).
  exists A, (bicgstab L sys (InFlow self) None).1.
  rewrite HA. split; [reflexivity|]. split; [assumption|].
  split; [congruence|]. split; [rewrite L_shaped; congruence|].
  rewrite solvecolony_unfold. cbv zeta.
  cbn [no_kwargs kw_conductivityfull kw_IncidenceFull kw_Pressures].
  rewrite HA. cbn [fst res_bind]. fold C. rewrite Hsys. cbn [res_bind].
  rewrite (solve_pressures_val L sys (InFlow self) None)
    by (try exact I; congruence).
  reflexivity.
Qed.

Lemma zip_with_zero_rate (F G : R -> R -> R) (l l' : vec) :
  length l = length l' ->
  zip_with (fun c d => 0 * F c d * G c d)%R l l' = map (fun _ => 0%R) l.
Proof.
  revert l'. induction l as [|c l IH]; intros [|d l'] Hlen;
    try discriminate; [reflexivity|].
  injection Hlen as Hlen. cbn [zip_with map]. rewrite (IH l' Hlen).
  f_equal. lra.
Qed.

Lemma np_divide_zeros (len : nat) (b : vec) :
  length b = len ->
  List.Forall (fun x => x <> 0%R) b ->
  np_divide (repeat 0%R len) b = Val (repeat 0%R len).
Proof.
  intros Hlen Hb. unfold np_divide.
  rewrite broadcast_same_length by (now rewrite repeat_length).
  cbn [res_bind].
  replace (existsb _ b) with false.
  - cbn [andb]. f_equal. subst len. clear.
    induction b as [|x b IH]; [reflexivity|].
    cbn [length repeat zip_with]. rewrite IH. f_equal.
    unfold Rdiv. apply Rmult_0_l.
  - symmetry. apply Bool.not_true_is_false. intros H.
    apply existsb_exists in H as (x & Hin & Hx).
    rewrite List.Forall_forall in Hb. specialize (Hb x Hin).
    destruct (Req_dec_T x 0); [contradiction|discriminate].
Qed.

(** With a zero rate constant the right-hand side vanishes, where no
    conductance it is evaluated at is [0]. *)
Lemma dlnCdt_zero_rate (A : matrix) (p0 lnC : vec) (x : R) :
  (extended_incidence self).1 = Val A ->
  length C = nrows A -> length (InFlow self) = ncols A ->
  length p0 = ncols A -> length lnC = length C ->
  List.Forall (fun l => np_exp L l <> 0%R) lnC ->
  dlnCdt L (mkSols p0 C A None None None) x lnC self
  = (Val (repeat 0%R (length C)), self).
Proof.
  intros HA HC Hq Hp0 HlnC Hnz. unfold dlnCdt, rhs_solve, bind.
  cbn [IncidenceFull Pressures].
  destruct (solvecolony_val L L_shaped 0 b_in z_in q_in 0 b_out z_out q_out
              pin pout pin_r pin_b pin_z pin_q pout_r pout_b pout_z pout_q
              false (mkKwargs (Some (map (np_exp L) lnC)) (Some A) (Some p0))
              self A self_inner self_outer eq_refl)
    as (sys & _ & ->);
    cbn [kw_conductivityfull kw_Pressures];
    rewrite ?length_map; try congruence.
  cbn [dCdt].
  rewrite !zip_with_zero_rate
    by (rewrite ?length_firstn, ?length_skipn, !length_map, length_seq,
          <- ?HC, ?HlnC; reflexivity).
  rewrite <- map_app, firstn_skipn.
  unfold lift. f_equal.
  replace (map (fun _ : R => 0%R) (map (np_exp L) lnC))
    with (repeat 0%R (length C)).
  - apply np_divide_zeros; [now rewrite length_map|].
    apply Forall_map. exact Hnz.
  - rewrite <- HlnC. clear.
    induction lnC as [|l lnC IH]; [reflexivity|].
    cbn [map length repeat]. now rewrite IH.
Qed.

Lemma forallb_positive (l : vec) :
  List.Forall (fun c => (0 < c)%R) l -> forallb (Rltb 0) l = true.
Proof.
  intros H. apply forallb_forall. intros c Hc.
  rewrite List.Forall_forall in H. specialize (H c Hc).
  unfold Rltb. destruct (Rlt_dec 0 c); [reflexivity|contradiction].
Qed.

(** With a zero rate constant [UpdateColony] answers with the
    exponentials of the logarithms of the conductances. *)
Lemma UpdateColony_zero_rate_val (tmax : R) :
  List.Forall (fun c => (0 < c)%R) C ->
  List.Forall (fun c => np_exp L (np_log L c) <> 0%R) C ->
  UpdateColony L tmax self
  = (Val (map (fun c => np_exp L (np_log L c)) C), self).
Proof.
  intros Hpos Hnz.
  destruct reference_solve_val as (A & p0 & HA & HC & Hq & Hp0 & Href).
  unfold UpdateColony, bind. rewrite Href. cbn [conductivityfull].
  cbv zeta.
  rewrite (ode_integrate_zero L (length C)
             (dlnCdt L (mkSols p0 C A None None None)) self).
  - fold C. rewrite (forallb_positive C Hpos).
    unfold ret. now rewrite map_map.
  - apply length_map.
  - intros x. apply dlnCdt_zero_rate; try assumption.
    + apply length_map.
    + apply Forall_map. exact Hnz.
Qed.

End ZeroRate.

Section LogTransform.
Import Colony.

(** C3 (as amended). When the rate constant [r] is [0] in both parameter
    sets and every conductance is strictly positive, [UpdateColony]
    returns, for every time horizon, the conductance vector of the colony
    (internal conduits first, then outflow conduits) after a round trip
    through [np.log] and [np.exp]: entry by entry [exp(log(c))], which is
    the conductance [c] up to the rounding of the two routines, and [c]
    itself where the round trip is exact. *)
Theorem UpdateColony_zero_rate_fixed_point (L : numerics)
  (b_in z_in q_in b_out z_out q_out : R) (pin pout : gmap string R)
  (self : t) (tmax : R) :
  solver_shaped L ->
  pin !! "r" = Some 0%R -> pin !! "b" = Some b_in ->
  pin !! "z" = Some z_in -> pin !! "q" = Some q_in ->
  pout !! "r" = Some 0%R -> pout !! "b" = Some b_out ->
  pout !! "z" = Some z_out -> pout !! "q" = Some q_out ->
  shaped self ->
  dCdt_inner self = Some (fun x y => dCdt_default L x y pin) ->
  dCdt_outer self = Some (fun x y => dCdt_default L x y pout) ->
  List.Forall (fun c => (0 < c)%R /\ np_exp L (np_log L c) <> 0%R)
    (InnerConduits self ++ OutflowConduits self) ->
  UpdateColony L tmax self
  = (Val (map (fun c => np_exp L (np_log L c))
            (InnerConduits self ++ OutflowConduits self)), self) /\
  (List.Forall (fun c => np_exp L (np_log L c) = c)
     (InnerConduits self ++ OutflowConduits self) ->
   UpdateColony L tmax self
   = (Val (InnerConduits self ++ OutflowConduits self), self)).
Proof.
  intros HL Hr Hb Hz Hq Hr' Hb' Hz' Hq' Hshaped Hin Hout Hpos.
  assert (H : UpdateColony L tmax self
              = (Val (map (fun c => np_exp L (np_log L c))
                        (InnerConduits self ++ OutflowConduits self)),
                 self)).
  { apply (UpdateColony_zero_rate_val L HL b_in z_in q_in
             b_out z_out q_out pin pout); try assumption.
    - revert Hpos. apply List.Forall_impl. now intros c [Hc _].
    - revert Hpos. apply List.Forall_impl. now intros c [_ Hc]. }
  split; [exact H|].
  intros Hexact. rewrite H. do 2 f_equal.
  clear -Hexact.
  induction Hexact as [|c l Hc _ IH]; [reflexivity|].
  cbn [map]. now rewrite Hc, IH.
Qed.

Lemma two_nodes_shaped (ic : R) (oc : number) (q : R)
  (law : vec -> vec -> gmap string R -> res (vec * vec))
  (pin pout : gmap string R) :
  shaped (two_nodes ic oc q law pin pout).
Proof. repeat split. Qed.

Lemma UpdateColony_zero_rate_fixed_point_witness :
  UpdateColony demo_numerics 1
    (two_nodes 1 (NFloat (1/10)) (-1) (dCdt_default demo_numerics)
       default_params default_params)
  = (Val (map (fun c => exp (ln c)) [1; 1; 1/10; 1/10]%R),
     two_nodes 1 (NFloat (1/10)) (-1) (dCdt_default demo_numerics)
       default_params default_params) /\
  (List.Forall (fun c => exp (ln c) = c) [1; 1; 1/10; 1/10]%R ->
   UpdateColony demo_numerics 1
     (two_nodes 1 (NFloat (1/10)) (-1) (dCdt_default demo_numerics)
        default_params default_params)
   = (Val [1; 1; 1/10; 1/10]%R,
      two_nodes 1 (NFloat (1/10)) (-1) (dCdt_default demo_numerics)
        default_params default_params)).
Proof.
  apply (UpdateColony_zero_rate_fixed_point demo_numerics
           0 0 (2/3) 0 0 (2/3) default_params default_params);
    try reflexivity.
  - exact direct_2x2_shaped.
  - apply two_nodes_shaped.
  - repeat constructor; cbn; try lra; apply Rgt_not_eq, exp_pos.
Defined.

Lemma double_round_trip :
  map (fun c => double_exp (double_log c))
    [1; 1; double_tenth; double_tenth]%R
  = [1; 1; double_exp_log_tenth; double_exp_log_tenth]%R.
Proof.
  assert (H1 : double_exp (double_log 1) = 1%R).
  { unfold double_exp, double_log.
    destruct (Req_dec_T 1 1); [|contradiction].
    destruct (Req_dec_T 0 0); [reflexivity|contradiction]. }
  assert (H2 : double_exp (double_log double_tenth)
               = double_exp_log_tenth).
  { unfold double_exp, double_log.
    destruct (Req_dec_T double_tenth 1) as [E|_];
      [unfold double_tenth in E; lra|].
    destruct (Req_dec_T double_tenth double_tenth); [|contradiction].
    destruct (Req_dec_T double_log_tenth 0) as [E|_];
      [unfold double_log_tenth in E; lra|].
    destruct (Req_dec_T double_log_tenth double_log_tenth);
      [reflexivity|contradiction]. }
  cbn [map]. now rewrite H1, H2.
Qed.

(** C3, counterexample.  [Colony(nz=1, mz=1, OutflowConductivity=0.1)]
    with the default parameter sets ([r = 0]) has the conductance vector
    [[1, 1, 0.1, 0.1]]; in double precision [exp(log(0.1))] is
    [0.10000000000000002], one unit in the last place above [0.1], so
    [UpdateColony] returns [[1, 1, 0.10000000000000002,
    0.10000000000000002]] and not the original vector. *)
Lemma UpdateColony_round_trip_rounds :
  __init__ 1 1 1 (NFloat double_tenth) (-1)
    (dCdt_default rounding_numerics) default_params default_params
  = Val (two_nodes 1 (NFloat double_tenth) (-1)
           (dCdt_default rounding_numerics) default_params default_params) /\
  default_params !! "r" = Some 0%R /\
  InnerConduits (two_nodes 1 (NFloat double_tenth) (-1)
                   (dCdt_default rounding_numerics)
                   default_params default_params)
  ++ OutflowConduits (two_nodes 1 (NFloat double_tenth) (-1)
                        (dCdt_default rounding_numerics)
                        default_params default_params)
  = [1; 1; double_tenth; double_tenth]%R /\
  UpdateColony rounding_numerics 1
    (two_nodes 1 (NFloat double_tenth) (-1)
       (dCdt_default rounding_numerics) default_params default_params)
  = (Val [1; 1; double_exp_log_tenth; double_exp_log_tenth]%R,
     two_nodes 1 (NFloat double_tenth) (-1)
       (dCdt_default rounding_numerics) default_params default_params) /\
  (double_exp_log_tenth - double_tenth = 1 / 72057594037927936)%R /\
  [1; 1; double_exp_log_tenth; double_exp_log_tenth]%R
  <> [1; 1; double_tenth; double_tenth]%R.
Proof.
  split; [reflexivity|]. split; [reflexivity|]. split; [reflexivity|].
  split; [|split].
  - rewrite <- double_round_trip.
    apply (UpdateColony_zero_rate_val rounding_numerics
             direct_2x2_answers 0 0 (2/3) 0 0 (2/3)
             default_params default_params);
      try reflexivity.
    + apply two_nodes_shaped.
    + repeat constructor; cbn; unfold double_tenth; lra.
    + pose proof double_round_trip as H. cbn [map] in H.
      injection H as H1 _ H2 _.
      repeat constructor; cbn;
        change (np_exp rounding_numerics (np_log rounding_numerics ?c))
        with (double_exp (double_log c));
        rewrite ?H1, ?H2; unfold double_exp_log_tenth; lra.
  - unfold double_exp_log_tenth, double_tenth. lra.
  - intros [= H _]. unfold double_exp_log_tenth, double_tenth in H. lra.
Qed.

End LogTransform.

(** * Further properties of the code *)

(** ** The feedback law: errors, broadcasting and the sign of the rate *)

(** X1. With inputs of equal length, a parameter set that lacks one of the
    keys ["r"], ["b"], ["z"], ["q"] makes the feedback law raise
    [TypeError] as soon as there is a conduit to compute with (the
    docstring asks for ["r"], ["b"] and ["z"] only, but ["q"] is read as
    well); on empty arrays the missing key goes unnoticed and the law
    returns two empty arrays. *)
Theorem dCdt_default_missing_key (L : numerics) (Cs dPs : vec)
  (params : gmap string R) (key : string) :
  length Cs = length dPs ->
  In key ["r"; "b"; "z"; "q"] ->
  params !! key = None ->
  dCdt_default L Cs dPs params
  = match Cs with
    | [] => Val ([], [])
    | _ :: _ => Raise TypeError
    end.
Proof.
  intros Hlen Hkey Hnone. unfold dCdt_default, get_param.
  destruct Cs as [|c Cs].
  - destruct dPs; [|discriminate].
    destruct (params !! "z"), (params !! "b"), (params !! "q"),
      (params !! "r"); reflexivity.
  - destruct (params !! "z") as [z|] eqn:Hz; [|reflexivity].
    cbn [np_pow res_bind].
    destruct (params !! "b") as [b|] eqn:Hb; [|reflexivity].
    cbn [np_scale res_bind].
    rewrite broadcast_same_length by (now rewrite !length_map).
    cbn [res_bind].
    destruct (params !! "q") as [q|] eqn:Hq; [|reflexivity].
    cbn [res_bind].
    destruct (params !! "r") as [r|] eqn:Hr; [|reflexivity].
    exfalso. cbn [In] in Hkey.
    destruct Hkey as [<-|[<-|[<-|[<-|[]]]]]; congruence.
Qed.

Lemma dCdt_default_missing_key_witness :
  dCdt_default demo_numerics [1; 4]%R [2; 3]%R
    {[ "r" := 10%R; "b" := 1%R; "z" := (33/100)%R ]}
  = Raise TypeError.
Proof.
  apply (dCdt_default_missing_key demo_numerics [1; 4]%R [2; 3]%R
           {[ "r" := 10%R; "b" := 1%R; "z" := (33/100)%R ]} "q").
  - reflexivity.
  - cbn. auto.
  - reflexivity.
Defined.

(** X2. When the conductances and the pressure differences have different
    lengths and neither has length one, the feedback law raises
    [ValueError] (the arrays cannot be broadcast), provided ["b"] and
    ["z"] are there to compute with. *)
Theorem dCdt_default_length_mismatch (L : numerics) (Cs dPs : vec)
  (params : gmap string R) (b z : R) :
  params !! "b" = Some b -> params !! "z" = Some z ->
  length Cs <> length dPs -> length Cs <> 1%nat -> length dPs <> 1%nat ->
  dCdt_default L Cs dPs params = Raise ValueError.
Proof.
  intros Hb Hz Hne HC HdP. unfold dCdt_default, get_param.
  rewrite Hb, Hz. cbn [np_pow np_scale res_bind]. unfold broadcast.
  rewrite !length_map.
  destruct (Nat.eqb_spec (length Cs) (length dPs)) as [E|_];
    [contradiction|].
  destruct Cs as [|c0 [|c1 Cs]]; cbn [map]; cbn [length] in HC;
    try contradiction;
    destruct dPs as [|d0 [|d1 dPs]]; cbn [length] in HdP, Hne;
    try contradiction; reflexivity.
Qed.

Lemma dCdt_default_length_mismatch_witness :
  dCdt_default demo_numerics [1; 4]%R [2; 3; 5]%R demo_in_params
  = Raise ValueError.
Proof.
  apply (dCdt_default_length_mismatch demo_numerics [1; 4]%R [2; 3; 5]%R
           demo_in_params 1 (33/100)); try reflexivity; cbn; lia.
Defined.

(** X3. A single conductance is stretched over the pressure differences:
    with [Cs = [C]] the law answers, for every pressure difference [dP],
    [S = |b * C^z * dP|] and [dC/dt = r * C^q * (S - 1)]. *)
Theorem dCdt_default_single_conductance (L : numerics) (C : R) (dPs : vec)
  (params : gmap string R) (r b z q : R) :
  params !! "r" = Some r -> params !! "b" = Some b ->
  params !! "z" = Some z -> params !! "q" = Some q ->
  dCdt_default L [C] dPs params
  = Val (map (fun dP => r * np_power L C q
                        * (Rabs (b * np_power L C z * dP) - 1))%R dPs,
         map (fun dP => Rabs (b * np_power L C z * dP)) dPs).
Proof.
  intros Hr Hb Hz Hq.
  destruct (Nat.eq_dec (length dPs) 1) as [H1|H1].
  - rewrite (dCdt_default_value L r b z q) by (cbn; auto).
    destruct dPs as [|d [|d' dPs]]; try discriminate. reflexivity.
  - unfold dCdt_default, get_param. rewrite Hb, Hz, Hr, Hq.
    cbn [np_pow np_scale res_bind map].
    unfold broadcast at 1. cbn [length].
    destruct (Nat.eqb_spec 1 (length dPs)) as [E|_]; [congruence|].
    cbn [res_bind].
    unfold broadcast. rewrite !length_map. cbn [length].
    destruct (Nat.eqb_spec 1 (length dPs)) as [E|_]; [congruence|].
    cbn [res_bind]. rewrite !map_map. reflexivity.
Qed.

Lemma dCdt_default_single_conductance_witness :
  dCdt_default demo_numerics [4%R] [2; 3; 5]%R demo_in_params
  = Val (map (fun dP => 10 * Rpower 4 (67/100)
                        * (Rabs (1 * Rpower 4 (33/100) * dP) - 1))%R
           [2; 3; 5]%R,
         map (fun dP => Rabs (1 * Rpower 4 (33/100) * dP)) [2; 3; 5]%R).
Proof.
  apply (dCdt_default_single_conductance demo_numerics 4 [2; 3; 5]%R
           demo_in_params 10 1 (33/100) (67/100)); reflexivity.
Defined.

Lemma dCdt_default_nil (L : numerics) (dPs : vec)
  (params : gmap string R) (d s : vec) :
  dCdt_default L [] dPs params = Val (d, s) -> d = [] /\ s = [].
Proof.
  unfold dCdt_default, get_param.
  destruct (params !! "z"), (params !! "b"), (params !! "q"),
    (params !! "r"); cbn [np_pow np_scale res_bind map];
    (destruct dPs as [|y [|y' dPs]]; cbn; [| |discriminate]);
    now intros [= <- <-].
Qed.

(** X4. The fixed point of the law: a conduit whose shear-like quantity
    [S] is exactly [1] has rate [dC/dt = 0], whatever the rate constant
    [r] and the exponents are. *)
Theorem dCdt_default_fixed_point (L : numerics) (Cs dPs dCdt S : vec)
  (params : gmap string R) (i : nat) :
  length Cs = length dPs ->
  dCdt_default L Cs dPs params = Val (dCdt, S) ->
  S !! i = Some 1%R ->
  dCdt !! i = Some 0%R.
Proof.
  intros Hlen H HS.
  assert (Hne : Cs <> []).
  { intros ->. apply dCdt_default_nil in H as [_ ->]. discriminate. }
  destruct (dCdt_default_inv _ _ _ _ _ _ Hne H)
    as (r & b & z & q & Hr & Hb & Hz & Hq).
  rewrite (dCdt_default_value L r b z q) in H by assumption.
  injection H as <- <-.
  rewrite lookup_zip_with in HS. rewrite lookup_zip_with.
  destruct (Cs !! i) as [C|]; [|discriminate].
  destruct (dPs !! i) as [dP|]; [|discriminate].
  cbn in HS |- *. injection HS as ->. f_equal. lra.
Qed.

Lemma dCdt_default_fixed_point_witness :
  dCdt_default demo_numerics [1%R] [1%R]
    {[ "r" := 10%R; "b" := 1%R; "z" := 0%R; "q" := (2/3)%R ]}
  = Val ([(10 * Rpower 1 (2/3) * (Rabs (1 * Rpower 1 0 * 1) - 1))%R],
         [Rabs (1 * Rpower 1 0 * 1)]) /\
  [(10 * Rpower 1 (2/3) * (Rabs (1 * Rpower 1 0 * 1) - 1))%R] !! 0%nat
  = Some 0%R.
Proof.
  assert (H : dCdt_default demo_numerics [1%R] [1%R]
                {[ "r" := 10%R; "b" := 1%R; "z" := 0%R; "q" := (2/3)%R ]}
              = Val ([(10 * Rpower 1 (2/3)
                       * (Rabs (1 * Rpower 1 0 * 1) - 1))%R],
                     [Rabs (1 * Rpower 1 0 * 1)]))
    by reflexivity.
  split; [exact H|].
  apply (dCdt_default_fixed_point demo_numerics [1%R] [1%R] _ _ _ 0
           eq_refl H).
  cbn. f_equal. rewrite Rpower_O by lra.
  rewrite Rabs_right; lra.
Defined.

(** X5. High use grows a conduit and low use shrinks it: [S] is never
    negative, and when [r > 0] and [C^q > 0] the rate of a conduit is
    positive, zero or negative exactly as its [S] is above, at or below
    [1]. *)
Theorem dCdt_default_sign (L : numerics) (Cs dPs dCdt S : vec)
  (params : gmap string R) (r q : R) (i : nat) (C d s : R) :
  length Cs = length dPs ->
  dCdt_default L Cs dPs params = Val (dCdt, S) ->
  params !! "r" = Some r -> params !! "q" = Some q ->
  (0 < r)%R ->
  Cs !! i = Some C -> (0 < np_power L C q)%R ->
  dCdt !! i = Some d -> S !! i = Some s ->
  (0 <= s)%R /\
  ((0 < d)%R <-> (1 < s)%R) /\ (d = 0%R <-> s = 1%R) /\
  ((d < 0)%R <-> (s < 1)%R).
Proof.
  intros Hlen H Hr Hq Hrpos HC Hpow Hd Hs.
  assert (Hne : Cs <> []) by (intros ->; discriminate).
  destruct (dCdt_default_inv _ _ _ _ _ _ Hne H)
    as (r' & b & z & q' & Hr' & Hb & Hz & Hq').
  assert (r' = r) by congruence. assert (q' = q) by congruence.
  subst r' q'.
  rewrite (dCdt_default_value L r b z q) in H by assumption.
  injection H as <- <-.
  rewrite lookup_zip_with, HC in Hd, Hs.
  destruct (dPs !! i) as [dP|]; [|discriminate].
  cbn in Hd, Hs. injection Hd as <-. injection Hs as <-.
  set (s := Rabs (b * np_power L C z * dP)).
  set (p := np_power L C q) in *.
  assert (Hs0 : (0 <= s)%R) by apply Rabs_pos.
  assert (Hrp : (0 < r * p)%R) by now apply Rmult_lt_0_compat.
  repeat split; try assumption; intros; nra.
Qed.

Lemma dCdt_default_sign_witness :
  (0 <= Rabs (1 * Rpower 4 (33/100) * 3))%R /\
  ((0 < 10 * Rpower 4 (67/100) * (Rabs (1 * Rpower 4 (33/100) * 3) - 1))%R
   <-> (1 < Rabs (1 * Rpower 4 (33/100) * 3))%R) /\
  ((10 * Rpower 4 (67/100) * (Rabs (1 * Rpower 4 (33/100) * 3) - 1))%R
   = 0%R <-> Rabs (1 * Rpower 4 (33/100) * 3) = 1%R) /\
  ((10 * Rpower 4 (67/100) * (Rabs (1 * Rpower 4 (33/100) * 3) - 1) < 0)%R
   <-> (Rabs (1 * Rpower 4 (33/100) * 3) < 1)%R).
Proof.
  apply (dCdt_default_sign demo_numerics [1; 4]%R [2; 3]%R
           [(10 * Rpower 1 (67/100)
             * (Rabs (1 * Rpower 1 (33/100) * 2) - 1))%R;
            (10 * Rpower 4 (67/100)
             * (Rabs (1 * Rpower 4 (33/100) * 3) - 1))%R]
           [Rabs (1 * Rpower 1 (33/100) * 2);
            Rabs (1 * Rpower 4 (33/100) * 3)]
           demo_in_params 10 (67/100) 1 4); try reflexivity.
  - lra.
  - cbn. unfold Rpower. apply exp_pos.
Defined.

(** ** The constructor: what a constructed colony is made of *)

Section Constructed.
Import Colony.

(** The steps of [__init__] that produced a colony. *)
Lemma init_inv (nz mz : Z) (ic : R) (oc : number) (q : R)
  (law : vec -> vec -> gmap string R -> res (vec * vec))
  (pin pout : gmap string R) (c : t) :
  __init__ nz mz ic oc q law pin pout = Val c ->
  n c = (nz * 2)%Z /\ m c = mz /\
  internal_edges (nz * 2) mz = Val (rowinds c, colinds c) /\
  InnerConduits c = repeat ic (length (rowinds c)) /\
  OutflowConduits c
  = repeat (number_value oc) (Z.to_nat (mz * (nz * 2))) /\
  InFlow c = repeat q (Z.to_nat (mz * (nz * 2))) /\
  coo_matrix (repeat 1%R (length (rowinds c))) (rowinds c) (colinds c)
    ((mz * (nz * 2))%Z, (mz * (nz * 2))%Z) = Val (UpperAdjacency c) /\
  sparse_add (UpperAdjacency c) (transpose (UpperAdjacency c))
  = Val (Adjacency c) /\
  sparse_sub (Adjacency c) (diags (row_sums (Adjacency c)))
  = Val (Laplacian c) /\
  internal_incidence (rowinds c) (colinds c)
    (length (entries (UpperAdjacency c))) (nz * 2 * mz)
  = Val (Incidence c) /\
  dCdt_inner c = Some (fun x y => law x y pin) /\
  dCdt_outer c = Some (fun x y => law x y pout) /\
  OutflowConduits_dtype c = array_dtype oc (mz * (nz * 2)).
Proof.
  unfold __init__. cbv zeta. intros H.
  res_inv H as mn Hmn. res_inv H as edges Hedges.
  res_inv H as UA HUA. res_inv H as Adj HAdj. res_inv H as Lap HLap.
  res_inv H as Inc HInc. injection H as <-. cbn.
  destruct edges as [rows cols]. cbn in *.
  repeat split; assumption.
Qed.

Lemma dense_get_transpose (A : matrix) (i j : nat) :
  dense_get (transpose A) i j = dense_get A j i.
Proof.
  unfold dense_get, transpose. cbn [entries]. rewrite map_map.
  apply Rsum_ext. intros e. cbn [fst snd]. now rewrite andb_comm.
Qed.

Lemma dense_get_sparse_add (A B AB : matrix) (i j : nat) :
  sparse_add A B = Val AB ->
  dense_get AB i j = (dense_get A i j + dense_get B i j)%R.
Proof.
  unfold sparse_add. destruct (_ && _); [|discriminate].
  intros [= <-]. unfold dense_get. cbn [entries].
  now rewrite map_app, Rsum_app.
Qed.

(** X6. The adjacency matrix of a constructed colony is symmetric. *)
Theorem adjacency_symmetric (nz mz : Z) (ic : R) (oc : number) (q : R)
  (law : vec -> vec -> gmap string R -> res (vec * vec))
  (pin pout : gmap string R) (c : t) (i j : nat) :
  __init__ nz mz ic oc q law pin pout = Val c ->
  dense_get (Adjacency c) i j = dense_get (Adjacency c) j i.
Proof.
  intros H. apply init_inv in H.
  destruct H as (_ & _ & _ & _ & _ & _ & _ & HAdj & _).
  rewrite !(dense_get_sparse_add _ _ _ _ _ HAdj), !dense_get_transpose.
  lra.
Qed.

Lemma adjacency_symmetric_witness :
  dense_get (Adjacency (two_nodes 1 (NInt 1) (-1) (dCdt_default demo_numerics)
                          default_params default_params)) 0 1
  = dense_get (Adjacency (two_nodes 1 (NInt 1) (-1) (dCdt_default demo_numerics)
                            default_params default_params)) 1 0.
Proof.
  apply (adjacency_symmetric 1 1 1 (NInt 1) (-1) (dCdt_default demo_numerics)
           default_params default_params).
  reflexivity.
Defined.

Lemma row_sums_lookup (A : matrix) (i : nat) :
  (i < nrows A)%nat ->
  row_sums A !! i
  = Some (Rsum (map (fun e => if (e.1.1 =? i)%nat then e.2 else 0%R)
                  (entries A))).
Proof.
  intros Hi. unfold row_sums.
  change (map ?f (seq 0 (nrows A))) with (f <$> seq 0 (nrows A)).
  rewrite list_lookup_fmap, lookup_seq_lt by assumption. reflexivity.
Qed.

(** X7. In the Laplacian of a constructed colony (adjacency minus degree)
    the entries of every row add up to zero. *)
Theorem laplacian_rows_sum_to_zero (nz mz : Z) (ic : R) (oc : number) (q : R)
  (law : vec -> vec -> gmap string R -> res (vec * vec))
  (pin pout : gmap string R) (c : t) :
  __init__ nz mz ic oc q law pin pout = Val c ->
  row_sums (Laplacian c) = repeat 0%R (nrows (Laplacian c)).
Proof.
  intros H. apply init_inv in H.
  destruct H as (_ & _ & _ & _ & _ & _ & _ & _ & HLap & _).
  unfold sparse_sub, sparse_add in HLap.
  destruct (_ && _); [|discriminate]. injection HLap as <-.
  unfold row_sums at 1. cbn [nrows entries].
  set (A := Adjacency c).
  assert (G : forall k, (k < nrows A)%nat ->
            Rsum (map (fun e : nat * nat * R =>
                         if (e.1.1 =? k)%nat then e.2 else 0%R)
                    (entries A ++ entries (scale_entries (-1)
                                             (diags (row_sums A))))) = 0%R).
  { intros k Hk. rewrite map_app, Rsum_app.
    unfold scale_entries. cbn [entries]. rewrite map_map. cbn [fst snd].
    transitivity
      (Rsum (map (fun e : nat * nat * R =>
                    if (e.1.1 =? k)%nat then e.2 else 0%R) (entries A))
       + row_apply (diags (row_sums A)) k (fun _ => (-1)%R))%R.
    - f_equal. unfold row_apply. apply Rsum_ext. intros e.
      destruct (e.1.1 =? k)%nat; lra.
    - rewrite row_apply_diags, (row_sums_lookup A k Hk). lra. }
  assert (E : forall s len,
            (forall k, (s <= k < s + len)%nat ->
               Rsum (map (fun e : nat * nat * R =>
                            if (e.1.1 =? k)%nat then e.2 else 0%R)
                       (entries A ++ entries (scale_entries (-1)
                                                (diags (row_sums A)))))
               = 0%R) ->
            map (fun i => Rsum (map (fun e : nat * nat * R =>
                                       if (e.1.1 =? i)%nat then e.2
                                       else 0%R)
                                  (entries A ++
                                   entries (scale_entries (-1)
                                              (diags (row_sums A))))))
              (seq s len) = repeat 0%R len).
  { intros s len. revert s. induction len as [|len IH]; intros s Hs;
      [reflexivity|].
    cbn [seq map repeat]. rewrite Hs by lia. f_equal.
    apply IH. intros k Hk. apply Hs. lia. }
  apply E. intros k Hk. apply G. lia.
Qed.

Lemma laplacian_rows_sum_to_zero_witness :
  row_sums (Laplacian (two_nodes 1 (NInt 1) (-1) (dCdt_default demo_numerics)
                         default_params default_params))
  = repeat 0%R 2.
Proof.
  apply (laplacian_rows_sum_to_zero 1 1 1 (NInt 1) (-1)
           (dCdt_default demo_numerics) default_params default_params).
  reflexivity.
Defined.

End Constructed.

(** ** The lattice: how many conduits, and which way they point *)

Lemma drop_positions_app {A : Type} (bad : Z -> bool) (p : Z)
  (l k : list A) :
  drop_positions bad p (l ++ k)
  = drop_positions bad p l
    ++ drop_positions bad (p + Z.of_nat (length l)) k.
Proof.
  revert p. induction l as [|a l IH]; intros p.
  - cbn. now rewrite Z.add_0_r.
  - cbn [app drop_positions length]. rewrite IH.
    replace (p + 1 + Z.of_nat (length l))%Z
      with (p + Z.of_nat (Datatypes.S (length l)))%Z by lia.
    now destruct (bad p).
Qed.

Lemma drop_positions_none {A : Type} (bad : Z -> bool) (p : Z)
  (l : list A) :
  (forall k : nat, (k < length l)%nat -> bad (p + Z.of_nat k)%Z = false) ->
  drop_positions bad p l = l.
Proof.
  revert p. induction l as [|a l IH]; intros p Hbad; [reflexivity|].
  cbn [drop_positions].
  pose proof (Hbad 0%nat ltac:(cbn; lia)) as H0.
  rewrite Z.add_0_r in H0. rewrite H0. f_equal.
  apply IH. intros k Hk.
  replace (p + 1 + Z.of_nat k)%Z with (p + Z.of_nat (Datatypes.S k))%Z
    by lia.
  apply Hbad. cbn. lia.
Qed.

(** A run of [j] blocks of [size + 1] positions in which exactly the last
    position of every block is dropped keeps [j * size] items. *)
Lemma drop_positions_blocks {A : Type} (bad : Z -> bool) (size j : nat)
  (p : Z) (l : list A) :
  length l = (j * Datatypes.S size)%nat ->
  (forall b k : nat, (b < j)%nat -> (k < size)%nat ->
     bad (p + Z.of_nat (b * Datatypes.S size + k))%Z = false) ->
  (forall b : nat, (b < j)%nat ->
     bad (p + Z.of_nat (b * Datatypes.S size + size))%Z = true) ->
  length (drop_positions bad p l) = (j * size)%nat.
Proof.
  revert p l. induction j as [|j IH]; intros p l Hlen Hkeep Hdrop.
  - destruct l; [reflexivity|discriminate].
  - rewrite <- (firstn_skipn size l).
    assert (Hfirst : length (firstn size l) = size)
      by (rewrite length_firstn; nia).
    rewrite drop_positions_app, length_app, Hfirst.
    rewrite drop_positions_none; cycle 1.
    { intros k Hk. rewrite Hfirst in Hk.
      specialize (Hkeep 0%nat k ltac:(lia) Hk). now cbn in Hkeep. }
    rewrite Hfirst.
    destruct (skipn size l) as [|a rest] eqn:Hrest.
    { apply (f_equal (@length A)) in Hrest.
      rewrite length_skipn in Hrest. cbn in Hrest. nia. }
    cbn [drop_positions].
    specialize (Hdrop 0%nat ltac:(lia)) as Hd0. cbn in Hd0. rewrite Hd0.
    rewrite (IH (p + Z.of_nat size + 1)%Z rest).
    + lia.
    + apply (f_equal (@length A)) in Hrest.
      rewrite length_skipn in Hrest. cbn in Hrest. nia.
    + intros b k Hb Hk.
      specialize (Hkeep (Datatypes.S b) k ltac:(lia) Hk).
      rewrite <- Hkeep. f_equal. lia.
    + intros b Hb.
      specialize (Hdrop (Datatypes.S b) ltac:(lia)).
      rewrite <- Hdrop. f_equal. lia.
Qed.

Lemma arange_items_in (start stop step x : Z) :
  In x (arange_items start stop step) ->
  exists k : nat, x = (start + Z.of_nat k * step)%Z.
Proof.
  unfold arange_items. intros H. apply in_map_iff in H.
  destruct H as (k & <- & _). now exists k.
Qed.

Section LatticeEdges.

Variables w h : Z.
Hypothesis w_pos : (0 < w)%Z.
Hypothesis h_pos : (0 < h)%Z.

Let n : Z := (w * 2)%Z.
Let N : Z := (h * n)%Z.
Let bad : Z -> bool :=
  fun p => existsb (fun i => (i mod N =? p)%Z) (arange_items (n - 1) N n).

(** Inside the lattice, the dropped positions are the last of each row. *)
Lemma lattice_bad_spec (p : Z) :
  (0 <= p < N)%Z -> bad p = (p mod n =? n - 1)%Z.
Proof.
  intros Hp. subst bad. cbn beta.
  destruct (Z.eqb_spec (p mod n) (n - 1)) as [E|E].
  - apply existsb_exists. exists p. split; [|rewrite Z.mod_small; lia].
    pose proof (Z.div_mod p n ltac:(subst n; lia)) as Hdm.
    replace p with (n - 1 + Z.of_nat (Z.to_nat (p / n)) * n)%Z at 1.
    + apply arange_items_nth; [subst n; lia|].
      assert (0 <= p / n)%Z by (apply Z.div_pos; subst n; lia).
      rewrite Z2Nat.id by assumption. nia.
    + assert (0 <= p / n)%Z by (apply Z.div_pos; subst n; lia).
      rewrite Z2Nat.id by assumption. nia.
  - apply Bool.not_true_is_false. intros H. apply existsb_exists in H.
    destruct H as (i & Hin & Hi).
    pose proof (arange_items_bounds (n - 1) N n ltac:(subst n; lia)) as Hb.
    rewrite List.Forall_forall in Hb. specialize (Hb i Hin).
    apply arange_items_in in Hin. destruct Hin as (k & Hk).
    rewrite Z.mod_small in Hi by (subst n; lia).
    apply Z.eqb_eq in Hi. subst i. apply E. rewrite <- Hi.
    replace (n - 1 + Z.of_nat k * n)%Z with (n - 1 + Z.of_nat k * n)%Z
      by reflexivity.
    rewrite Z.mod_add by (subst n; lia).
    apply Z.mod_small. subst n; lia.
Qed.

Lemma lattice_kept_count {A : Type} (l : list A) :
  length l = Z.to_nat N ->
  length (drop_positions bad 0 l) = Z.to_nat (N - h).
Proof.
  intros Hlen.
  rewrite (drop_positions_blocks bad (Z.to_nat (n - 1)) (Z.to_nat h) 0 l).
  - subst N n. nia.
  - rewrite Hlen. subst N n. nia.
  - intros b k Hb Hk. rewrite lattice_bad_spec by (subst N n; nia).
    apply Z.eqb_neq. rewrite Z.add_0_l.
    replace (Z.of_nat (b * Datatypes.S (Z.to_nat (n - 1)) + k))
      with (Z.of_nat k + Z.of_nat b * n)%Z by (subst n; nia).
    rewrite Z.mod_add by (subst n; lia).
    rewrite Z.mod_small by (subst n; lia). subst n; lia.
  - intros b Hb. rewrite lattice_bad_spec by (subst N n; nia).
    apply Z.eqb_eq. rewrite Z.add_0_l.
    replace (Z.of_nat (b * Datatypes.S (Z.to_nat (n - 1))
                       + Z.to_nat (n - 1)))
      with (n - 1 + Z.of_nat b * n)%Z by (subst n; nia).
    rewrite Z.mod_add by (subst n; lia).
    apply Z.mod_small. subst n; lia.
Qed.

(** The index arrays that [internal_edges] builds on a lattice. *)
Lemma internal_edges_explicit :
  Colony.internal_edges n h
  = Val ((drop_positions bad 0 (arange_items 0 N 1)
          ++ arange_items 0 ((h - 1) * n + 1) n)
         ++ arange_items 1 ((h - 1) * n) 2,
         (drop_positions bad 0 (arange_items 1 (N + 1) 1)
          ++ arange_items (n - 1) N n)
         ++ arange_items n N 2).
Proof.
  unfold Colony.internal_edges. fold N.
  rewrite !arange_val by (subst n; lia). cbn [res_bind].
  pose proof (lattice_unit_range_length w h 0) as Hlen0.
  pose proof (lattice_unit_range_length w h 1) as Hlen1.
  rewrite Z.add_0_l in Hlen0. fold n N in Hlen0, Hlen1.
  replace (1 + N)%Z with (N + 1)%Z in Hlen1 by lia.
  rewrite !np_delete_val
    by (apply lattice_ends_in_range; try assumption;
        rewrite ?Hlen0, ?Hlen1; subst N n; lia).
  cbn [res_bind]. rewrite Hlen0, Hlen1.
  replace (Z.of_nat (Z.to_nat N)) with N by (subst N n; lia).
  reflexivity.
Qed.

Lemma lattice_edges_length (rows cols : list Z) :
  Colony.internal_edges n h = Val (rows, cols) ->
  length rows = Z.to_nat (3 * w * h - w) /\
  length cols = Z.to_nat (3 * w * h - w).
Proof.
  rewrite internal_edges_explicit. intros [= <- <-].
  pose proof (lattice_unit_range_length w h 0) as Hlen0.
  pose proof (lattice_unit_range_length w h 1) as Hlen1.
  rewrite Z.add_0_l in Hlen0. fold n N in Hlen0, Hlen1.
  replace (1 + N)%Z with (N + 1)%Z in Hlen1 by lia.
  rewrite !length_app, !lattice_kept_count by assumption.
  rewrite !arange_items_length.
  subst N n.
  rewrite lattice_row_ends_count, lattice_row_starts_count,
    lattice_odds_count, lattice_ahead_count by assumption.
  split; nia.
Qed.

Lemma drop_positions_Forall2 (P : Z -> Z -> Prop) (p : Z) (l k : list Z) :
  length l = length k ->
  (forall (i : nat) (x y : Z),
     nth_error l i = Some x -> nth_error k i = Some y ->
     bad (p + Z.of_nat i)%Z = false -> P x y) ->
  Forall2 P (drop_positions bad p l) (drop_positions bad p k).
Proof.
  revert p k. induction l as [|a l IH]; intros p [|b k] Hlen HP;
    try discriminate; [constructor|].
  cbn [drop_positions].
  assert (Hrest : Forall2 P (drop_positions bad (p + 1) l)
                    (drop_positions bad (p + 1) k)).
  { apply IH; [now injection Hlen|].
    intros i x y Hx Hy Hb. apply (HP (Datatypes.S i) x y Hx Hy).
    rewrite <- Hb. f_equal. lia. }
  destruct (bad p) eqn:Hp; [assumption|].
  constructor; [|assumption].
  apply (HP 0%nat a b eq_refl eq_refl). now rewrite Z.add_0_r.
Qed.

Lemma arange_items_Forall2 (P : Z -> Z -> Prop)
  (s1 e1 s2 e2 step : Z) :
  (- ((s1 - e1) / step) = - ((s2 - e2) / step))%Z ->
  (forall i : nat, (Z.of_nat i < - ((s1 - e1) / step))%Z ->
     P (s1 + Z.of_nat i * step)%Z (s2 + Z.of_nat i * step)%Z) ->
  Forall2 P (arange_items s1 e1 step) (arange_items s2 e2 step).
Proof.
  intros Hcount HP. unfold arange_items. rewrite <- Hcount.
  apply Forall2_fmap_2, Forall2_same_length_lookup_2; [reflexivity|].
  intros i x y Hx Hy.
  apply lookup_seq in Hx as [-> Hi], Hy as [-> _]. apply HP. lia.
Qed.

Lemma lattice_edges_oriented (rows cols : list Z) :
  Colony.internal_edges n h = Val (rows, cols) ->
  Forall2 (fun r c => (0 <= r < c)%Z /\ (c < N)%Z) rows cols.
Proof.
  rewrite internal_edges_explicit. intros [= <- <-].
  repeat apply Forall2_app.
  - apply drop_positions_Forall2.
    + pose proof (lattice_unit_range_length w h 0) as Hlen0.
      pose proof (lattice_unit_range_length w h 1) as Hlen1.
      rewrite Z.add_0_l in Hlen0. fold n N in Hlen0, Hlen1.
      replace (1 + N)%Z with (N + 1)%Z in Hlen1 by lia. congruence.
    + intros i x y Hx Hy Hb.
      apply arange_items_unit_nth in Hx as [-> Hx].
      apply arange_items_unit_nth in Hy as [-> Hy].
      rewrite lattice_bad_spec in Hb by lia.
      apply Z.eqb_neq in Hb.
      assert (Z.of_nat i <> N - 1)%Z; [|lia].
      intros E. apply Hb. rewrite Z.add_0_l, E.
      replace (N - 1)%Z with (n - 1 + (h - 1) * n)%Z by (subst N; lia).
      rewrite Z.mod_add by (subst n; lia).
      apply Z.mod_small. subst n; lia.
  - apply arange_items_Forall2.
    + subst N n.
      now rewrite lattice_row_ends_count, lattice_row_starts_count.
    + subst N n. rewrite lattice_row_starts_count by assumption.
      intros i Hi. nia.
  - apply arange_items_Forall2.
    + subst N n. now rewrite lattice_odds_count, lattice_ahead_count.
    + subst N n. rewrite lattice_odds_count. intros i Hi. nia.
Qed.

End LatticeEdges.

(** X8. A lattice of positive width [w] and height [h] has [3*w*h - w]
    internal conduits: [2*w*h - h] along the rows, [h] closing each row
    into a ring, and [(h-1)*w] reaching to the row ahead.  A constructed
    colony holds that many tails, heads, conductances and incidence rows. *)
Theorem lattice_conduit_count (w h : Z) (ic : R) (oc : number) (q : R)
  (law : vec -> vec -> gmap string R -> res (vec * vec))
  (pin pout : gmap string R) (c : Colony.t) :
  (0 < w)%Z -> (0 < h)%Z ->
  Colony.__init__ w h ic oc q law pin pout = Val c ->
  length (Colony.rowinds c) = Z.to_nat (3 * w * h - w) /\
  length (Colony.colinds c) = Z.to_nat (3 * w * h - w) /\
  length (Colony.InnerConduits c) = Z.to_nat (3 * w * h - w) /\
  nrows (Colony.Incidence c) = Z.to_nat (3 * w * h - w).
Proof.
  intros Hw Hh Hc.
  destruct (init_val w h ic oc q law pin pout Hw Hh)
    as (c' & Hc' & Hshaped & _).
  assert (c' = c) as -> by congruence.
  destruct (init_inv _ _ _ _ _ _ _ _ _ Hc)
    as (_ & _ & Hedges & Hinner & _).
  destruct (lattice_edges_length w h Hw Hh _ _ Hedges) as [Hr Hk].
  destruct Hshaped as (Hrows & _).
  rewrite Hrows, Hinner, repeat_length. auto.
Qed.

Lemma lattice_conduit_count_witness :
  length (Colony.rowinds
    (two_nodes 1 (NInt 1) (-1) (dCdt_default demo_numerics)
       default_params default_params)) = Z.to_nat (3 * 1 * 1 - 1) /\
  length (Colony.colinds
    (two_nodes 1 (NInt 1) (-1) (dCdt_default demo_numerics)
       default_params default_params)) = Z.to_nat (3 * 1 * 1 - 1) /\
  length (Colony.InnerConduits
    (two_nodes 1 (NInt 1) (-1) (dCdt_default demo_numerics)
       default_params default_params)) = Z.to_nat (3 * 1 * 1 - 1) /\
  nrows (Colony.Incidence
    (two_nodes 1 (NInt 1) (-1) (dCdt_default demo_numerics)
       default_params default_params)) = Z.to_nat (3 * 1 * 1 - 1).
Proof.
  apply (lattice_conduit_count 1 1 1 (NInt 1) (-1) (dCdt_default demo_numerics)
           default_params default_params); [lia|lia|].
  reflexivity.
Defined.

(** X9. Every internal conduit of a lattice of positive width and height
    runs from a node to a node with a larger number, both inside the
    lattice: the matrix of conduits that the constructor fills is strictly
    upper triangular and no conduit joins a node to itself. *)
Theorem lattice_conduits_point_upwards (w h : Z) (ic : R) (oc : number) (q : R)
  (law : vec -> vec -> gmap string R -> res (vec * vec))
  (pin pout : gmap string R) (c : Colony.t) :
  (0 < w)%Z -> (0 < h)%Z ->
  Colony.__init__ w h ic oc q law pin pout = Val c ->
  Forall2 (fun tail head => (0 <= tail < head)%Z /\ (head < 2 * w * h)%Z)
    (Colony.rowinds c) (Colony.colinds c).
Proof.
  intros Hw Hh Hc.
  destruct (init_inv _ _ _ _ _ _ _ _ _ Hc) as (_ & _ & Hedges & _).
  eapply Forall2_impl; [apply (lattice_edges_oriented w h Hw Hh _ _ Hedges)|].
  cbn. intros; lia.
Qed.

Lemma lattice_conduits_point_upwards_witness :
  Forall2 (fun tail head => (0 <= tail < head)%Z /\ (head < 2 * 1 * 1)%Z)
    (Colony.rowinds
    (two_nodes 1 (NInt 1) (-1) (dCdt_default demo_numerics)
       default_params default_params)) (Colony.colinds
    (two_nodes 1 (NInt 1) (-1) (dCdt_default demo_numerics)
       default_params default_params)).
Proof.
  apply (lattice_conduits_point_upwards 1 1 1 (NInt 1) (-1)
           (dCdt_default demo_numerics) default_params default_params);
    [lia|lia|].
  reflexivity.
Defined.

(** ** The incidence matrix: pressure drops along the conduits *)

Lemma coo_matrix_inv (data : list R) (row col : list Z) (shape : Z * Z)
  (M : matrix) :
  coo_matrix data row col shape = Val M ->
  length data = length row /\ length data = length col /\
  M = mkMatrix (Z.to_nat shape.1) (Z.to_nat shape.2)
        (zip_with (fun ij v => (Z.to_nat ij.1, Z.to_nat ij.2, v))
           (zip_with pair row col) data).
Proof.
  unfold coo_matrix.
  destruct (length data =? length row)%nat eqn:Hr; [|discriminate].
  destruct (length data =? length col)%nat eqn:Hc; [|discriminate].
  apply Nat.eqb_eq in Hr, Hc. cbn [andb].
  destruct (_ && _); [|discriminate].
  intros [= <-]. auto.
Qed.

Lemma sparse_add_inv (A B M : matrix) :
  sparse_add A B = Val M ->
  nrows M = nrows A /\ ncols M = ncols A /\
  entries M = entries A ++ entries B.
Proof.
  unfold sparse_add. destruct (_ && _); [|discriminate].
  intros [= <-]. auto.
Qed.

(** A list of triples whose row numbers count up from [s] has at most one
    triple in row [i]. *)
Lemma numbered_rows_sum (i : nat) (F : nat -> R) (cols : list Z)
  (data : vec) (s : nat) :
  length data = length cols ->
  Rsum (map (fun e : nat * nat * R =>
               if (e.1.1 =? i)%nat then (e.2 * F e.1.2)%R else 0%R)
          (zip_with (fun (ij : Z * Z) v => (Z.to_nat ij.1, Z.to_nat ij.2, v))
             (zip_with pair
                (map (fun k => (0 + Z.of_nat k * 1)%Z)
                   (seq s (length cols)))
                cols)
             data))
  = if (s <=? i)%nat
    then match cols !! (i - s)%nat, data !! (i - s)%nat with
         | Some j, Some v => (v * F (Z.to_nat j))%R
         | _, _ => 0%R
         end
    else 0%R.
Proof.
  revert data s. induction cols as [|c cols IH]; intros [|v data] s Hlen;
    try discriminate.
  - cbn. now destruct (s <=? i)%nat.
  - cbn [length seq map zip_with Rsum fold_right fst snd].
    fold (Rsum (map (fun e : nat * nat * R =>
               if (e.1.1 =? i)%nat then (e.2 * F e.1.2)%R else 0%R)
          (zip_with (fun (ij : Z * Z) v => (Z.to_nat ij.1, Z.to_nat ij.2, v))
             (zip_with pair
                (map (fun k => (0 + Z.of_nat k * 1)%Z)
                   (seq (Datatypes.S s) (length cols)))
                cols)
             data))).
    rewrite IH by (now injection Hlen).
    replace (Z.to_nat (0 + Z.of_nat s * 1)) with s by lia.
    destruct (Nat.eqb_spec s i) as [->|Hne].
    + rewrite Nat.leb_refl, Nat.sub_diag.
      replace (Datatypes.S i <=? i)%nat with false
        by (symmetry; apply Nat.leb_gt; lia).
      cbn. lra.
    + destruct (Nat.leb_spec s i) as [Hle|Hgt].
      * replace (Datatypes.S s <=? i)%nat with true
          by (symmetry; apply Nat.leb_le; lia).
        replace (i - s)%nat with (Datatypes.S (i - Datatypes.S s)) by lia.
        cbn. apply Rplus_0_l.
      * replace (Datatypes.S s <=? i)%nat with false
          by (symmetry; apply Nat.leb_gt; lia).
        lra.
Qed.

Lemma node_rows_sum (i k len : nat) (F : nat -> R) (r : nat) :
  Rsum (map (fun e : nat * nat * R =>
               if (e.1.1 =? r)%nat then (e.2 * F e.1.2)%R else 0%R)
          (map (fun j => ((k + j)%nat, j, (-1)%R)) (seq 0 len)))
  = if (k <=? r)%nat && (r - k <? len)%nat then (- F (r - k)%nat)%R
    else 0%R.
Proof.
  rewrite map_map. cbn [fst snd].
  assert (G : forall s,
    Rsum (map (fun j => if (k + j =? r)%nat then (-1 * F j)%R else 0%R)
            (seq s len))
    = if (k + s <=? r)%nat && (r - k <? s + len)%nat
      then (- F (r - k)%nat)%R else 0%R).
  { induction len as [|len IH]; intros s.
    - replace ((k + s <=? r)%nat && (r - k <? s + 0)%nat) with false;
        [reflexivity|].
      symmetry. apply Bool.not_true_is_false. intros H.
      apply andb_prop in H as [H1 H2].
      apply Nat.leb_le in H1. apply Nat.ltb_lt in H2. lia.
    - cbn [seq map Rsum fold_right].
      fold (Rsum (map (fun j => if (k + j =? r)%nat then (-1 * F j)%R
                                else 0%R) (seq (Datatypes.S s) len))).
      rewrite IH.
      destruct (Nat.eqb_spec (k + s) r) as [E|E].
      + replace (k + Datatypes.S s <=? r)%nat with false
          by (symmetry; apply Nat.leb_gt; lia).
        replace (k + s <=? r)%nat with true
          by (symmetry; apply Nat.leb_le; lia).
        replace (r - k <? s + Datatypes.S len)%nat with true
          by (symmetry; apply Nat.ltb_lt; lia).
        cbn. replace (r - k)%nat with s by lia. lra.
      + destruct (Nat.leb_spec (k + Datatypes.S s) r) as [Hle|Hgt].
        * replace (k + s <=? r)%nat with true
            by (symmetry; apply Nat.leb_le; lia).
          replace (s + Datatypes.S len)%nat
            with (Datatypes.S s + len)%nat by lia.
          apply Rplus_0_l.
        * replace (k + s <=? r)%nat with false
            by (symmetry; apply Nat.leb_gt; lia).
          cbn. lra. }
  rewrite G. now rewrite Nat.add_0_r.
Qed.

Lemma lookup_repeat {X : Type} (v : X) (len i : nat) :
  (i < len)%nat -> repeat v len !! i = Some v.
Proof.
  revert i. induction len as [|len IH]; intros [|i] Hi; try lia;
    [reflexivity|].
  cbn. apply IH. lia.
Qed.

Lemma lookup_repeat_same (v : R) (len i : nat) (j : Z) (l : list Z)
  (F : nat -> R) :
  length l = len ->
  match l !! i, repeat v len !! i with
  | Some j, Some v => (v * F (Z.to_nat j))%R
  | _, _ => 0%R
  end
  = match l !! i with
    | Some j => (v * F (Z.to_nat j))%R
    | None => 0%R
    end.
Proof.
  intros Hlen. destruct (l !! i) as [x|] eqn:Hx; [|reflexivity].
  apply lookup_lt_Some in Hx. now rewrite lookup_repeat by lia.
Qed.

Lemma internal_incidence_rows (rows cols : list Z) (nnz : nat) (nodes : Z)
  (inc : matrix) (e : nat) (F : nat -> R) :
  Colony.internal_incidence rows cols nnz nodes = Val inc ->
  row_apply inc e F
  = (match cols !! e with
     | Some head => F (Z.to_nat head)
     | None => 0
     end
     - match rows !! e with
       | Some tail => F (Z.to_nat tail)
       | None => 0
       end)%R.
Proof.
  unfold Colony.internal_incidence. rewrite !arange_val by lia.
  cbn [res_bind]. intros H.
  res_inv H as tails Htails. res_inv H as heads Hheads.
  apply coo_matrix_inv in Htails as (_ & _ & ->).
  apply coo_matrix_inv in Hheads as (_ & _ & ->).
  apply sparse_add_inv in H as (_ & _ & Hent).
  unfold row_apply. rewrite Hent. cbn [entries].
  rewrite map_app, Rsum_app. unfold arange_items.
  replace (Z.to_nat (- ((0 - Z.of_nat (length rows)) / 1)))
    with (length rows) by (rewrite Z.div_1_r; lia).
  replace (Z.to_nat (- ((0 - Z.of_nat (length cols)) / 1)))
    with (length cols) by (rewrite Z.div_1_r; lia).
  rewrite !numbered_rows_sum by (now rewrite repeat_length).
  cbn [Nat.leb]. rewrite Nat.sub_0_r.
  rewrite !(lookup_repeat_same _ _ _ 0%Z) by reflexivity.
  destruct (rows !! e), (cols !! e); lra.
Qed.

Lemma extended_incidence_rows (c : Colony.t) (A : matrix) (r : nat)
  (F : nat -> R) :
  (Colony.extended_incidence c).1 = Val A ->
  row_apply A r F
  = (row_apply (Colony.Incidence c) r F
     + (if (nrows (Colony.Incidence c) <=? r)%nat
           && (r - nrows (Colony.Incidence c)
               <? Z.to_nat (Colony.m c * Colony.n c))%nat
        then - F (r - nrows (Colony.Incidence c))%nat else 0))%R.
Proof.
  unfold Colony.extended_incidence, Colony.bind, Colony.gets, Colony.lift.
  cbn. unfold sparse_vstack.
  destruct (_ =? _)%nat; [|discriminate]. intros [= <-].
  unfold row_apply at 1. cbn [entries].
  rewrite map_app, Rsum_app. f_equal.
  unfold diags. cbn [entries nrows].
  rewrite imap_repeat, !map_map. cbn [fst snd].
  pose proof (node_rows_sum r (nrows (Colony.Incidence c))
                (Z.to_nat (Colony.m c * Colony.n c)) F r) as G.
  rewrite map_map in G. exact G.
Qed.

Lemma init_incidence_rows (nz mz : Z) (ic : R) (oc : number) (q : R)
  (law : vec -> vec -> gmap string R -> res (vec * vec))
  (pin pout : gmap string R) (c : Colony.t) :
  Colony.__init__ nz mz ic oc q law pin pout = Val c ->
  length (Colony.colinds c) = length (Colony.rowinds c) /\
  length (Colony.InnerConduits c) = length (Colony.rowinds c) /\
  nrows (Colony.Incidence c) = length (Colony.rowinds c).
Proof.
  intros Hc.
  destruct (init_inv _ _ _ _ _ _ _ _ _ Hc)
    as (_ & _ & _ & Hinner & _ & _ & HUA & _ & _ & Hinc & _).
  apply coo_matrix_inv in HUA as (Hr & Hk & HUA).
  rewrite repeat_length in Hr, Hk.
  split; [congruence|]. split; [now rewrite Hinner, repeat_length|].
  revert Hinc. unfold Colony.internal_incidence.
  rewrite !arange_val by lia. cbn [res_bind]. intros H.
  res_inv H as tails Htails. res_inv H as heads Hheads.
  apply coo_matrix_inv in Htails as (_ & _ & ->).
  apply sparse_add_inv in H as (-> & _ & _). cbn [nrows fst].
  rewrite Nat2Z.id, HUA. cbn [entries].
  rewrite !length_zip_with, repeat_length. lia.
Qed.

(** The solve of the two-node colony with unit conductances and unit
    suction at both nodes. *)
Lemma two_nodes_unit_solve :
  Colony.solvecolony demo_numerics true false Colony.no_kwargs
    (two_nodes 1 (NInt 1) (-1) (dCdt_default demo_numerics)
       default_params default_params)
  = (Val (Colony.mkSols [-1; -1]%R [1; 1; 1; 1]%R two_nodes_incidence
            (Some [0; 0; 1; 1]%R) None None),
     two_nodes 1 (NInt 1) (-1) (dCdt_default demo_numerics)
       default_params default_params).
Proof.
  rewrite solvecolony_unfold. f_equal. run.
  rewrite direct_2x2_regular; [|reflexivity|run; lra].
  run. f_equal. f_equal; repeat (f_equal; try lra; try (field; lra)).
Qed.

(** X10. Ohm's law, conduit by conduit.  On a colony as constructed,
    whatever outflow conductances have been stored since, the flows that
    [solvecolony] returns are: through internal conduit [e], its
    conductance times the pressure at its head [colinds[e]] minus the
    pressure at its tail [rowinds[e]]; through the outflow conduit of
    node [i], listed after the internal conduits, its conductance times
    minus the pressure at the node. *)
Theorem flows_obey_ohms_law (L : numerics) (calcdCdt : bool)
  (nz mz : Z) (ic : R) (oc : number) (q : R)
  (law : vec -> vec -> gmap string R -> res (vec * vec))
  (pin pout : gmap string R) (c0 c' : Colony.t) (out : vec)
  (sols : Colony.networksols) :
  Colony.__init__ nz mz ic oc q law pin pout = Val c0 ->
  Colony.solvecolony L true calcdCdt Colony.no_kwargs
    (Colony.set_OutflowConduits out c0) = (Val sols, c') ->
  exists f : vec,
    Colony.Flows sols = Some f /\
    (forall (e : nat) (tail head : Z),
       Colony.rowinds c0 !! e = Some tail ->
       Colony.colinds c0 !! e = Some head ->
       f !! e
       = Some (ic * (nth (Z.to_nat head) (Colony.Pressures sols) 0
                     - nth (Z.to_nat tail) (Colony.Pressures sols) 0))%R) /\
    (forall (i : nat) (Ci : R),
       out !! i = Some Ci ->
       f !! (length (Colony.rowinds c0) + i)%nat
       = Some (Ci * - nth i (Colony.Pressures sols) 0)%R).
Proof.
  intros Hc0 Hsolve.
  destruct (init_incidence_rows _ _ _ _ _ _ _ _ _ Hc0) as (Hk & Hin & Hrows).
  destruct (init_inv _ _ _ _ _ _ _ _ _ Hc0)
    as (Hn & Hm & _ & Hinner & _ & _ & _ & _ & _ & Hinc & _).
  apply solvecolony_inv in Hsolve
    as (_ & HC & HA & sys & _ & _ & (f & Hf & Hflows) & _).
  cbn [Colony.no_kwargs Colony.kw_conductivityfull Colony.kw_IncidenceFull
       Colony.set_OutflowConduits Colony.InnerConduits
       Colony.OutflowConduits] in HC, HA.
  apply edge_flows_value in Hf as [Hlen ->].
  exists (zip_with Rmult (Colony.conductivityfull sols)
            (map (fun e => row_dot (Colony.IncidenceFull sols) e
                             (Colony.Pressures sols))
               (seq 0 (nrows (Colony.IncidenceFull sols))))).
  split; [assumption|].
  assert (Hrow : forall r C,
    Colony.conductivityfull sols !! r = Some C ->
    zip_with Rmult (Colony.conductivityfull sols)
      (map (fun e => row_dot (Colony.IncidenceFull sols) e
                       (Colony.Pressures sols))
         (seq 0 (nrows (Colony.IncidenceFull sols)))) !! r
    = Some (C * row_dot (Colony.IncidenceFull sols) r
                  (Colony.Pressures sols))%R).
  { intros r C HCr. apply lookup_lt_Some in HCr as Hlt.
    rewrite lookup_zip_with, HCr. cbn.
    rewrite list_lookup_fmap, lookup_seq_lt by lia. reflexivity. }
  assert (Hdot : forall r,
    row_dot (Colony.IncidenceFull sols) r (Colony.Pressures sols)
    = (row_apply (Colony.Incidence c0) r
         (fun j => nth j (Colony.Pressures sols) 0)
       + (if (nrows (Colony.Incidence c0) <=? r)%nat
             && (r - nrows (Colony.Incidence c0)
                 <? Z.to_nat (Colony.m c0 * Colony.n c0))%nat
          then - nth (r - nrows (Colony.Incidence c0))
                   (Colony.Pressures sols) 0
          else 0))%R).
  { intros r. unfold row_dot.
    apply (extended_incidence_rows (Colony.set_OutflowConduits out c0)).
    exact HA. }
  split.
  - intros e tail head Ht Hh.
    apply lookup_lt_Some in Ht as Hlt.
    rewrite (Hrow e ic); cycle 1.
    { rewrite HC, lookup_app_l by lia.
      rewrite Hinner. apply lookup_repeat. lia. }
    rewrite Hdot, (internal_incidence_rows _ _ _ _ _ e _ Hinc), Ht, Hh.
    replace (nrows (Colony.Incidence c0) <=? e)%nat with false
      by (symmetry; apply Nat.leb_gt; lia).
    cbn [andb]. do 2 f_equal. lra.
  - intros i Ci Hi.
    apply lookup_lt_Some in Hi as Hlt.
    assert (Hnodes : length out = Z.to_nat (Colony.m c0 * Colony.n c0)).
    { revert HA. unfold Colony.extended_incidence, Colony.bind,
        Colony.gets, Colony.lift. cbn. unfold sparse_vstack.
      destruct (_ =? _)%nat; [|discriminate]. intros [= HA].
      rewrite <- HA, HC, length_app in Hlen. cbn [nrows diags] in Hlen.
      rewrite repeat_length in Hlen. lia. }
    rewrite (Hrow _ Ci); cycle 1.
    { rewrite HC, lookup_app_r by lia.
      now replace (length (Colony.rowinds c0) + i
                   - length (Colony.InnerConduits c0))%nat with i by lia. }
    rewrite Hdot, (internal_incidence_rows _ _ _ _ _ _ _ Hinc).
    rewrite !(lookup_ge_None_2 _ (length (Colony.rowinds c0) + i)) by lia.
    replace (nrows (Colony.Incidence c0)
             <=? length (Colony.rowinds c0) + i)%nat with true
      by (symmetry; apply Nat.leb_le; lia).
    replace (length (Colony.rowinds c0) + i
             - nrows (Colony.Incidence c0))%nat with i by lia.
    replace (i <? Z.to_nat (Colony.m c0 * Colony.n c0))%nat with true
      by (symmetry; apply Nat.ltb_lt; lia).
    cbn [andb]. do 2 f_equal. lra.
Qed.

Lemma flows_obey_ohms_law_witness :
  exists f : vec,
    Some [0; 0; 1; 1]%R = Some f /\
    (forall (e : nat) (tail head : Z),
       [0; 0]%Z !! e = Some tail ->
       [1; 1]%Z !! e = Some head ->
       f !! e
       = Some (1 * (nth (Z.to_nat head) [-1; -1] 0
                     - nth (Z.to_nat tail) [-1; -1] 0))%R) /\
    (forall (i : nat) (Ci : R),
       [1; 1]%R !! i = Some Ci ->
       f !! (2 + i)%nat = Some (Ci * - nth i [-1; -1] 0)%R).
Proof.
  exact (flows_obey_ohms_law demo_numerics false 1 1 1 (NInt 1) (-1)
           (dCdt_default demo_numerics) default_params default_params
           _ _ [1; 1]%R _ eq_refl two_nodes_unit_solve).
Defined.

(** ** Conservation of flow *)

Section Conservation.
Import Colony.

(** X11. Kirchhoff's current law.  When the pressures that [solvecolony]
    returns do solve the assembled system, the returned flows balance at
    every node: the transposed incidence matrix applied to the flows gives
    back the injections [InFlow]. *)
Theorem flows_balance_at_every_node (L : numerics) (calcdCdt : bool)
  (kw : kwargs) (self self' : t) (sols : networksols)
  (sys : matrix) (f : vec) :
  solvecolony L true calcdCdt kw self = (Val sols, self') ->
  system_matrix (IncidenceFull sols) (conductivityfull sols)
  = Val sys ->
  matvec sys (Pressures sols) = Val (InFlow self) ->
  Flows sols = Some f ->
  matvec (transpose (IncidenceFull sols)) f
  = Val (InFlow self).
Proof.
  intros Hsolve Hsys Hsolved Hflows.
  apply solvecolony_inv in Hsolve
    as (_ & _ & _ & sys' & _ & _ & (f' & Hf & Hflows') & _).
  assert (f' = f) as -> by congruence.
  apply edge_flows_value in Hf as [Hlen ->].
  apply matvec_rows in Hsolved as Hq.
  destruct (system_matrix_rows _ _ _ (Pressures sols) 0%nat Hsys)
    as (_ & Hr & _ & _).
  unfold matvec. cbn [ncols nrows transpose].
  rewrite length_zip_with, length_map, length_seq, Hlen, Nat.min_id,
    Nat.eqb_refl.
  f_equal. rewrite Hq, Hr. apply map_ext. intros i.
  destruct (system_matrix_rows _ _ _ (Pressures sols) i Hsys)
    as (_ & _ & _ & ->).
  reflexivity.
Qed.

Lemma flows_balance_at_every_node_witness :
  matvec (transpose two_nodes_incidence) [0; 0; 1; 1]%R = Val [-1; -1]%R.
Proof.
  eapply (flows_balance_at_every_node demo_numerics false _ _ _ _ _ _
            two_nodes_unit_solve).
  - run. reflexivity.
  - run. f_equal. repeat (f_equal; try lra).
  - reflexivity.
Defined.

End Conservation.

(** ** The outflow setter: what it stores and what it leaves alone *)

Section SetterStores.
Import Colony.

Lemma set_OutflowConduits_same (self : t) :
  set_OutflowConduits (OutflowConduits self) self = self.
Proof. now destruct self. Qed.

Lemma store_outflow_frame (idx value : pyval) (self : t) :
  let self' := (store_outflow idx value self).2 in
  self' = set_OutflowConduits (OutflowConduits self') self /\
  length (OutflowConduits self') = length (OutflowConduits self).
Proof.
  unfold store_outflow, bind, gets, lift, modify, raise.
  destruct idx as [i| | |]; cbn;
    try (now rewrite set_OutflowConduits_same).
  destruct (_ && _); cbn; [|now rewrite set_OutflowConduits_same].
  destruct (astype _ value) as [v|]; cbn;
    [|now rewrite set_OutflowConduits_same].
  split; [reflexivity|]. apply length_insert.
Qed.

Lemma store_all_frame (inds values : list pyval) (self : t) :
  let self' := (store_all inds values self).2 in
  self' = set_OutflowConduits (OutflowConduits self') self /\
  length (OutflowConduits self') = length (OutflowConduits self).
Proof.
  revert values self.
  induction inds as [|idx inds IH]; intros values self.
  - cbn. now rewrite set_OutflowConduits_same.
  - destruct values as [|value values];
      [cbn; now rewrite set_OutflowConduits_same|].
    cbn [store_all]. unfold bind.
    pose proof (store_outflow_frame idx value self) as Hone.
    destruct (store_outflow idx value self) as [[[]|e] self1];
      cbn [snd] in Hone |- *; [|exact Hone].
    specialize (IH values self1). cbn zeta in IH, Hone.
    destruct IH as [IH1 IH2]. destruct Hone as [H1 H2].
    split; [|congruence].
    rewrite IH1 at 1. rewrite H1. reflexivity.
Qed.

(** X12. Whatever its arguments and however it ends, the setter touches
    nothing but the array of outflow conductances, and that array keeps
    its length: the lattice, the internal conductances, the injections
    and the feedback laws of the colony are as before. *)
Theorem setouterconductivities_touches_outflow_only
  (nodeinds values : pyobj) (self : t) :
  let self' := (setouterconductivities nodeinds values self).2 in
  self' = set_OutflowConduits (OutflowConduits self') self /\
  length (OutflowConduits self') = length (OutflowConduits self).
Proof.
  cbn zeta.
  assert (Hsame : self = set_OutflowConduits (OutflowConduits self) self
                  /\ length (OutflowConduits self)
                     = length (OutflowConduits self))
    by (now rewrite set_OutflowConduits_same).
  unfold setouterconductivities, bind, gets, lift, ret.
  destruct values as [values|]; [|exact Hsame].
  destruct nodeinds as [inds|]; [|exact Hsame].
  destruct (negb _); [exact Hsame|].
  destruct (py_max inds) as [top|]; [|exact Hsame].
  destruct (py_gt top _) as [[|]|]; try exact Hsame.
  destruct (py_min inds) as [bottom|]; [|exact Hsame].
  destruct (py_lt bottom _) as [[|]|]; try exact Hsame.
  destruct (py_any _ inds) as [[|]|]; try exact Hsame.
  destruct (py_any _ values) as [[|]|]; try exact Hsame.
  pose proof (store_all_frame inds values self) as Hall.
  destruct (store_all inds values self) as [[[]|e] self1]; exact Hall.
Qed.

Lemma py_best_gt_ints_val (best : Z) (inds : list Z) :
  py_best py_gt (PInt best) (map PInt inds)
  = Val (PInt (fold_left Z.max inds best)).
Proof.
  revert best. induction inds as [|i inds IH]; intros best; [reflexivity|].
  cbn [map py_best py_gt py_lt res_bind fold_left].
  destruct (Z.ltb_spec best i); rewrite IH; do 3 f_equal; lia.
Qed.

Lemma py_best_lt_ints_val (best : Z) (inds : list Z) :
  py_best py_lt (PInt best) (map PInt inds)
  = Val (PInt (fold_left Z.min inds best)).
Proof.
  revert best. induction inds as [|i inds IH]; intros best; [reflexivity|].
  cbn [map py_best py_lt res_bind fold_left].
  destruct (Z.ltb_spec i best); rewrite IH; do 3 f_equal; lia.
Qed.

Lemma fold_max_bounds (lo hi : Z) (inds : list Z) (best : Z) :
  (lo <= best < hi)%Z ->
  List.Forall (fun i => (lo <= i < hi)%Z) inds ->
  (lo <= fold_left Z.max inds best < hi)%Z /\
  (lo <= fold_left Z.min inds best < hi)%Z.
Proof.
  intros Hbest Hall. revert best Hbest.
  induction Hall as [|i inds Hi _ IH]; intros best Hbest; [cbn; lia|].
  cbn [fold_left]. split; apply IH; lia.
Qed.

Lemma py_any_ints (inds : list Z) :
  py_any (fun item => Val (negb (is_int item))) (map PInt inds) = Val false.
Proof. induction inds as [|i inds IH]; [reflexivity|exact IH]. Qed.

Lemma py_any_nonnegative (values : list pyval) (xs : vec) :
  Forall2 (fun v x => to_float v = Val x /\ (0 <= x)%R) values xs ->
  py_any (fun item => c <~ py_lt item (PInt 0) ;;
                      Val (c && is_int_or_float item)) values
  = Val false.
Proof.
  induction 1 as [|v x values xs [Hv Hx] _ IH]; [reflexivity|].
  cbn [py_any].
  destruct v as [i|y| |]; try discriminate; injection Hv as <-;
    cbn [py_lt res_bind is_int_or_float].
  - replace (i <? 0)%Z with false; [exact IH|].
    symmetry. apply Z.ltb_ge. now apply le_IZR.
  - unfold Rltb. destruct (Rlt_dec y (IZR 0)); [lra|exact IH].
Qed.

Lemma Int_part_IZR (i : Z) : Int_part (IZR i) = i.
Proof.
  unfold Int_part. rewrite <- (up_tech (IZR i) i).
  - lia.
  - lra.
  - rewrite plus_IZR. lra.
Qed.

Lemma truncate_IZR (i : Z) : truncate (IZR i) = i.
Proof.
  unfold truncate. destruct (Rle_dec 0 (IZR i)).
  - apply Int_part_IZR.
  - rewrite <- opp_IZR, Int_part_IZR. lia.
Qed.

Lemma truncate_bounds (x : R) :
  (0 <= x <= 2 ^ 53)%R -> (0 <= truncate x <= 2 ^ 53)%Z.
Proof.
  intros [H0 H1]. unfold truncate. destruct (Rle_dec 0 x) as [_|H]; [|lra].
  destruct (base_Int_part x) as [Hle Hgt]. split.
  - apply Z.lt_succ_r, lt_IZR. rewrite succ_IZR. lra.
  - apply le_IZR. change (2 ^ 53)%Z with 9007199254740992%Z. lra.
Qed.

(** What the array makes of a number stored into it. *)
Lemma astype_number (d : dtype) (v : pyval) (x : R) :
  to_float v = Val x -> (0 <= x <= 2 ^ 53)%R -> d <> wide ->
  astype d v = Val (stored_as d x).
Proof.
  intros Hv Hx Hd. pose proof (truncate_bounds x Hx) as Ht.
  destruct v as [i|y| |]; try discriminate; injection Hv as <-;
    destruct d; try contradiction; cbn [astype stored_as];
    try reflexivity.
  - rewrite truncate_IZR in *. unfold in_int64.
    replace ((- 2 ^ 63 <=? i)%Z && (i <? 2 ^ 63)%Z) with true by lia.
    reflexivity.
  - rewrite truncate_IZR in Ht.
    replace (Z.abs i <=? 2 ^ 53)%Z with true by lia. reflexivity.
  - unfold in_int64.
    replace ((- 2 ^ 63 <=? truncate y)%Z && (truncate y <? 2 ^ 63)%Z)
      with true by lia.
    reflexivity.
Qed.

Lemma store_all_val (inds : list Z) (values : list pyval) (stored : vec)
  (self : t) :
  List.Forall
    (fun i => (0 <= i < Z.of_nat (length (OutflowConduits self)))%Z) inds ->
  Forall2 (fun v s => astype (OutflowConduits_dtype self) v = Val s)
    values stored ->
  length values = length inds ->
  store_all (map PInt inds) values self
  = (Val tt,
     set_OutflowConduits
       (fold_left (fun out (ix : Z * R) => <[Z.to_nat ix.1 := ix.2]> out)
          (zip inds stored) (OutflowConduits self))
       self).
Proof.
  intros Hinds Hvals. revert inds stored self Hinds Hvals.
  induction values as [|v values IH];
    intros [|i inds] stored self Hinds Hvals Hlen; try discriminate.
  - inversion Hvals; subst. cbn. now rewrite set_OutflowConduits_same.
  - inversion Hvals as [|? s ? stored' Hv Hrest' ]; subst.
    inversion Hinds as [|? ? Hi Hrest]; subst.
    cbn [map store_all zip zip_with fold_left fst snd].
    unfold bind at 1. unfold store_outflow, bind, gets, lift, modify.
    replace ((- Z.of_nat (length (OutflowConduits self)) <=? i)%Z
             && (i <? Z.of_nat (length (OutflowConduits self)))%Z)
      with true by lia.
    rewrite Hv.
    rewrite Z.mod_small by lia.
    rewrite (IH inds stored');
      cbn [OutflowConduits OutflowConduits_dtype set_OutflowConduits];
      [reflexivity| |assumption|now injection Hlen].
    rewrite length_insert. exact Hrest.
Qed.

Lemma fold_insert_other (l : list (Z * R)) (out : vec) (j : nat) :
  (forall ix, In ix l -> Z.to_nat ix.1 <> j) ->
  fold_left (fun out (ix : Z * R) => <[Z.to_nat ix.1 := ix.2]> out) l out
    !! j
  = out !! j.
Proof.
  revert out. induction l as [|ix l IH]; intros out Hl; [reflexivity|].
  cbn [fold_left]. rewrite IH by (intros; apply Hl; now right).
  apply list_lookup_insert_ne. apply Hl. now left.
Qed.

Lemma fold_insert_last (l : list (Z * R)) (out : vec) (k : nat) (i : Z)
  (x : R) :
  l !! k = Some (i, x) ->
  (Z.to_nat i < length out)%nat ->
  (forall k' ix, (k < k')%nat -> l !! k' = Some ix ->
     Z.to_nat ix.1 <> Z.to_nat i) ->
  fold_left (fun out (ix : Z * R) => <[Z.to_nat ix.1 := ix.2]> out) l out
    !! Z.to_nat i
  = Some x.
Proof.
  revert out k. induction l as [|iy l IH]; intros out k Hk Hlen Hlater;
    [discriminate|].
  cbn [fold_left]. destruct k as [|k].
  - injection Hk as ->. cbn [fst snd].
    rewrite fold_insert_other.
    + now apply list_lookup_insert_eq.
    + intros ix Hin. apply list_elem_of_In, list_elem_of_lookup in Hin.
      destruct Hin as [k' Hk'].
      apply (Hlater (Datatypes.S k') ix); [lia|exact Hk'].
  - apply (IH _ k); [exact Hk|now rewrite length_insert|].
    intros k' ix Hlt Hk'.
    apply (Hlater (Datatypes.S k') ix); [lia|exact Hk'].
Qed.

Lemma truncate_half : truncate (1 / 2) = 0%Z.
Proof.
  unfold truncate. destruct (Rle_dec 0 (1 / 2)) as [_|H]; [|lra].
  unfold Int_part. rewrite <- (up_tech (1 / 2) 0); [reflexivity|lra|].
  change (IZR (0 + 1)) with 1%R. lra.
Qed.

(** [Colony(nz=1, mz=1)] holds its outflow conductances as integers:
    storing [0.5] at node [0] leaves [0] there. *)
Lemma store_half_in_int_array :
  store_outflow (PInt 0) (PFloat (1 / 2))
    (two_nodes 1 (NInt 1) (-1) (dCdt_default demo_numerics)
       default_params default_params)
  = (Val tt,
     set_OutflowConduits [0; 1]%R
       (two_nodes 1 (NInt 1) (-1) (dCdt_default demo_numerics)
          default_params default_params)).
Proof.
  unfold store_outflow, bind, gets, lift, modify.
  cbn [two_nodes OutflowConduits OutflowConduits_dtype length].
  change (number_dtype (NInt 1)) with int64.
  cbn [astype]. rewrite truncate_half. reflexivity.
Qed.

(** X13. A call that meets the documented conditions succeeds and stores
    its values in order.  With a non-empty list of integer node numbers,
    each at least [0] and below [m*n], and as many numbers (integers or
    floats) from [0] to [2^53], the setter answers [Done] and leaves
    the outflow conductances obtained by assigning, one after the other,
    what the array makes of the values: the numbers themselves when it is
    an array of floats, their integer parts when it is an array of
    64-bit integers (as it is when the colony was constructed with an
    integer [OutflowConductivity], the default).  A node that is not
    listed keeps its conductance, a listed node gets what was stored at
    its last mention; the rest of the colony is as before. *)
Theorem setouterconductivities_stores_in_order (inds : list Z)
  (values : list pyval) (xs : vec) (self : t) :
  inds <> [] ->
  List.Forall (fun i => (0 <= i < m self * n self)%Z) inds ->
  Z.of_nat (length (OutflowConduits self)) = (m self * n self)%Z ->
  Forall2 (fun v x => to_float v = Val x /\ (0 <= x <= 2 ^ 53)%R)
    values xs ->
  length values = length inds ->
  OutflowConduits_dtype self <> wide ->
  let stored := map (stored_as (OutflowConduits_dtype self)) xs in
  exists out : vec,
    setouterconductivities (PList (map PInt inds)) (PList values) self
    = (Val Done, set_OutflowConduits out self) /\
    out
    = fold_left (fun out (ix : Z * R) => <[Z.to_nat ix.1 := ix.2]> out)
        (zip inds stored) (OutflowConduits self) /\
    (forall j : nat,
       (forall i, In i inds -> Z.to_nat i <> j) ->
       out !! j = OutflowConduits self !! j) /\
    (forall (k : nat) (i : Z) (s : R),
       inds !! k = Some i -> stored !! k = Some s ->
       (forall k', (k < k')%nat -> inds !! k' <> Some i) ->
       out !! Z.to_nat i = Some s).
Proof.
  intros Hne Hinds Hshape Hvals Hlen Hkind stored.
  assert (Hstored :
    Forall2 (fun v s => astype (OutflowConduits_dtype self) v = Val s)
      values stored).
  { subst stored. clear -Hvals Hkind.
    induction Hvals as [|v x values xs [Hv Hx] _ IH]; cbn [map];
      constructor; [|exact IH].
    now apply astype_number. }
  eexists. split; [|split; [reflexivity|split]].
  - unfold setouterconductivities, bind, gets, lift, ret.
    rewrite length_map, Hlen, Nat.eqb_refl. cbn [negb].
    destruct inds as [|first rest]; [contradiction|].
    inversion Hinds as [|? ? Hfirst Hrest]; subst.
    destruct (fold_max_bounds 0 (m self * n self) rest first Hfirst Hrest)
      as [Hmax Hmin].
    cbn [map py_max py_min].
    rewrite py_best_gt_ints_val. cbn [py_gt py_lt].
    replace (m self * n self <? fold_left Z.max rest first)%Z with false
      by lia.
    rewrite py_best_lt_ints_val. cbn [py_lt].
    replace (fold_left Z.min rest first <? 0)%Z with false by lia.
    change (PInt first :: map PInt rest) with (map PInt (first :: rest)).
    rewrite (py_any_ints (first :: rest)).
    rewrite (py_any_nonnegative values xs);
      [|eapply Forall2_impl; [exact Hvals|]; cbn; intros ? ? [? [? _]];
        now split].
    rewrite (store_all_val (first :: rest) values stored self);
      [reflexivity| |assumption|assumption].
    rewrite Hshape. assumption.
  - intros j Hj. apply fold_insert_other. intros [i x] Hin.
    apply list_elem_of_In, elem_of_lookup_zip_with_1 in Hin.
    destruct Hin as (k & i' & x' & [= <- <-] & Hi & _). cbn.
    apply Hj. now apply list_elem_of_lookup_2, list_elem_of_In in Hi.
  - intros k i x Hi Hx Hlast.
    apply (fold_insert_last _ _ k).
    + now apply lookup_zip_Some.
    + rewrite List.Forall_forall in Hinds.
      apply list_elem_of_lookup_2, list_elem_of_In, Hinds in Hi. lia.
    + intros k' [i' x'] Hlt Hk'. cbn [fst]. unfold zip in Hk'.
      apply lookup_zip_with_Some in Hk'.
      destruct Hk' as (i'' & x'' & [= <- <-] & Hi' & _).
      intros E. apply (Hlast k' Hlt). rewrite Hi'. f_equal.
      rewrite List.Forall_forall in Hinds.
      apply list_elem_of_lookup_2, list_elem_of_In, Hinds in Hi, Hi'. lia.
Qed.

Lemma setouterconductivities_stores_in_order_witness :
  exists out : vec,
    setouterconductivities (PList (map PInt [1; 0; 1]%Z))
      (PList [PInt 3; PFloat (1 / 2); PFloat 4])
      (two_nodes 1 (NInt 1) (-1) (dCdt_default demo_numerics)
         default_params default_params)
    = (Val Done,
       set_OutflowConduits out
         (two_nodes 1 (NInt 1) (-1) (dCdt_default demo_numerics)
            default_params default_params)) /\
    out
    = fold_left (fun out (ix : Z * R) => <[Z.to_nat ix.1 := ix.2]> out)
        (zip [1; 0; 1]%Z (map (stored_as int64) [3; 1 / 2; 4]%R))
        [1; 1]%R /\
    (forall j : nat,
       (forall i, In i [1; 0; 1]%Z -> Z.to_nat i <> j) ->
       out !! j = [1; 1]%R !! j) /\
    (forall (k : nat) (i : Z) (s : R),
       [1; 0; 1]%Z !! k = Some i ->
       map (stored_as int64) [3; 1 / 2; 4]%R !! k = Some s ->
       (forall k', (k < k')%nat -> [1; 0; 1]%Z !! k' <> Some i) ->
       out !! Z.to_nat i = Some s).
Proof.
  apply (setouterconductivities_stores_in_order [1; 0; 1]%Z
           [PInt 3; PFloat (1 / 2); PFloat 4] [3; 1 / 2; 4]%R
           (two_nodes 1 (NInt 1) (-1) (dCdt_default demo_numerics)
              default_params default_params)).
  - discriminate.
  - repeat constructor; cbn; lia.
  - reflexivity.
  - repeat constructor; lra.
  - reflexivity.
  - discriminate.
Defined.

Lemma fold_max_min_reach (inds : list Z) (best i : Z) :
  In i (best :: inds) ->
  (fold_left Z.min inds best <= i <= fold_left Z.max inds best)%Z.
Proof.
  revert best i. induction inds as [|j inds IH]; intros best i Hin.
  - destruct Hin as [->|[]]. cbn. lia.
  - cbn [fold_left].
    pose proof (IH (Z.min best j) (Z.min best j) (or_introl eq_refl)).
    pose proof (IH (Z.max best j) (Z.max best j) (or_introl eq_refl)).
    destruct Hin as [->|[->|Hin]]; try lia.
    pose proof (IH (Z.min best j) i (or_intror Hin)).
    pose proof (IH (Z.max best j) i (or_intror Hin)).
    lia.
Qed.

Lemma fold_max_upper (bound : Z) (inds : list Z) (best : Z) :
  List.Forall (fun i => (i <= bound)%Z) (best :: inds) ->
  (fold_left Z.max inds best <= bound)%Z.
Proof.
  revert best. induction inds as [|j inds IH]; intros best Hall.
  - now inversion Hall.
  - cbn [fold_left]. apply IH.
    inversion Hall as [|? ? Hb Hrest]; subst.
    inversion Hrest as [|? ? Hj Hrest']; subst.
    constructor; [lia|assumption].
Qed.

(** X14. An integer node number outside the lattice is reported, and
    nothing is stored.  With integer node numbers and as many values, a
    node number above [m*n] makes the setter print that an index is
    [>m*n]; otherwise a node number below [0] makes it print that an index
    is [<0]; either way the colony is as before. *)
Theorem setouterconductivities_reports_index_range (inds : list Z)
  (values : list pyval) (self : t) :
  length values = length inds ->
  (exists i : Z, In i inds /\ (i < 0 \/ m self * n self < i)%Z) ->
  setouterconductivities (PList (map PInt inds)) (PList values) self
  = (Val (NoAction
            (if existsb (fun i => (m self * n self <? i)%Z) inds
             then "At least one node index is >m*n. No action taken."
             else "At least one node index is <0. No action taken.")),
     self).
Proof.
  intros Hlen (i & Hin & Hi).
  unfold setouterconductivities, bind, gets, lift, ret.
  rewrite length_map, Hlen, Nat.eqb_refl. cbn [negb].
  destruct inds as [|first rest]; [contradiction|].
  cbn [map py_max py_min].
  rewrite py_best_gt_ints_val. cbn [py_gt py_lt].
  destruct (existsb _ (first :: rest)) eqn:Hover.
  - apply existsb_exists in Hover as (j & Hj & Hover).
    apply (fold_max_min_reach rest first j) in Hj.
    replace (m self * n self <? fold_left Z.max rest first)%Z with true
      by lia.
    reflexivity.
  - assert (Hall : List.Forall (fun j => (j <= m self * n self)%Z)
                     (first :: rest)).
    { apply List.Forall_forall. intros j Hj.
      destruct (Z.leb_spec j (m self * n self)) as [Hle|Hgt];
        [assumption|].
      assert (existsb (fun i => (m self * n self <? i)%Z) (first :: rest)
              = true); [|congruence].
      apply existsb_exists. exists j. split; [assumption|lia]. }
    apply fold_max_upper in Hall as Hmax.
    replace (m self * n self <? fold_left Z.max rest first)%Z with false
      by lia.
    rewrite py_best_lt_ints_val. cbn [py_lt].
    rewrite List.Forall_forall in Hall. specialize (Hall i Hin).
    apply (fold_max_min_reach rest first i) in Hin.
    replace (fold_left Z.min rest first <? 0)%Z with true by lia.
    reflexivity.
Qed.

Lemma setouterconductivities_reports_index_range_witness :
  setouterconductivities (PList (map PInt [0; -1]%Z))
    (PList [PFloat 2; PFloat 3])
    (two_nodes 1 (NInt 1) (-1) (dCdt_default demo_numerics)
       default_params default_params)
  = (Val (NoAction
            (if existsb (fun i => (1 * (1 * 2) <? i)%Z) [0; -1]%Z
             then "At least one node index is >m*n. No action taken."
             else "At least one node index is <0. No action taken.")),
     two_nodes 1 (NInt 1) (-1) (dCdt_default demo_numerics)
       default_params default_params).
Proof.
  apply (setouterconductivities_reports_index_range [0; -1]%Z
           [PFloat 2; PFloat 3]
           (two_nodes 1 (NInt 1) (-1) (dCdt_default demo_numerics)
              default_params default_params)).
  - reflexivity.
  - exists (-1)%Z. split; [cbn; auto|lia].
Defined.

Lemma py_any_negative (values : list pyval) (xs : vec) :
  Forall2 (fun v x => to_float v = Val x) values xs ->
  List.Exists (fun x => (x < 0)%R) xs ->
  py_any (fun item => c <~ py_lt item (PInt 0) ;;
                      Val (c && is_int_or_float item)) values
  = Val true.
Proof.
  induction 1 as [|v x values xs Hv _ IH]; intros Hneg;
    [inversion Hneg|].
  cbn [py_any].
  destruct v as [i|y| |]; try discriminate; injection Hv as <-;
    cbn [py_lt res_bind is_int_or_float].
  - destruct (Z.ltb_spec i 0) as [Hlt|Hge]; [reflexivity|].
    cbn [andb]. apply IH. inversion Hneg as [? ? Hx|]; subst;
      [|assumption].
    apply IZR_le in Hge. lra.
  - unfold Rltb. destruct (Rlt_dec y (IZR 0)); [reflexivity|].
    cbn [andb]. apply IH. inversion Hneg as [? ? Hx|]; subst;
      [|assumption].
    contradiction.
Qed.

(** X15. A negative conductance is reported, and nothing is stored.  With
    integer node numbers from [0] to [m*n] and as many numbers (integers
    or floats), one of them negative, the setter prints that
    conductivities must not be negative and leaves the colony as it
    was. *)
Theorem setouterconductivities_reports_negative_value (inds : list Z)
  (values : list pyval) (xs : vec) (self : t) :
  inds <> [] ->
  List.Forall (fun i => (0 <= i <= m self * n self)%Z) inds ->
  length values = length inds ->
  Forall2 (fun v x => to_float v = Val x) values xs ->
  List.Exists (fun x => (x < 0)%R) xs ->
  setouterconductivities (PList (map PInt inds)) (PList values) self
  = (Val (NoAction
            "Conductivities must be floats or ints ≥0. No action taken."),
     self).
Proof.
  intros Hne Hinds Hlen Hvals Hneg.
  unfold setouterconductivities, bind, gets, lift, ret.
  rewrite length_map, Hlen, Nat.eqb_refl. cbn [negb].
  destruct inds as [|first rest]; [contradiction|].
  inversion Hinds as [|? ? Hfirst Hrest]; subst.
  destruct (fold_max_bounds 0 (m self * n self + 1) rest first)
    as [Hmax Hmin]; [lia| |].
  { revert Hrest. apply List.Forall_impl. intros; lia. }
  cbn [map py_max py_min].
  rewrite py_best_gt_ints_val. cbn [py_gt py_lt].
  replace (m self * n self <? fold_left Z.max rest first)%Z with false
    by lia.
  rewrite py_best_lt_ints_val. cbn [py_lt].
  replace (fold_left Z.min rest first <? 0)%Z with false by lia.
  change (PInt first :: map PInt rest) with (map PInt (first :: rest)).
  rewrite (py_any_ints (first :: rest)).
  rewrite (py_any_negative values xs Hvals Hneg).
  reflexivity.
Qed.

Lemma setouterconductivities_reports_negative_value_witness :
  setouterconductivities (PList (map PInt [0; 1]%Z))
    (PList [PFloat 2; PInt (-3)])
    (two_nodes 1 (NInt 1) (-1) (dCdt_default demo_numerics)
       default_params default_params)
  = (Val (NoAction
            "Conductivities must be floats or ints ≥0. No action taken."),
     two_nodes 1 (NInt 1) (-1) (dCdt_default demo_numerics)
       default_params default_params).
Proof.
  apply (setouterconductivities_reports_negative_value [0; 1]%Z
           [PFloat 2; PInt (-3)] [2; -3]%R
           (two_nodes 1 (NInt 1) (-1) (dCdt_default demo_numerics)
              default_params default_params)).
  - discriminate.
  - repeat constructor; cbn; lia.
  - reflexivity.
  - repeat constructor.
  - right. left. lra.
Defined.

End SetterStores.

(** ** [UpdateColony]: the shape of its answer and a missing feedback law *)

Section UpdateShape.
Import Colony.











End UpdateShape.

(** ** [solvecolony]: when it answers and when it cannot *)

Section Solvable.
Import Colony.

(** X18. A colony as constructed on a lattice of positive width [w] and
    height [h], whatever outflow conductances (one per node) have been
    stored since, can be solved: the shapes that the constructor builds
    fit together, so [solvecolony] without keyword arguments and without
    feedback answers, with one pressure per node ([2*w*h]) and one
    conductance, and when asked one flow, per conduit ([5*w*h - w]). *)
Theorem constructed_colony_is_solvable (L : numerics) (calcflows : bool)
  (w h : Z) (ic : R) (oc : number) (q : R)
  (law : vec -> vec -> gmap string R -> res (vec * vec))
  (pin pout : gmap string R) (c0 : t) (out : vec) :
  solver_shaped L ->
  (0 < w)%Z -> (0 < h)%Z ->
  __init__ w h ic oc q law pin pout = Val c0 ->
  length out = Z.to_nat (2 * w * h) ->
  exists sols : networksols,
    solvecolony L calcflows false no_kwargs (set_OutflowConduits out c0)
    = (Val sols, set_OutflowConduits out c0) /\
    length (Pressures sols) = Z.to_nat (2 * w * h) /\
    conductivityfull sols = InnerConduits c0 ++ out /\
    length (conductivityfull sols) = Z.to_nat (5 * w * h - w) /\
    nrows (IncidenceFull sols) = Z.to_nat (5 * w * h - w) /\
    ncols (IncidenceFull sols) = Z.to_nat (2 * w * h) /\
    if calcflows
    then exists f, Flows sols = Some f /\
                   length f = Z.to_nat (5 * w * h - w)
    else Flows sols = None.
Proof.
  intros HL Hw Hh Hc0 Hout.
  destruct (init_val w h ic oc q law pin pout Hw Hh)
    as (c & Hc & Hshaped & Hn & Hm & _).
  assert (c = c0) as -> by congruence.
  destruct (init_inv _ _ _ _ _ _ _ _ _ Hc0)
    as (_ & _ & Hedges & Hinner & _).
  destruct (lattice_edges_length w h Hw Hh _ _ Hedges) as [Hrows _].
  assert (Hk : length (InnerConduits c0) = Z.to_nat (3 * w * h - w))
    by (now rewrite Hinner, repeat_length).
  assert (Hnodes : Z.to_nat (m c0 * n c0) = Z.to_nat (2 * w * h))
    by (rewrite Hn, Hm; f_equal; lia).
  assert (Hshaped' : shaped (set_OutflowConduits out c0)).
  { destruct Hshaped as (H1 & H2 & _ & H4).
    repeat split; cbn [set_OutflowConduits Incidence InnerConduits m n
                       OutflowConduits InFlow]; try assumption.
    now rewrite Hnodes. }
  destruct (extended_incidence_val _ Hshaped')
    as (A & HA & HrA & HcA & _).
  cbn [set_OutflowConduits InnerConduits m n] in HrA, HcA.
  assert (HC : length (InnerConduits c0 ++ out) = nrows A)
    by (rewrite length_app, HrA, Hout, Hnodes; reflexivity).
  destruct (system_matrix_val A _ HC) as (sys & Hsys & Hr & Hcs).
  destruct Hshaped' as (_ & _ & _ & Hq).
  cbn [set_OutflowConduits InFlow m n] in Hq.
  exists (mkSols (bicgstab L sys (InFlow c0) None).1
            (InnerConduits c0 ++ out) A
            (if calcflows
             then Some (zip_with Rmult (InnerConduits c0 ++ out)
                          (map (fun e =>
                                  row_dot A e
                                    (bicgstab L sys (InFlow c0) None).1)
                             (seq 0 (nrows A))))
             else None)
            None None).
  cbn [Pressures conductivityfull IncidenceFull Flows].
  assert (Hlen : Z.to_nat (5 * w * h - w)
                 = (Z.to_nat (3 * w * h - w) + Z.to_nat (2 * w * h))%nat)
    by nia.
  split; [|split; [|split; [|split; [|split; [|split]]]]].
  - rewrite solvecolony_unfold. cbv zeta.
    cbn [no_kwargs kw_conductivityfull kw_IncidenceFull kw_Pressures
         set_OutflowConduits InnerConduits OutflowConduits InFlow].
    rewrite HA. cbn [fst res_bind]. rewrite Hsys. cbn [res_bind].
    rewrite (solve_pressures_val L sys (InFlow c0) None)
      by (try exact I; congruence).
    cbn [res_bind]. destruct calcflows; [|reflexivity].
    rewrite edge_flows_val; [reflexivity|assumption|].
    rewrite HL. congruence.
  - rewrite HL, Hr, HcA, Hnodes. reflexivity.
  - reflexivity.
  - rewrite HC, HrA, Hk, Hnodes. lia.
  - rewrite HrA, Hk, Hnodes. lia.
  - now rewrite HcA, Hnodes.
  - destruct calcflows; [|reflexivity].
    eexists. split; [reflexivity|].
    rewrite length_zip_with, length_map, length_seq, HC, Nat.min_id.
    rewrite HrA, Hk, Hnodes. lia.
Qed.

Lemma constructed_colony_is_solvable_witness :
  exists sols : networksols,
    solvecolony demo_numerics true false no_kwargs
      (set_OutflowConduits [3; 4]%R
         (two_nodes 1 (NInt 1) (-1) (dCdt_default demo_numerics)
            default_params default_params))
    = (Val sols,
       set_OutflowConduits [3; 4]%R
         (two_nodes 1 (NInt 1) (-1) (dCdt_default demo_numerics)
            default_params default_params)) /\
    length (Pressures sols) = Z.to_nat (2 * 1 * 1) /\
    conductivityfull sols = [1; 1]%R ++ [3; 4]%R /\
    length (conductivityfull sols) = Z.to_nat (5 * 1 * 1 - 1) /\
    nrows (IncidenceFull sols) = Z.to_nat (5 * 1 * 1 - 1) /\
    ncols (IncidenceFull sols) = Z.to_nat (2 * 1 * 1) /\
    exists f, Flows sols = Some f /\ length f = Z.to_nat (5 * 1 * 1 - 1).
Proof.
  apply (constructed_colony_is_solvable demo_numerics true 1 1 1 (NInt 1) (-1)
           (dCdt_default demo_numerics) default_params default_params
           (two_nodes 1 (NInt 1) (-1) (dCdt_default demo_numerics)
              default_params default_params)
           [3; 4]%R direct_2x2_shaped);
    [lia|lia|reflexivity|reflexivity].
Defined.

(** X19. A conductance vector that does not have one entry per row of the
    incidence matrix in use cannot be solved with: the product
    [transpose(A) * diags(C)] does not exist, [solvecolony] ends with a
    [ValueError] and the colony is as before. *)
Theorem solvecolony_conductance_count_mismatch (L : numerics)
  (calcflows calcdCdt : bool) (kw : kwargs) (self : t) (A : matrix) :
  match kw_IncidenceFull kw with
  | None => (extended_incidence self).1
  | Some A' => Val A'
  end = Val A ->
  length match kw_conductivityfull kw with
         | None => InnerConduits self ++ OutflowConduits self
         | Some C => C
         end <> nrows A ->
  solvecolony L calcflows calcdCdt kw self = (Raise ValueError, self).
Proof.
  intros HA Hlen. rewrite solvecolony_unfold. cbv zeta. rewrite HA.
  cbn [res_bind]. unfold system_matrix, matmul at 1.
  cbn [ncols nrows transpose diags].
  destruct (Nat.eqb_spec (nrows A)
              (length match kw_conductivityfull kw with
                      | None => InnerConduits self ++ OutflowConduits self
                      | Some C => C
                      end)) as [E|_]; [congruence|].
  reflexivity.
Qed.

Lemma solvecolony_conductance_count_mismatch_witness :
  solvecolony demo_numerics true false
    (mkKwargs (Some [1; 1; 1]%R) None None)
    (two_nodes 1 (NInt 1) (-1) (dCdt_default demo_numerics)
       default_params default_params)
  = (Raise ValueError,
     two_nodes 1 (NInt 1) (-1) (dCdt_default demo_numerics)
       default_params default_params).
Proof.
  apply (solvecolony_conductance_count_mismatch demo_numerics true false
           (mkKwargs (Some [1; 1; 1]%R) None None) _ two_nodes_incidence).
  - reflexivity.
  - cbn. lia.
Defined.

End Solvable.

(** ** The constructor on a lattice of no width *)

(** X20. A colony of zero zooid columns cannot be constructed: with
    [nz = 0] the rows have length [n = 0], and the row ends
    [arange(n-1, m*n, n)] are asked for with step [0], which is a
    [ZeroDivisionError]. *)
Theorem init_zero_width_raises (mz : Z) (ic : R) (oc : number) (q : R)
  (law : vec -> vec -> gmap string R -> res (vec * vec))
  (pin pout : gmap string R) :
  Colony.__init__ 0 mz ic oc q law pin pout = Raise ZeroDivisionError.
Proof.
  unfold Colony.__init__. cbv zeta.
  rewrite arange_val by lia. cbn [res_bind].
  unfold Colony.internal_edges.
  rewrite !arange_val by lia. cbn [res_bind].
  reflexivity.
Qed.

(** ** What enters the colony leaves it *)

Lemma Rsum_plus {X : Type} (a b : X -> R) (l : list X) :
  Rsum (map (fun x => a x + b x)%R l)
  = (Rsum (map a l) + Rsum (map b l))%R.
Proof.
  induction l as [|x l IH]; cbn; [lra|].
  change (fold_right Rplus 0%R ?l) with (Rsum l) in *.
  rewrite IH. lra.
Qed.

Lemma Rsum_indicator (c : nat) (x : R) (s len : nat) :
  Rsum (map (fun j => if (c =? j)%nat then x else 0%R) (seq s len))
  = if (s <=? c)%nat && (c <? s + len)%nat then x else 0%R.
Proof.
  revert s. induction len as [|len IH]; intros s.
  - replace ((s <=? c)%nat && (c <? s + 0)%nat) with false; [reflexivity|].
    symmetry. apply Bool.not_true_is_false. intros H.
    apply andb_prop in H as [H1 H2].
    apply Nat.leb_le in H1. apply Nat.ltb_lt in H2. lia.
  - cbn [seq map].
    change (Rsum (?a :: ?l)) with (a + Rsum l)%R.
    rewrite IH.
    destruct (Nat.eqb_spec c s) as [->|Hne].
    + rewrite Nat.leb_refl.
      replace (Datatypes.S s <=? s)%nat with false
        by (symmetry; apply Nat.leb_gt; lia).
      replace (s <? s + Datatypes.S len)%nat with true
        by (symmetry; apply Nat.ltb_lt; lia).
      cbn [andb]. lra.
    + replace (c <? Datatypes.S s + len)%nat
        with (c <? s + Datatypes.S len)%nat by (f_equal; lia).
      replace (Datatypes.S s <=? c)%nat with (s <=? c)%nat.
      * apply Rplus_0_l.
      * destruct (Nat.leb_spec s c), (Nat.leb_spec (Datatypes.S s) c);
          try reflexivity; lia.
Qed.

(** Adding up the rows of a transposed matrix applied to a vector visits
    every stored triple whose column exists once. *)
Lemma sum_by_columns (g : nat * nat * R -> R) (l : list (nat * nat * R))
  (N : nat) :
  Rsum (map (fun j =>
               Rsum (map (fun e : nat * nat * R =>
                            if (e.1.2 =? j)%nat then g e else 0%R) l))
          (seq 0 N))
  = Rsum (map (fun e : nat * nat * R =>
                 if (e.1.2 <? N)%nat then g e else 0%R) l).
Proof.
  induction l as [|e l IH].
  - cbn [map]. change (Rsum []) with 0%R. apply Rsum_zero.
  - cbn [map].
    change (Rsum (?a :: ?l)) with (a + Rsum l)%R.
    rewrite <- IH.
    etransitivity;
      [apply (Rsum_ext _ (fun j =>
                (if (e.1.2 =? j)%nat then g e else 0)
                + Rsum (map (fun e0 : nat * nat * R =>
                               if (e0.1.2 =? j)%nat then g e0 else 0) l))%R);
       intros j; reflexivity|].
    rewrite Rsum_plus, Rsum_indicator. reflexivity.
Qed.

Lemma coo_matrix_inv_columns (data : list R) (row col : list Z)
  (shape : Z * Z) (M : matrix) :
  coo_matrix data row col shape = Val M ->
  List.Forall (fun j => (Z.to_nat j < Z.to_nat shape.2)%nat) col.
Proof.
  unfold coo_matrix.
  destruct (forallb (in_range shape.2) col) eqn:Hcol;
    [|rewrite andb_false_r; discriminate].
  intros _. rewrite forallb_forall in Hcol.
  apply List.Forall_forall. intros j Hj. specialize (Hcol j Hj).
  unfold in_range in Hcol. lia.
Qed.

(** The triples of a coordinate matrix with rows numbered from [s], every
    value [v] and every column below [N]: their values times [F] of
    their rows add up to [v] times the sum of [F] over the rows. *)
Lemma numbered_rows_total (F : nat -> R) (N : nat) (v : R)
  (cols : list Z) (s : nat) :
  List.Forall (fun j => (Z.to_nat j < N)%nat) cols ->
  Rsum (map (fun e : nat * nat * R =>
               if (e.1.2 <? N)%nat then (e.2 * F e.1.1)%R else 0%R)
          (zip_with (fun (ij : Z * Z) x => (Z.to_nat ij.1, Z.to_nat ij.2, x))
             (zip_with pair
                (map (fun k => (0 + Z.of_nat k * 1)%Z)
                   (seq s (length cols)))
                cols)
             (repeat v (length cols))))
  = (v * Rsum (map F (seq s (length cols))))%R.
Proof.
  intros Hcols. revert s.
  induction Hcols as [|c cols Hc _ IH]; intros s.
  - cbn. lra.
  - cbn [length seq map zip_with repeat fst snd].
    change (Rsum (?a :: ?l)) with (a + Rsum l)%R.
    rewrite IH.
    replace (Z.to_nat c <? N)%nat with true
      by (symmetry; apply Nat.ltb_lt; assumption).
    replace (Z.to_nat (0 + Z.of_nat s * 1)) with s by lia.
    lra.
Qed.

Lemma internal_incidence_total (rows cols : list Z) (nnz : nat)
  (nodes : Z) (inc : matrix) (F : nat -> R) :
  Colony.internal_incidence rows cols nnz nodes = Val inc ->
  length cols = length rows ->
  ncols inc = Z.to_nat nodes /\
  Rsum (map (fun e : nat * nat * R =>
               if (e.1.2 <? Z.to_nat nodes)%nat then (e.2 * F e.1.1)%R
               else 0%R)
          (entries inc)) = 0%R.
Proof.
  unfold Colony.internal_incidence. rewrite !arange_val by lia.
  cbn [res_bind]. intros H Hlen.
  res_inv H as tails Htails. res_inv H as heads Hheads.
  apply coo_matrix_inv_columns in Htails as Hrows.
  apply coo_matrix_inv_columns in Hheads as Hcols.
  apply coo_matrix_inv in Htails as (_ & _ & ->).
  apply coo_matrix_inv in Hheads as (_ & _ & ->).
  apply sparse_add_inv in H as (_ & Hnc & Hent).
  split; [exact Hnc|].
  rewrite Hent. cbn [entries snd] in *.
  rewrite map_app, Rsum_app. unfold arange_items.
  replace (Z.to_nat (- ((0 - Z.of_nat (length rows)) / 1)))
    with (length rows) by (rewrite Z.div_1_r; lia).
  replace (Z.to_nat (- ((0 - Z.of_nat (length cols)) / 1)))
    with (length cols) by (rewrite Z.div_1_r; lia).
  rewrite !numbered_rows_total by assumption.
  rewrite Hlen. lra.
Qed.

Lemma Rsum_skipn_nth (k N : nat) (f : vec) :
  length f = (k + N)%nat ->
  Rsum (map (fun i => nth (k + i) f 0%R) (seq 0 N)) = Rsum (skipn k f).
Proof.
  intros Hlen.
  assert (G : forall s (d : vec),
    Rsum (map (fun i => nth (i - s) d 0%R) (seq s (length d)))
    = Rsum d).
  { intros s d. revert s. induction d as [|x d IH]; intros s;
      [reflexivity|].
    cbn [length seq map].
    change (Rsum (?a :: ?l)) with (a + Rsum l)%R.
    rewrite Nat.sub_diag. cbn [nth]. f_equal.
    rewrite <- (IH (Datatypes.S s)).
    unfold Rsum. f_equal. apply map_ext_in. intros i Hi.
    apply in_seq in Hi.
    replace (i - s)%nat with (Datatypes.S (i - Datatypes.S s)) by lia.
    reflexivity. }
  rewrite <- (G 0%nat (skipn k f)), length_skipn.
  replace (length f - k)%nat with N by lia.
  apply Rsum_ext. intros i.
  now rewrite Nat.sub_0_r, !nth_lookup, lookup_drop.
Qed.

Section MassBalance.
Import Colony.

(** X21. What enters the colony leaves it.  On a colony as constructed,
    whatever outflow conductances have been stored since, when the
    pressures that [solvecolony] returns do solve the assembled system,
    the flows through the outflow conduits (listed after the internal
    conduits) add up to minus the sum of the injections [InFlow]: the
    internal conduits only pass flow on. *)
Theorem outflow_carries_the_injection (L : numerics) (calcdCdt : bool)
  (nz mz : Z) (ic : R) (oc : number) (q : R)
  (law : vec -> vec -> gmap string R -> res (vec * vec))
  (pin pout : gmap string R) (c0 c' : t) (out : vec)
  (sols : networksols) (sys : matrix) (f : vec) :
  __init__ nz mz ic oc q law pin pout = Val c0 ->
  solvecolony L true calcdCdt no_kwargs (set_OutflowConduits out c0)
  = (Val sols, c') ->
  system_matrix (IncidenceFull sols) (conductivityfull sols) = Val sys ->
  matvec sys (Pressures sols) = Val (InFlow c0) ->
  Flows sols = Some f ->
  Rsum (skipn (length (rowinds c0)) f) = (- Rsum (InFlow c0))%R.
Proof.
  intros Hc0 Hsolve Hsys Hsolved Hflows.
  destruct (init_incidence_rows _ _ _ _ _ _ _ _ _ Hc0) as (Hk & Hin & Hrows).
  destruct (init_inv _ _ _ _ _ _ _ _ _ Hc0)
    as (Hn & Hm & _ & _ & _ & _ & _ & _ & _ & Hinc & _).
  apply solvecolony_inv in Hsolve
    as (_ & HC & HA & _ & _ & _ & (f' & Hf & Hflows') & _).
  assert (f' = f) as -> by congruence.
  cbn [no_kwargs kw_conductivityfull kw_IncidenceFull
       set_OutflowConduits InnerConduits OutflowConduits] in HC, HA.
  apply edge_flows_value in Hf as [Hlen Hfval].
  assert (Hflen : length f = nrows (IncidenceFull sols)).
  { rewrite Hfval, length_zip_with, length_map, length_seq, Hlen. lia. }
  apply matvec_rows in Hsolved as Hq.
  destruct (system_matrix_rows _ _ _ (Pressures sols) 0%nat Hsys)
    as (_ & Hr & _ & _).
  destruct (internal_incidence_total _ _ _ _ _ (fun r => nth r f 0%R)
              Hinc Hk) as [Hcols Hinner].
  revert HA. unfold extended_incidence, bind, gets, lift. cbn.
  unfold sparse_vstack.
  destruct (Nat.eqb_spec (ncols (Incidence c0))
              (ncols (diags (repeat (-1)%R (Z.to_nat (m c0 * n c0))))))
    as [Hnodes|]; [|discriminate].
  intros [= HA]. cbn [ncols nrows diags] in Hnodes.
  rewrite repeat_length in Hnodes.
  rewrite Hq, Hr.
  rewrite (Rsum_ext _ (fun j => row_dot (transpose (IncidenceFull sols)) j f)).
  2:{ intros j.
      destruct (system_matrix_rows _ _ _ (Pressures sols) j Hsys)
        as (_ & _ & _ & ->).
      now rewrite <- Hfval. }
  unfold row_dot, row_apply, transpose. cbn [entries].
  rewrite (Rsum_ext _ (fun j =>
             Rsum (map (fun e : nat * nat * R =>
                          if (e.1.2 =? j)%nat
                          then (e.2 * nth e.1.1 f 0)%R else 0%R)
                     (entries (IncidenceFull sols)))))
    by (intros j; now rewrite map_map).
  rewrite sum_by_columns.
  rewrite <- HA in Hflen |- *. cbn [entries ncols nrows diags] in Hflen |- *.
  rewrite repeat_length in Hflen.
  rewrite map_app, Rsum_app, Hcols, Hinner.
  rewrite imap_repeat, !map_map. cbn [fst snd].
  assert (Houts :
    map (fun x : nat =>
           if (x <? Z.to_nat (nz * 2 * mz))%nat
           then (-1 * nth (nrows (Incidence c0) + x) f 0)%R else 0%R)
      (seq 0 (Z.to_nat (m c0 * n c0)))
    = map (fun x : nat => (-1 * nth (nrows (Incidence c0) + x) f 0)%R)
        (seq 0 (Z.to_nat (m c0 * n c0)))).
  { apply map_ext_in. intros i Hi. apply in_seq in Hi.
    replace (i <? Z.to_nat (nz * 2 * mz))%nat with true; [reflexivity|].
    symmetry. apply Nat.ltb_lt. lia. }
  rewrite Houts, Rsum_scale, Hrows,
    (Rsum_skipn_nth _ (Z.to_nat (m c0 * n c0))) by lia.
  lra.
Qed.

Lemma outflow_carries_the_injection_witness :
  Rsum (skipn 2 [0; 0; 1; 1]%R) = (- Rsum [-1; -1])%R.
Proof.
  eapply (outflow_carries_the_injection demo_numerics false 1 1 1 (NInt 1) (-1)
            (dCdt_default demo_numerics) default_params default_params
            (two_nodes 1 (NInt 1) (-1) (dCdt_default demo_numerics)
               default_params default_params)
            _ [1; 1]%R _ _ _ eq_refl two_nodes_unit_solve).
  - run. reflexivity.
  - run. f_equal. repeat (f_equal; try lra).
  - reflexivity.
Defined.

End MassBalance.

(** ** The coordinates of the nodes *)

Section Coordinates.
Import Colony.

Lemma init_coordinates (nz mz : Z) (ic : R) (oc : number) (q : R)
  (law : vec -> vec -> gmap string R -> res (vec * vec))
  (pin pout : gmap string R) (c : t) (k : nat) :
  __init__ nz mz ic oc q law pin pout = Val c ->
  (k < Z.to_nat (mz * (nz * 2)))%nat ->
  ys c !! k = Some (Z.of_nat k / (nz * 2))%Z /\
  xs c !! k
  = Some (Z.of_nat k mod (nz * 2) + Z.of_nat k / (nz * 2))%Z /\
  ysjig c !! k
  = Some (IZR (Z.of_nat k / (nz * 2))
          + 0.2 * IZR (Z.of_nat k mod 2))%R.
Proof.
  unfold __init__. cbv zeta. rewrite arange_val by lia. cbn [res_bind].
  intros H Hk.
  res_inv H as edges Hedges. res_inv H as UA HUA.
  res_inv H as Adj HAdj. res_inv H as Lap HLap. res_inv H as Inc HInc.
  injection H as <-. cbn [ys xs ysjig].
  assert (Hmn : arange_items 0 (mz * (nz * 2)) 1 !! k
                = Some (Z.of_nat k)).
  { unfold arange_items.
    change (map ?g ?l) with (g <$> l).
    rewrite list_lookup_fmap, lookup_seq_lt.
    - cbn. f_equal. lia.
    - rewrite Z.div_1_r. lia. }
  change (map ?g ?l) with (g <$> l).
  rewrite !lookup_zip_with, !list_lookup_fmap, !Hmn. cbn.
  rewrite ?list_lookup_fmap, ?Hmn. cbn. auto.
Qed.

(** X22. No two nodes of a colony constructed with [nz > 0] are drawn at
    the same place: a node is placed at [xs = k mod n + k div n] and
    [ysjig = k div n + 0.2 * (k mod 2)], and two node numbers with the same
    [xs] and the same [ysjig] are one and the same. *)
Theorem nodes_have_distinct_positions (nz mz : Z) (ic : R) (oc : number) (q : R)
  (law : vec -> vec -> gmap string R -> res (vec * vec))
  (pin pout : gmap string R) (c : t) (i j : nat) (x : Z) (y : R) :
  (0 < nz)%Z ->
  __init__ nz mz ic oc q law pin pout = Val c ->
  xs c !! i = Some x -> ysjig c !! i = Some y ->
  xs c !! j = Some x -> ysjig c !! j = Some y ->
  i = j.
Proof.
  intros Hnz Hc Hxi Hyi Hxj Hyj.
  assert (Hlen : (length (xs c) <= Z.to_nat (mz * (nz * 2)))%nat).
  { revert Hc. unfold __init__. cbv zeta.
    rewrite arange_val by lia. cbn [res_bind]. intros H.
    res_inv H as edges Hedges. res_inv H as UA HUA.
    res_inv H as Adj HAdj. res_inv H as Lap HLap. res_inv H as Inc HInc.
    injection H as <-. cbn [xs].
    rewrite length_zip_with, !length_map, arange_items_length,
      Z.div_1_r. lia. }
  apply lookup_lt_Some in Hxi as Hi. apply lookup_lt_Some in Hxj as Hj.
  destruct (init_coordinates _ _ _ _ _ _ _ _ _ i Hc ltac:(lia))
    as (_ & Hxi' & Hyi').
  destruct (init_coordinates _ _ _ _ _ _ _ _ _ j Hc ltac:(lia))
    as (_ & Hxj' & Hyj').
  rewrite Hxi in Hxi'. rewrite Hyi in Hyi'.
  rewrite Hxj in Hxj'. rewrite Hyj in Hyj'.
  injection Hxi' as Hxi'. injection Hyi' as Hyi'.
  injection Hxj' as Hxj'. injection Hyj' as Hyj'.
  assert (Hn : (0 < nz * 2)%Z) by lia.
  set (a := (Z.of_nat i / (nz * 2))%Z) in *.
  set (b := (Z.of_nat j / (nz * 2))%Z) in *.
  pose proof (Z.mod_pos_bound (Z.of_nat i) 2 ltac:(lia)) as Hp.
  pose proof (Z.mod_pos_bound (Z.of_nat j) 2 ltac:(lia)) as Hq.
  assert (Hab : a = b).
  { assert (E : IZR (10 * a + 2 * (Z.of_nat i mod 2))
                = IZR (10 * b + 2 * (Z.of_nat j mod 2))).
    { rewrite !plus_IZR, !mult_IZR. lra. }
    apply eq_IZR in E. lia. }
  pose proof (Z.div_mod (Z.of_nat i) (nz * 2) ltac:(lia)) as Hdi.
  pose proof (Z.div_mod (Z.of_nat j) (nz * 2) ltac:(lia)) as Hdj.
  fold a in Hdi. fold b in Hdj. nia.
Qed.

Lemma nodes_have_distinct_positions_witness :
  xs (two_nodes 1 (NInt 1) (-1) (dCdt_default demo_numerics)
        default_params default_params) !! 1%nat = Some 1%Z /\
  ysjig (two_nodes 1 (NInt 1) (-1) (dCdt_default demo_numerics)
           default_params default_params) !! 1%nat
  = Some (0 + 0.2 * 1)%R /\
  1%nat = 1%nat.
Proof.
  split; [reflexivity|]. split; [reflexivity|].
  apply (nodes_have_distinct_positions 1 1 1 (NInt 1) (-1)
           (dCdt_default demo_numerics) default_params default_params
           (two_nodes 1 (NInt 1) (-1) (dCdt_default demo_numerics)
              default_params default_params)
           1 1 1 (0 + 0.2 * 1)%R); [lia|reflexivity..].
Defined.

End Coordinates.
